(** * TrustTap: Keycard / NFC services and helpers

    A shallow embedding of
    - [NFCService] (APDU formatting and the commands sent to the card),
    - [KeycardService] (the connection flag, the card status object, PIN
      verification and signing),
    - [parseDerivationPath] / [isValidDerivationPath] from the helpers,
    - the [KEYCARD_CONFIG.APDU_COMMANDS] table,
    with the properties of the design document stated and settled on them.

    Conventions.  A JavaScript [string] is a [list ascii] (all the strings
    the properties inspect are made of ASCII characters); [chars "..."]
    writes a literal.  A [number] that holds a byte or a length is an [N],
    and a count of rounds a [nat]: these parameters are modelled on the
    non-negative integers, and the statements about them say so.  The PIN
    retry counter, which the code can drive below zero, is a [Z].  Numbers
    that [parseInt] and additions produce are [Helpers.number]: doubles
    that hold an integer, rounded as the language rounds them, the
    infinities and [NaN]. *)

From Stdlib Require Import ZArith NArith List Ascii String Bool Lia.
From stdpp Require Import base list.
Import ListNotations.

Local Open Scope N_scope.
Local Open Scope list_scope.

Definition chars (s : string) : list ascii := list_ascii_of_string s.

(** ** Hexadecimal text *)

Module Hex.

(** The digit character of [d < 16], lower case, as [Number.toString(16)]
    and [Buffer.toString('hex')] print it. *)
Definition hexChar (d : N) : ascii :=
  if d <? 10 then ascii_of_N (48 + d) else ascii_of_N (87 + d).

(** The value of a hexadecimal digit, either case; [None] for any other
    character. *)
Definition hexVal (c : ascii) : option N :=
  let n := N_of_ascii c in
  if (48 <=? n) && (n <=? 57) then Some (n - 48)
  else if (97 <=? n) && (n <=? 102) then Some (n - 87)
  else if (65 <=? n) && (n <=? 70) then Some (n - 55)
  else None.

(** Digits of [n], most significant first; empty for 0.  [fuel] bounds the
    number of digits. *)
Fixpoint hexDigits (fuel : nat) (n : N) : list N :=
  match fuel with
  | O => []
  | S f => if n =? 0 then [] else hexDigits f (n / 16) ++ [n mod 16]
  end.

(** [n.toString(16)] for a non-negative integer [n]. *)
Definition toString16 (n : N) : list ascii :=
  if n =? 0 then chars "0"
  else map hexChar (hexDigits (S (N.to_nat (N.log2 n))) n).

(** [s.slice(-2)]: the last two characters, or all of [s] when shorter. *)
Definition slice_last2 (s : list ascii) : list ascii :=
  skipn (length s - 2)%nat s.

(** Two lower-case digits for the byte [b < 256]. *)
Definition hex2 (b : N) : list ascii := [hexChar (b / 16); hexChar (b mod 16)].

(** [Buffer.from(s, 'hex')]: pairs of hexadecimal digits become bytes;
    decoding stops at the first pair that is not two hexadecimal digits, and
    a trailing single character is dropped. *)
Fixpoint Buffer_from_hex (s : list ascii) : list N :=
  match s with
  | a :: b :: rest =>
      match hexVal a, hexVal b with
      | Some x, Some y => (16 * x + y) :: Buffer_from_hex rest
      | _, _ => []
      end
  | _ => []
  end.

(** [Buffer.from(arr)] for an array of numbers keeps each entry modulo 256. *)
Definition Buffer_from_array (arr : list N) : list N :=
  map (fun x => x mod 256) arr.

(** [buf.toString('hex')]. *)
Definition Buffer_toString_hex (buf : list N) : list ascii :=
  flat_map hex2 buf.

(** [Buffer.from(s)] (UTF-8) of an ASCII string: its character codes. *)
Definition Buffer_from_string (s : list ascii) : list N := map N_of_ascii s.

(** Well-formed hexadecimal text: digits only, an even number of them. *)
Definition isHexText (s : list ascii) : Prop :=
  Forall (fun c => hexVal c <> None) s /\ Nat.Even (length s).

Definition isByte (b : N) : Prop := b < 256.

(** The value of a digit list, most significant digit first. *)
Definition digitsValue (ds : list N) : N :=
  fold_left (fun acc d => 16 * acc + d) ds 0.

End Hex.

(** ** NFCService: APDU formatting *)

Module NFC.
Import Hex.

(** [interface KeycardAPDU]; the optional fields are options.  The numeric
    fields hold non-negative integers, as in every command the sources
    build from constants; a negative or fractional number, which a caller
    of [getPublicKey] could pass for [p2], is outside the model. *)
Record KeycardAPDU := mkAPDU {
  cla : N;
  ins : N;
  p1 : N;
  p2 : N;
  data : option (list ascii);
  le : option N
}.

(** [byteToHex]: [('0' + byte.toString(16)).slice(-2)], for a non-negative
    integer [byte]. *)
Definition byteToHex (byte : N) : list ascii :=
  slice_last2 (chars "0" ++ toString16 byte).

(** Truthiness of [apdu.data]: defined and not the empty string. *)
Definition truthy (d : option (list ascii)) : bool :=
  match d with
  | Some (_ :: _) => true
  | _ => false
  end.

(** [formatAPDU]: the command as hexadecimal text. *)
Definition formatAPDU (apdu : KeycardAPDU) : list ascii :=
  let apduStr := [] in
  let apduStr := apduStr ++ byteToHex (cla apdu) in
  let apduStr := apduStr ++ byteToHex (ins apdu) in
  let apduStr := apduStr ++ byteToHex (p1 apdu) in
  let apduStr := apduStr ++ byteToHex (p2 apdu) in
  let apduStr :=
    if truthy (data apdu) then
      let d := default [] (data apdu) in
      let dataLength := N.of_nat (length (Buffer_from_hex d)) in
      (apduStr ++ byteToHex dataLength) ++ d
    else apduStr ++ chars "00" in
  match le apdu with
  | Some l => apduStr ++ byteToHex l
  | None => apduStr
  end.

(** The bytes [sendAPDU] hands to [NfcManager.transceive]:
    [Buffer.from(apduHex, 'hex').toJSON().data]. *)
Definition wireBytes (apdu : KeycardAPDU) : list N :=
  Buffer_from_hex (formatAPDU apdu).

End NFC.

(** ** NFCService: the commands and the exchange *)

Module NFCService.
Import Hex NFC.

(** The Keycard application identifier. *)
Definition KEYCARD_AID : list ascii := chars "A0000008040001".

(** The command objects the service methods build. *)
Definition selectAPDU : KeycardAPDU :=
  {| cla := 0x00; ins := 0xa4; p1 := 0x04; p2 := 0x00;
     data := Some KEYCARD_AID; le := Some 256 |}.

Definition statusAPDU : KeycardAPDU :=
  {| cla := 0x80; ins := 0xf2; p1 := 0x00; p2 := 0x00;
     data := None; le := Some 256 |}.

Definition verifyAPDU (pin : list ascii) : KeycardAPDU :=
  let pinHex := Buffer_toString_hex (Buffer_from_string pin) in
  {| cla := 0x80; ins := 0x20; p1 := 0x00; p2 := 0x00;
     data := Some pinHex; le := Some 0 |}.

Definition publicKeyAPDU (keyPath : N) : KeycardAPDU :=
  {| cla := 0x80; ins := 0xf7; p1 := 0x00; p2 := keyPath;
     data := None; le := Some 256 |}.

Definition signAPDU (d : list ascii) : KeycardAPDU :=
  {| cla := 0x80; ins := 0xc0; p1 := 0x00; p2 := 0x00;
     data := Some d; le := Some 256 |}.

(** What [sendAPDU] makes of the bytes the card answered:
    [Buffer.from(response).toString('hex')], the whole response as one
    hexadecimal string.  The service has no other response handling. *)
Definition responseHex (response : list N) : list ascii :=
  Buffer_toString_hex (Buffer_from_array response).

Inductive NFCError :=
| NotInitialized      (* 'NFC Manager not initialized' *)
| TransceiveFailed.   (* NfcManager.transceive rejected *)

Section Exchange.

(** The platform: a card with some state, answering a frame with bytes or
    failing, as [NfcManager.transceive] does. *)
Variable Card : Type.
Variable transceive : Card -> list N -> option (list N) * Card.

(** The service fields, the card in the field, and the frames handed to
    [transceive] so far, oldest first. *)
Record World := mkWorld {
  isInitialized : bool;
  isScanning : bool;
  card : Card;
  sent : list (list N)
}.

(** A method of the service: it throws or returns, and leaves a world. *)
Definition M (A : Type) : Type := World -> (NFCError + A) * World.

Definition ret {A} (a : A) : M A := fun w => (inr a, w).

Definition bind {A B} (m : M A) (f : A -> M B) : M B :=
  fun w => match m w with
           | (inl e, w') => (inl e, w')
           | (inr a, w') => f a w'
           end.

Definition sendAPDU (apdu : KeycardAPDU) : M (list ascii) :=
  fun w =>
    if negb (isInitialized w) then (inl NotInitialized, w)
    else
      let apduHex := formatAPDU apdu in
      let frame := Buffer_from_hex apduHex in
      let (answer, card') := transceive (card w) frame in
      let w' := {| isInitialized := isInitialized w;
                   isScanning := isScanning w;
                   card := card';
                   sent := sent w ++ [frame] |} in
      match answer with
      | Some response => (inr (responseHex response), w')
      | None => (inl TransceiveFailed, w')
      end.

Definition selectKeycard : M (list ascii) := sendAPDU selectAPDU.

Definition getKeycardStatus : M (list ascii) :=
  bind selectKeycard (fun _ => sendAPDU statusAPDU).

Definition verifyPin (pin : list ascii) : M (list ascii) :=
  bind selectKeycard (fun _ => sendAPDU (verifyAPDU pin)).

Definition getPublicKey (keyPath : N) : M (list ascii) :=
  bind selectKeycard (fun _ => sendAPDU (publicKeyAPDU keyPath)).

Definition signData (d : list ascii) : M (list ascii) :=
  bind selectKeycard (fun _ => sendAPDU (signAPDU d)).

(** The methods that talk to the card. *)
Inductive Method :=
| SelectKeycard
| GetKeycardStatus
| VerifyPin (pin : list ascii)
| GetPublicKey (keyPath : N)
| SignData (d : list ascii).

Definition call (m : Method) : M (list ascii) :=
  match m with
  | SelectKeycard => selectKeycard
  | GetKeycardStatus => getKeycardStatus
  | VerifyPin pin => verifyPin pin
  | GetPublicKey keyPath => getPublicKey keyPath
  | SignData d => signData d
  end.

End Exchange.

Arguments mkWorld {Card}.
Arguments isInitialized {Card}.
Arguments isScanning {Card}.
Arguments card {Card}.
Arguments sent {Card}.

End NFCService.

(** ** constants: KEYCARD_CONFIG.APDU_COMMANDS *)

Module KEYCARD_CONFIG.

Record CommandCode := { CLA : N; INS : N }.

Definition AID : list ascii := chars "A0000008040001".

Definition SELECT : CommandCode := {| CLA := 0x00; INS := 0xa4 |}.
Definition VERIFY_PIN : CommandCode := {| CLA := 0x80; INS := 0x20 |}.
Definition GET_PUBLIC_KEY : CommandCode := {| CLA := 0x80; INS := 0xf7 |}.
Definition SIGN : CommandCode := {| CLA := 0x80; INS := 0xc0 |}.
Definition GET_STATUS : CommandCode := {| CLA := 0x80; INS := 0xf2 |}.

End KEYCARD_CONFIG.

(** ** The codec as the design document words it *)

Module CodecSpec.
Import NFC.

(** [CLA|INS|P1|P2|[Lc|Data]|[Le]] read literally: no Lc and no data bytes
    when the command carries no data, Le exactly when it is set.  The data
    is given as bytes. *)
Definition encode (c i q1 q2 : N) (d : list N) (l : option N) : list N :=
  [c; i; q1; q2]
  ++ (match d with
      | [] => []
      | _ => N.of_nat (length d) :: d
      end)
  ++ (match l with
      | Some x => [x mod 256]
      | None => []
      end).

(** The literal encoding of a command object whose data is hexadecimal
    text. *)
Definition encodeAPDU (apdu : KeycardAPDU) : list N :=
  encode (cla apdu) (ins apdu) (p1 apdu) (p2 apdu)
         (Hex.Buffer_from_hex (default [] (data apdu))) (le apdu).

End CodecSpec.

(** ** Regular expressions

    The two patterns of the sources, [/^\d{4,6}$/] and [/^m(\/\d+'?)*$/],
    use only character classes, concatenation, option, bounded repetition
    and iteration, with both ends anchored: [test] answers whether the whole
    string belongs to the regular language.  [matches] decides that by
    derivatives. *)

Module Regex.

Inductive re :=
| Void                              (* matches nothing *)
| Eps                               (* the empty string *)
| Cls (p : ascii -> bool)           (* one character of a class *)
| Cat (r1 r2 : re)
| Alt (r1 r2 : re)
| Star (r : re).

Definition Chr (c : ascii) : re := Cls (Ascii.eqb c).
Definition Opt (r : re) : re := Alt r Eps.          (* r? *)
Definition Plus (r : re) : re := Cat r (Star r).    (* r+ *)

(** [r{n}] and [r{n,m}] for [n <= m]. *)
Fixpoint Rep (n : nat) (r : re) : re :=
  match n with
  | O => Eps
  | S k => Cat r (Rep k r)
  end.

Definition Between (n m : nat) (r : re) : re :=
  Cat (Rep n r) (Rep (m - n) (Opt r)).

(** [\d] in JavaScript: the ten ASCII digits. *)
Definition isDigit (c : ascii) : bool :=
  let n := N_of_ascii c in (48 <=? n) && (n <=? 57).

Definition Digit : re := Cls isDigit.

Fixpoint nullable (r : re) : bool :=
  match r with
  | Void => false
  | Eps => true
  | Cls _ => false
  | Cat r1 r2 => nullable r1 && nullable r2
  | Alt r1 r2 => nullable r1 || nullable r2
  | Star _ => true
  end.

Fixpoint deriv (c : ascii) (r : re) : re :=
  match r with
  | Void => Void
  | Eps => Void
  | Cls p => if p c then Eps else Void
  | Cat r1 r2 =>
      if nullable r1 then Alt (Cat (deriv c r1) r2) (deriv c r2)
      else Cat (deriv c r1) r2
  | Alt r1 r2 => Alt (deriv c r1) (deriv c r2)
  | Star r1 => Cat (deriv c r1) (Star r1)
  end.

(** [/^r$/.test(s)]. *)
Fixpoint matches (r : re) (s : list ascii) : bool :=
  match s with
  | [] => nullable r
  | c :: rest => matches (deriv c r) rest
  end.

(** The language of a pattern. *)
Inductive Lang : re -> list ascii -> Prop :=
| LEps : Lang Eps []
| LCls p c : p c = true -> Lang (Cls p) [c]
| LCat r1 r2 s1 s2 : Lang r1 s1 -> Lang r2 s2 -> Lang (Cat r1 r2) (s1 ++ s2)
| LAltL r1 r2 s : Lang r1 s -> Lang (Alt r1 r2) s
| LAltR r1 r2 s : Lang r2 s -> Lang (Alt r1 r2) s
| LStar0 r : Lang (Star r) []
| LStarS r s1 s2 : Lang r s1 -> Lang (Star r) s2 -> Lang (Star r) (s1 ++ s2).

End Regex.

(** ** KeycardService

    Calls are taken one after the other, each run to completion; the
    half-second timers inside the private helpers are left out. *)

Module Keycard.
Import Regex.

Local Open Scope Z_scope.

(** [interface KeycardStatus]. *)
Record KeycardStatus := mkStatus {
  initialized : bool;
  pinRetries : Z;
  pukRetries : Z;
  version : list ascii
}.

(** [interface SigningResult]. *)
Record SigningResult := mkSig {
  signature : list ascii;
  v : Z;
  r : list ascii;
  s : list ascii
}.

(** What the methods throw. *)
Inductive Error :=
| KeycardNotConnected          (* 'Keycard not connected' *)
| PinFormat                    (* 'PIN must be 4-6 digits' *)
| PinExhausted                 (* 'PIN attempts exhausted. Keycard locked.' *)
| InvalidPin (left : option Z) (* 'Invalid PIN. ${pinRetries} attempts remaining.' *)
| LibraryError.                (* thrown inside an ethers call *)

Definition Result (A : Type) : Type := (Error + A)%type.

(** The commands the service addresses to the card through its three
    private helpers.  The helpers are simulations: each resolves a canned
    answer and no frame goes to [NFCService]. *)
Inductive CardCommand :=
| PinVerification (pin : list ascii)
| Derivation (path : list ascii)
| Signing (dataToSign : list ascii).

(** The service object.  Status objects live in [heap], one cell per object
    literal evaluated; [cardStatus] is the reference the service holds
    ([None] for [null]).  [issued] lists the helper calls made, oldest
    first. *)
Record Service := mkService {
  isConnected : bool;
  cardStatus : option nat;
  heap : list KeycardStatus;
  issued : list CardCommand
}.

(** The state of [new KeycardService()]. *)
Definition fresh : Service :=
  {| isConnected := false; cardStatus := None; heap := []; issued := [] |}.

(** The status object the service currently refers to. *)
Definition currentStatus (k : Service) : option KeycardStatus :=
  match cardStatus k with
  | Some l => heap k !! l
  | None => None
  end.

(** The stored retry counter, [cardStatus?.pinRetries]. *)
Definition storedRetries (k : Service) : option Z :=
  option_map pinRetries (currentStatus k).

(** A status is stored only while the service is connected: true of a new
    service and kept by every call. *)
Definition statusImpliesConnected (k : Service) : Prop :=
  storedRetries k = None \/ isConnected k = true.

(** [initializeKeycard]: a new status object replaces the stored reference,
    unconditionally; the reference is also what the call returns.  Nothing
    in the guarded block can throw. *)
Definition initializeKeycard (k : Service) : Result nat * Service :=
  let l := length (heap k) in
  let obj := {| initialized := true; pinRetries := 3; pukRetries := 5;
                version := chars "3.4" |} in
  (inr l,
   {| isConnected := true;
      cardStatus := Some l;
      heap := heap k ++ [obj];
      issued := issued k |}).

(** [/^\d{4,6}$/]. *)
Definition pinPattern : re := Between 4 6 Digit.

Definition issue (c : CardCommand) (k : Service) : Service :=
  {| isConnected := isConnected k;
     cardStatus := cardStatus k;
     heap := heap k;
     issued := issued k ++ [c] |}.

(** [sendPinVerificationCommand]: accepts a PIN of length 4 or 6. *)
Definition sendPinVerificationCommand (pin : list ascii) (k : Service)
  : bool * Service :=
  ((length pin =? 4)%nat || (length pin =? 6)%nat, issue (PinVerification pin) k).

(** [sendDerivationCommand]: ['0x' + '02' + 'a'.repeat(128)]. *)
Definition mockPublicKey : list ascii :=
  chars "0x" ++ chars "02" ++ repeat "a"%char 128.

Definition sendDerivationCommand (path : list ascii) (k : Service)
  : list ascii * Service :=
  (mockPublicKey, issue (Derivation path) k).

(** [sendSigningCommand]: the canned signature. *)
Definition mockSignature : SigningResult :=
  {| signature := chars "0x" ++ repeat "b"%char 130;
     v := 27;
     r := chars "0x" ++ repeat "c"%char 64;
     s := chars "0x" ++ repeat "d"%char 64 |}.

Definition sendSigningCommand (dataToSign : list ascii) (k : Service)
  : SigningResult * Service :=
  (mockSignature, issue (Signing dataToSign) k).

(** [this.cardStatus.pinRetries--] on the object at [l]. *)
Definition decrementRetries (l : nat) (st : KeycardStatus) (k : Service) : Service :=
  {| isConnected := isConnected k;
     cardStatus := cardStatus k;
     heap := <[ l := {| initialized := initialized st;
                        pinRetries := pinRetries st - 1;
                        pukRetries := pukRetries st;
                        version := version st |} ]> (heap k);
     issued := issued k |}.

(** [verifyPin].  A stored reference always points into [heap]; the last
    case of the match is the [null] reference. *)
Definition verifyPin (pin : list ascii) (k : Service) : Result bool * Service :=
  if negb (isConnected k) then (inl KeycardNotConnected, k)
  else if negb (matches pinPattern pin) then (inl PinFormat, k)
  else
    let (isValid, k1) := sendPinVerificationCommand pin k in
    if negb isValid then
      match cardStatus k1, currentStatus k1 with
      | Some l, Some st =>
          let k2 := decrementRetries l st k1 in
          if pinRetries st - 1 =? 0 then (inl PinExhausted, k2)
          else (inl (InvalidPin (Some (pinRetries st - 1))), k2)
      | _, _ => (inl (InvalidPin None), k1)
      end
    else (inr true, k1).

(** [derivePublicKey]. *)
Definition derivePublicKey (path : list ascii) (k : Service)
  : Result (list ascii) * Service :=
  if negb (isConnected k) then (inl KeycardNotConnected, k)
  else let (pk, k1) := sendDerivationCommand path k in (inr pk, k1).

(** [getStatus], [isKeycardConnected], [disconnect]. *)
Definition getStatus (k : Service) : option nat := cardStatus k.

Definition isKeycardConnected (k : Service) : bool := isConnected k.

Definition disconnect (k : Service) : Service :=
  {| isConnected := false; cardStatus := None; heap := heap k; issued := issued k |}.

Section Ethers.

(** The [ethers] calls the service makes, as the library furnishes them.
    [serialize tx] is [ethers.Transaction.from(tx).serialized] and
    [address pk] is [ethers.getAddress(ethers.computeAddress(pk))]; [None]
    when the library throws. *)
Variable Transaction : Type.
Variable serialize : Transaction -> option (list ascii).
Variable keccak256 : list ascii -> list ascii.
Variable hashMessage : list ascii -> list ascii.
Variable address : list ascii -> option (list ascii).

(** [signTransaction]. *)
Definition signTransaction (transaction : Transaction) (k : Service)
  : Result SigningResult * Service :=
  if negb (isConnected k) then (inl KeycardNotConnected, k)
  else
    match serialize transaction with
    | None => (inl LibraryError, k)
    | Some serialized =>
        let txHash := keccak256 serialized in
        let (sg, k1) := sendSigningCommand txHash k in
        (inr {| signature := signature sg; v := v sg; r := r sg; s := s sg |}, k1)
    end.

(** [signMessage]. *)
Definition signMessage (message : list ascii) (k : Service)
  : Result (list ascii) * Service :=
  if negb (isConnected k) then (inl KeycardNotConnected, k)
  else
    let messageHash := hashMessage message in
    let (sg, k1) := sendSigningCommand messageHash k in
    (inr (signature sg), k1).

(** [getEthereumAddress]. *)
Definition getEthereumAddress (path : list ascii) (k : Service)
  : Result (list ascii) * Service :=
  match derivePublicKey path k with
  | (inl e, k1) => (inl e, k1)
  | (inr publicKey, k1) =>
      match address publicKey with
      | Some a => (inr a, k1)
      | None => (inl LibraryError, k1)
      end
  end.

(** One call on the service, result dropped. *)
Inductive Op :=
| InitializeKeycard
| VerifyPin (pin : list ascii)
| DerivePublicKey (path : list ascii)
| GetEthereumAddress (path : list ascii)
| SignTransaction (transaction : Transaction)
| SignMessage (message : list ascii)
| GetStatus
| IsKeycardConnected
| Disconnect.

Definition step (o : Op) (k : Service) : Service :=
  match o with
  | InitializeKeycard => snd (initializeKeycard k)
  | VerifyPin pin => snd (verifyPin pin k)
  | DerivePublicKey path => snd (derivePublicKey path k)
  | GetEthereumAddress path => snd (getEthereumAddress path k)
  | SignTransaction transaction => snd (signTransaction transaction k)
  | SignMessage message => snd (signMessage message k)
  | GetStatus => k
  | IsKeycardConnected => k
  | Disconnect => disconnect k
  end.

Definition run (ops : list Op) (k : Service) : Service :=
  fold_left (fun acc o => step o acc) ops k.

(** The count a reader of the code keeps of the stored [pinRetries] while
    following a sequence of calls on a new service: [None] while there is
    no status, 3 after [initializeKeycard], one less after each [verifyPin]
    whose PIN has the right format and is rejected by the card command. *)
Definition rejected (pin : list ascii) : bool :=
  matches pinPattern pin && negb ((length pin =? 4)%nat || (length pin =? 6)%nat).

Definition countStep (count : option Z) (o : Op) : option Z :=
  match o with
  | InitializeKeycard => Some 3
  | Disconnect => None
  | VerifyPin pin => if rejected pin then option_map (fun n => n - 1) count else count
  | _ => count
  end.

Definition clientCount (ops : list Op) : option Z :=
  fold_left countStep ops None.

End Ethers.

End Keycard.

(** ** Public keys as text *)

Module PublicKey.

(** The [n] bytes of [x], most significant first. *)
Fixpoint bigEndian (n : nat) (x : N) : list N :=
  match n with
  | O => []
  | S k => bigEndian k (x / 256) ++ [x mod 256]
  end.

(** A coordinate as 64 hexadecimal digits. *)
Definition hex32 (x : N) : list ascii :=
  Hex.Buffer_toString_hex (bigEndian 32 x).

(** The two texts of a secp256k1 public key, the curve point with
    coordinates [x] and [y], as [ethers] prints and reads keys (SEC 1):
    uncompressed, the byte 04 and the 32 bytes of each coordinate, which is
    what [SigningKey.recoverPublicKey] returns; compressed, the byte 02 or
    03 by the parity of [y] and the 32 bytes of [x]. *)
Definition uncompressed (x y : N) : list ascii :=
  chars "0x04" ++ hex32 x ++ hex32 y.

Definition compressed (x y : N) : list ascii :=
  chars "0x" ++ (if N.even y then chars "02" else chars "03") ++ hex32 x.

End PublicKey.

(** ** helpers: derivation paths *)

Module Helpers.
Import Regex.

Local Open Scope Z_scope.

(** A JavaScript number as [parseInt] and integer addition produce it: a
    double that holds an integer, an infinity, or [NaN].  [Num z] is only
    built through [toNumber], so [z] is always an integer some double
    holds. *)
Inductive number :=
| NaN
| Num (z : Z)
| Infinity (negative : bool).

(** The double nearest to the integer [z >= 0], ties going to the even
    significand (IEEE 754 round-to-nearest-even): [z] itself below 2^53;
    from there on the leading 53 bits of [z], rounded, followed by zeros;
    [None], standing for Infinity, when that reaches 2^1024. *)
Definition nearestDouble (z : Z) : option Z :=
  if z <? 2 ^ 53 then Some z
  else
    let e := Z.log2 z - 52 in
    let q := Z.shiftr z e in
    let rest := z - Z.shiftl q e in
    let half := 2 ^ (e - 1) in
    let q' := if rest <? half then q
              else if half <? rest then q + 1
              else if Z.even q then q else q + 1 in
    let v := Z.shiftl q' e in
    if v <? 2 ^ 1024 then Some v else None.

(** The number value of a mathematical integer (the sign of a zero is not
    kept: no function below tells [-0] from [0]). *)
Definition toNumber (z : Z) : number :=
  if z <? 0 then
    match nearestDouble (- z) with
    | Some v => Num (- v)
    | None => Infinity true
    end
  else
    match nearestDouble z with
    | Some v => Num v
    | None => Infinity false
    end.

Definition slash : ascii := "/"%char.
Definition apostrophe : ascii := "'"%char.

(** [/^m(\/\d+'?)*$/]; [segmentRegex] is the group [(\/\d+'?)]. *)
Definition segmentRegex : re :=
  Cat (Chr slash) (Cat (Plus Digit) (Opt (Chr apostrophe))).

Definition pathRegex : re := Cat (Chr "m") (Star segmentRegex).

Definition isValidDerivationPath (path : list ascii) : bool :=
  matches pathRegex path.

(** [s.split(sep)] for a one-character separator. *)
Fixpoint split (sep : ascii) (s : list ascii) : list (list ascii) :=
  match s with
  | [] => [[]]
  | c :: rest =>
      if Ascii.eqb c sep then [] :: split sep rest
      else match split sep rest with
           | p :: ps => (c :: p) :: ps
           | [] => [[c]]
           end
  end.

(** [arr.slice(1)]. *)
Definition slice1 {A} (arr : list A) : list A := tl arr.

(** [s.endsWith(c)] for a one-character [c]. *)
Fixpoint endsWith (c : ascii) (s : list ascii) : bool :=
  match s with
  | [] => false
  | [x] => Ascii.eqb x c
  | _ :: rest => endsWith c rest
  end.

(** [s.replace(c, '')] with a string pattern: the first occurrence goes. *)
Fixpoint replaceFirst (c : ascii) (s : list ascii) : list ascii :=
  match s with
  | [] => []
  | x :: rest => if Ascii.eqb x c then rest else x :: replaceFirst c rest
  end.

Definition digitValue (c : ascii) : Z := Z.of_N (N_of_ascii c) - 48.

(** The leading decimal digits of [s], accumulated left to right; the flag
    tells whether there was at least one. *)
Fixpoint leadingDigits (s : list ascii) (acc : Z) (seen : bool) : Z * bool :=
  match s with
  | c :: rest =>
      if isDigit c then leadingDigits rest (10 * acc + digitValue c) true
      else (acc, seen)
  | [] => (acc, seen)
  end.

(** White space that [parseInt] skips, within ASCII. *)
Definition isSpace (c : ascii) : bool :=
  let n := N_of_ascii c in
  (n =? 32)%N || ((9 <=? n)%N && (n <=? 13)%N).

Fixpoint skipSpaces (s : list ascii) : list ascii :=
  match s with
  | c :: rest => if isSpace c then skipSpaces rest else s
  | [] => []
  end.

(** [parseInt(s, 10)]: leading white space, an optional sign, then the
    longest run of digits, whose value is returned as a number, that is,
    rounded to the nearest double; [NaN] when there is no digit.  (Past
    twenty significant digits the language lets an engine read the further
    digits as zeros; the value rounded here is the exact one, as in V8.) *)
Definition parseInt10 (s : list ascii) : number :=
  let t := skipSpaces s in
  let (neg, body) :=
    match t with
    | c :: rest =>
        if Ascii.eqb c "-" then (true, rest)
        else if Ascii.eqb c "+" then (false, rest)
        else (false, t)
    | [] => (false, t)
    end in
  match leadingDigits body 0 false with
  | (n, true) => toNumber (if neg then - n else n)
  | (_, false) => NaN
  end.

(** [a + b] for a number [a] and an integer constant [b] that a double
    holds: the exact sum, rounded to the nearest double. *)
Definition addNum (a : number) (b : Z) : number :=
  match a with
  | Num z => toNumber (z + b)
  | Infinity negative => Infinity negative
  | NaN => NaN
  end.

Inductive HelperError :=
| InvalidDerivationPath.   (* 'Invalid derivation path' *)

(** [parseDerivationPath]. *)
Definition parseDerivationPath (path : list ascii) : HelperError + list number :=
  if negb (isValidDerivationPath path) then inl InvalidDerivationPath
  else
    let parts := slice1 (split slash path) in
    inr (map (fun part =>
                let hardened := endsWith apostrophe part in
                let index := parseInt10 (replaceFirst apostrophe part) in
                if hardened then addNum index 0x80000000 else index)
             parts).

End Helpers.

(** ** Derivation paths as the pattern describes them *)

Module PathSpec.

Local Open Scope Z_scope.

(** One [/index] segment: the decimal digits of the index, most significant
    first, and whether an apostrophe follows. *)
Record Segment := mkSegment {
  digits : list N;
  hardened : bool
}.

Definition wellFormed (sg : Segment) : Prop :=
  digits sg <> [] /\ Forall (fun d => (d < 10)%N) (digits sg).

(** The number a digit string denotes. *)
Fixpoint decimalValue (ds : list N) : Z :=
  match ds with
  | [] => 0
  | d :: rest => Z.of_N d * 10 ^ Z.of_nat (length rest) + decimalValue rest
  end.

Definition digitChar (d : N) : ascii := ascii_of_N (48 + d).

Definition segmentText (sg : Segment) : list ascii :=
  map digitChar (digits sg) ++ (if hardened sg then [Helpers.apostrophe] else []).

(** ["m"] followed by the segments, each behind a slash. *)
Definition pathText (segs : list Segment) : list ascii :=
  chars "m" ++ flat_map (fun sg => Helpers.slash :: segmentText sg) segs.

(** The integer the claim assigns to a segment. *)
Definition segmentIndex (sg : Segment) : Z :=
  if hardened sg then decimalValue (digits sg) + 2 ^ 31
  else decimalValue (digits sg).

(** The number the arithmetic of doubles makes of a segment: the index
    rounded to the nearest double and, for a hardened segment, 2^31 added
    to that with the sum rounded again. *)
Definition segmentNumber (sg : Segment) : Helpers.number :=
  let index := Helpers.toNumber (decimalValue (digits sg)) in
  if hardened sg then Helpers.addNum index (2 ^ 31) else index.

(** A string matches the pattern when it is the text of well-formed
    segments. *)
Definition matchesPattern (path : list ascii) : Prop :=
  exists segs, Forall wellFormed segs /\ path = pathText segs.

End PathSpec.

(** ** Concrete scenarios *)

Module Scenario.

(** A card that answers every frame with the given bytes. *)
Definition answering (response : list N) : unit -> list N -> option (list N) * unit :=
  fun _ _ => (Some response, tt).

(** An initialised [NFCService] facing such a card, nothing sent yet. *)
Definition ready : NFCService.World unit :=
  NFCService.mkWorld true false tt [].

(** A [KeycardService] right after [initializeKeycard]. *)
Definition connected : Keycard.Service :=
  snd (Keycard.initializeKeycard Keycard.fresh).

(** Stand-ins for the [ethers] calls: every transaction serialises to the
    same text and hashing leaves the text alone. *)
Definition serialize (_ : unit) : option (list ascii) := Some (chars "0xf86a").
Definition keccak256 (x : list ascii) : list ascii := x.

(** A five-digit PIN, which the simulated card command rejects, and a
    four-digit one, which it accepts. *)
Definition rejectedPin : list ascii := chars "12345".
Definition acceptedPin : list ascii := chars "1234".

(** The path of the first Ethereum account, [m/44'/60'/0'/0/0]. *)
Definition ethereumPath : list PathSpec.Segment :=
  [ PathSpec.mkSegment [4; 4] true; PathSpec.mkSegment [6; 0] true;
    PathSpec.mkSegment [0] true; PathSpec.mkSegment [0] false;
    PathSpec.mkSegment [0] false ].

(** The segments [/9007199254740993] (2^53 + 1) and
    [/9007199254740991'] (2^53 - 1, hardened). *)
Definition roundedSegment : PathSpec.Segment :=
  PathSpec.mkSegment [9; 0; 0; 7; 1; 9; 9; 2; 5; 4; 7; 4; 0; 9; 9; 3] false.

Definition roundedHardened : PathSpec.Segment :=
  PathSpec.mkSegment [9; 0; 0; 7; 1; 9; 9; 2; 5; 4; 7; 4; 0; 9; 9; 1] true.

End Scenario.

(** ** helpers: addresses, signatures, hexadecimal text, retries *)

Module HelperText.
Import Regex Helpers.

Local Open Scope Z_scope.

(** [[a-fA-F0-9]]. *)
Definition isHexChar (c : ascii) : bool :=
  let n := N_of_ascii c in
  ((97 <=? n)%N && (n <=? 102)%N)
  || ((65 <=? n)%N && (n <=? 70)%N)
  || ((48 <=? n)%N && (n <=? 57)%N).

(** [/^0x[a-fA-F0-9]{40}$/] and [/^0x[a-fA-F0-9]{130}$/]. *)
Definition addressRegex : re :=
  Cat (Chr "0") (Cat (Chr "x") (Rep 40 (Cls isHexChar))).

Definition signatureRegex : re :=
  Cat (Chr "0") (Cat (Chr "x") (Rep 130 (Cls isHexChar))).

Definition isValidEthereumAddress (address : list ascii) : bool :=
  matches addressRegex address.

Definition isValidSignature (signature : list ascii) : bool :=
  matches signatureRegex signature.

(** [s.slice(-n)] for [n > 0]: the last [n] characters, or all of [s]. *)
Definition sliceLast (n : nat) (s : list ascii) : list ascii :=
  skipn (length s - n)%nat s.

(** [formatAddress(address, length)] for a non-negative integer [length];
    the default is 6.  (A negative [length] makes [slice(0, length)] count
    from the end; that case is outside the model.) *)
Definition formatAddress (address : list ascii) (length : nat) : list ascii :=
  if negb (isValidEthereumAddress address) then address
  else firstn length address ++ chars "..." ++ sliceLast 4 address.

(** [toLowerCase] and [toUpperCase] on ASCII text. *)
Definition lowerChar (c : ascii) : ascii :=
  let n := N_of_ascii c in
  if (65 <=? n)%N && (n <=? 90)%N then ascii_of_N (n + 32) else c.

Definition upperChar (c : ascii) : ascii :=
  let n := N_of_ascii c in
  if (97 <=? n)%N && (n <=? 122)%N then ascii_of_N (n - 32) else c.

Definition toLowerCase (s : list ascii) : list ascii := map lowerChar s.
Definition toUpperCase (s : list ascii) : list ascii := map upperChar s.

(** [a === b] on strings. *)
Fixpoint strEq (a b : list ascii) : bool :=
  match a, b with
  | [], [] => true
  | x :: a', y :: b' => Ascii.eqb x y && strEq a' b'
  | _, _ => false
  end.

(** [addressesEqual]. *)
Definition addressesEqual (addr1 addr2 : list ascii) : bool :=
  if negb (isValidEthereumAddress addr1) || negb (isValidEthereumAddress addr2)
  then false
  else strEq (toLowerCase addr1) (toLowerCase addr2).

(** [truncate(str, length)] for a non-negative integer [length]. *)
Definition truncate (str : list ascii) (length : nat) : list ascii :=
  if (List.length str <=? length)%nat then str
  else firstn length str ++ chars "...".

(** The leading hexadecimal digits of [s], accumulated left to right. *)
Fixpoint leadingHex (s : list ascii) (acc : Z) (seen : bool) : Z * bool :=
  match s with
  | c :: rest =>
      match Hex.hexVal c with
      | Some d => leadingHex rest (16 * acc + Z.of_N d) true
      | None => (acc, seen)
      end
  | [] => (acc, seen)
  end.

(** [parseInt(s, 16)]: leading white space, an optional sign, an optional
    [0x] or [0X], then the longest run of hexadecimal digits, whose value
    is returned as a number (rounded to the nearest double); [NaN] when
    there is none. *)
Definition parseInt16 (s : list ascii) : number :=
  let t := skipSpaces s in
  let (neg, body) :=
    match t with
    | c :: rest =>
        if Ascii.eqb c "-" then (true, rest)
        else if Ascii.eqb c "+" then (false, rest)
        else (false, t)
    | [] => (false, t)
    end in
  let body :=
    match body with
    | z :: x :: rest =>
        if Ascii.eqb z "0" && (Ascii.eqb x "x" || Ascii.eqb x "X") then rest
        else body
    | _ => body
    end in
  match leadingHex body 0 false with
  | (n, true) => toNumber (if neg then - n else n)
  | (_, false) => NaN
  end.

(** Storing a number in a [Uint8Array] cell: [NaN] and the infinities
    become 0, an integer is taken modulo 256. *)
Definition toUint8 (x : number) : N :=
  match x with
  | NaN => 0%N
  | Infinity _ => 0%N
  | Num z => Z.to_N (z mod 256)
  end.

(** [hex.replace(/^0x/, '')]. *)
Definition stripHexPrefix (hex : list ascii) : list ascii :=
  match hex with
  | z :: x :: rest => if Ascii.eqb z "0" && Ascii.eqb x "x" then rest else hex
  | _ => hex
  end.

(** [s.substr(i, 2)]. *)
Definition substr2 (i : nat) (s : list ascii) : list ascii :=
  firstn 2 (skipn i s).

(** The loop of [hexToBytes]: [i] advances by two while it is below the
    length of the text; a write past the end of the typed array is ignored.
    [fuel] bounds the number of rounds. *)
Fixpoint hexToBytesLoop (fuel i : nat) (hexString : list ascii) (bytes : list N)
  : list N :=
  match fuel with
  | O => bytes
  | S f =>
      if (i <? length hexString)%nat then
        hexToBytesLoop f (i + 2) hexString
          (<[ Nat.div i 2 := toUint8 (parseInt16 (substr2 i hexString)) ]> bytes)
      else bytes
  end.

(** [hexToBytes]: [new Uint8Array(hexString.length / 2)] has the integer
    part of that many cells, all zero. *)
Definition hexToBytes (hex : list ascii) : list N :=
  let hexString := stripHexPrefix hex in
  let bytes := repeat 0%N (Nat.div (length hexString) 2) in
  hexToBytesLoop (length hexString) 0 hexString bytes.

(** [bytesToHex] of the cells of a [Uint8Array]. *)
Definition bytesToHex (bytes : list N) : list ascii :=
  fold_left
    (fun hex b =>
       let byte := Hex.toString16 b in
       hex ++ (if (length byte =? 1)%nat then chars "0" ++ byte else byte))
    bytes (chars "0x").

Inductive ChecksumError :=
| InvalidEthereumAddress.   (* 'Invalid Ethereum address' *)

Section Checksum.

(** [require('crypto').createHash('sha256').update(addr).digest('hex')]. *)
Variable sha256hex : list ascii -> list ascii.

(** The comparison [parseInt(hash[i], 16) > 7]; a missing character and
    [NaN] compare false. *)
Definition above7 (hash : list ascii) (i : nat) : bool :=
  match nth_error hash i with
  | Some c =>
      match parseInt16 [c] with
      | Num z => 7 <? z
      | Infinity negative => negb negative
      | NaN => false
      end
  | None => false
  end.

(** The loop of [toChecksumAddress] from index [i] on, over the characters
    of [addr] that remain. *)
Fixpoint checksumLoop (hash : list ascii) (i : nat) (rest : list ascii)
  (result : list ascii) : list ascii :=
  match rest with
  | [] => result
  | c :: rest' =>
      checksumLoop hash (S i) rest'
        (result ++ [if above7 hash i then upperChar c else c])
  end.

Definition toChecksumAddress (address : list ascii)
  : ChecksumError + list ascii :=
  if negb (matches addressRegex address) then inl InvalidEthereumAddress
  else
    let addr := toLowerCase (skipn 2 address) in
    let hash := sha256hex addr in
    inr (checksumLoop hash 0 addr (chars "0x")).

End Checksum.

(** *** retryWithBackoff *)

Inductive RetryError (E : Type) :=
| Thrown (e : E)         (* the error of the last attempt *)
| MaxRetriesExceeded.    (* 'Max retries exceeded' *)

Arguments Thrown {E}.
Arguments MaxRetriesExceeded {E}.

Section Retry.

(** The retried operation, with whatever state it works on. *)
Variables (S E T : Type).
Variable fn : S -> (E + T) * S.

(** The state of the operation, the number of calls made, and the delays
    slept, oldest first. *)
Record Attempts := mkAttempts {
  opState : S;
  calls : nat;
  slept : list N
}.

(** The [for] loop from round [i] on, [rounds] rounds being left
    ([rounds = maxRetries - i]). *)
Fixpoint retryLoop (rounds i maxRetries : nat) (initialDelay : N) (a : Attempts)
  : (RetryError E + T) * Attempts :=
  match rounds with
  | O => (inl MaxRetriesExceeded, a)
  | Datatypes.S rounds' =>
      let (res, st) := fn (opState a) in
      let a' := {| opState := st; calls := Datatypes.S (calls a); slept := slept a |} in
      match res with
      | inr t => (inr t, a')
      | inl e =>
          if (i =? maxRetries - 1)%nat then (inl (Thrown e), a')
          else
            let delay := (initialDelay * 2 ^ N.of_nat i)%N in
            retryLoop rounds' (Datatypes.S i) maxRetries initialDelay
              {| opState := st; calls := calls a'; slept := slept a' ++ [delay] |}
      end
  end.

(** [retryWithBackoff(fn, maxRetries, initialDelay)] for non-negative
    integers [maxRetries] and [initialDelay]; the defaults are 3 and 1000.
    (With a fractional [maxRetries] the test [i === maxRetries - 1] never
    holds; that case is outside the model.) *)
Definition retryWithBackoff (maxRetries : nat) (initialDelay : N) (st : S)
  : (RetryError E + T) * Attempts :=
  retryLoop maxRetries 0 maxRetries initialDelay
    {| opState := st; calls := 0; slept := [] |}.

End Retry.

Arguments opState {S}.
Arguments calls {S}.
Arguments slept {S}.

End HelperText.

(** ** KeycardService: what every reachable state satisfies *)

Module KeycardInvariant.
Import Keycard.

(** A status implies a connection, and the counter is at most 3. *)
Definition bounded (k : Service) : Prop :=
  statusImpliesConnected k /\ forall n, storedRetries k = Some n -> (n <= 3)%Z.

End KeycardInvariant.

(** ** NFCService: start, scan, clean up

    The calls into [NfcManager] are taken with their outcome: whether
    [start], [requestTechnology] and [cancelTechnologyRequest] resolve, and
    what [getTag] gives. *)

Module NFCLifecycle.
Import NFCService.

(** What [getTag] resolves to; any field may be missing. *)
Record TagInfo := mkTagInfo {
  tagType : option (list ascii);
  tagId : option (list ascii);
  tagTech : option (list (list ascii))
}.

(** [interface NFCTag]. *)
Record NFCTag := mkNFCTag {
  type : list ascii;
  id : list ascii;
  tech : list (list ascii)
}.

Inductive ScanError :=
| ScanNotInitialized   (* 'NFC Manager not initialized' *)
| PlatformRejected     (* a rejected NfcManager call *)
| NoTagDetected.       (* 'No NFC tag detected' *)

(** [x || d] for a string that may be missing. *)
Definition orString (x : option (list ascii)) (d : list ascii) : list ascii :=
  match x with
  | Some (c :: s) => c :: s
  | _ => d
  end.

(** [x || []] for an array that may be missing. *)
Definition orArray {A} (x : option (list A)) : list A :=
  match x with
  | Some l => l
  | None => []
  end.

Section Service.

Variable Card : Type.
Variable transceive : Card -> list N -> option (list N) * Card.

Definition setInitialized (b : bool) (w : World Card) : World Card :=
  {| isInitialized := b; isScanning := isScanning w; card := card w; sent := sent w |}.

Definition setScanning (b : bool) (w : World Card) : World Card :=
  {| isInitialized := isInitialized w; isScanning := b; card := card w; sent := sent w |}.

(** [initialize]. *)
Definition initialize (startOk : bool) (w : World Card)
  : (ScanError + unit) * World Card :=
  if startOk then (inr tt, setInitialized true w)
  else (inl PlatformRejected, w).

(** [stopScanning]: a rejection of [cancelTechnologyRequest] is caught. *)
Definition stopScanning (cancelOk : bool) (w : World Card) : unit * World Card :=
  (tt, w).

(** [startScanning]: [getTag] is [None] when it rejects and [Some None] when
    it resolves to [null]; the [finally] block runs on every path through
    the guarded block. *)
Definition startScanning (requestOk : bool) (getTag : option (option TagInfo))
    (cancelOk : bool) (w : World Card) : (ScanError + NFCTag) * World Card :=
  if negb (isInitialized w) then (inl ScanNotInitialized, w)
  else
    let w1 := setScanning true w in
    let outcome :=
      if negb requestOk then inl PlatformRejected
      else match getTag with
           | None => inl PlatformRejected
           | Some None => inl NoTagDetected
           | Some (Some tag) =>
               inr {| type := orString (tagType tag) (chars "unknown");
                      id := orString (tagId tag) [];
                      tech := orArray (tagTech tag) |}
           end in
    let w2 := setScanning false w1 in
    let (_, w3) := stopScanning cancelOk w2 in
    (outcome, w3).

(** [isCurrentlyScanning]. *)
Definition isCurrentlyScanning (w : World Card) : bool := isScanning w.

(** [cleanup]. *)
Definition cleanup (cancelOk : bool) (w : World Card) : World Card :=
  let w1 := if isScanning w then snd (stopScanning cancelOk w) else w in
  setInitialized false w1.

(** One completed call on the service. *)
Inductive Op :=
| Initialize (startOk : bool)
| StartScanning (requestOk : bool) (getTag : option (option TagInfo)) (cancelOk : bool)
| StopScanning (cancelOk : bool)
| Cleanup (cancelOk : bool)
| Call (m : Method).

Definition step (o : Op) (w : World Card) : World Card :=
  match o with
  | Initialize startOk => snd (initialize startOk w)
  | StartScanning requestOk getTag cancelOk =>
      snd (startScanning requestOk getTag cancelOk w)
  | StopScanning cancelOk => snd (stopScanning cancelOk w)
  | Cleanup cancelOk => cleanup cancelOk w
  | Call m => snd (call Card transceive m w)
  end.

Definition run (ops : list Op) (w : World Card) : World Card :=
  fold_left (fun acc o => step o acc) ops w.

(** Whether the calls made leave the service initialised: the last
    successful [initialize] or [cleanup] decides. *)
Definition initialisedAfter (ops : list Op) : bool :=
  fold_left (fun acc o =>
               match o with
               | Initialize true => true
               | Cleanup _ => false
               | _ => acc
               end) ops false.

(** The state of [new NFCService()] in front of a card. *)
Definition created (c : Card) : World Card := mkWorld false false c [].

End Service.

End NFCLifecycle.

(** ** NFCModule.java

    A Java [byte] is written as the number from 0 to 255 with the same
    eight bits. *)

Module NFCModuleJava.

Local Open Scope Z_scope.

(** [Character.digit(c, 16)] on ASCII: the value of a digit, or -1. *)
Definition digit16 (c : ascii) : Z :=
  match Hex.hexVal c with
  | Some d => Z.of_N d
  | None => -1
  end.

(** The narrowing [(byte) x]. *)
Definition toByte (x : Z) : N := Z.to_N (x mod 256).

(** The loop of [hexStringToByteArray]; [None] when [charAt] is out of
    range.  [fuel] bounds the number of rounds. *)
Fixpoint hexStringLoop (fuel i : nat) (s : list ascii) (data : list N)
  : option (list N) :=
  match fuel with
  | O => Some data
  | S f =>
      if (i <? length s)%nat then
        match nth_error s i, nth_error s (i + 1) with
        | Some a, Some b =>
            hexStringLoop f (i + 2) s
              (<[ Nat.div i 2 := toByte (Z.shiftl (digit16 a) 4 + digit16 b) ]> data)
        | _, _ => None
        end
      else Some data
  end.

Definition hexStringToByteArray (s : list ascii) : option (list N) :=
  let len := length s in
  hexStringLoop len 0 s (repeat 0%N (Nat.div len 2)).

(** The digit [d < 16] as [%X] prints it. *)
Definition upperHexChar (d : N) : ascii :=
  if (d <? 10)%N then ascii_of_N (48 + d) else ascii_of_N (55 + d).

(** [String.format("%02X", b)]. *)
Definition format02X (b : N) : list ascii :=
  [upperHexChar (b / 16); upperHexChar (b mod 16)].

Definition byteArrayToHexString (bytes : list N) : list ascii :=
  flat_map format02X bytes.

Inductive Rejection :=
| NFC_ERROR     (* reject("NFC_ERROR", ...) *)
| APDU_ERROR.   (* reject("APDU_ERROR", ...) *)

Section Android.

(** The [IsoDep] object of the platform: whether it is connected, an
    exchange ([None] for an exception), and [close], which may throw and
    leaves the object in some state either way. *)
Variable IsoDep : Type.
Variable isConnected : IsoDep -> bool.
Variable transceive : IsoDep -> list N -> option (list N) * IsoDep.
Variable close : IsoDep -> bool * IsoDep.

(** The field [isoDep] of the module; [None] is [null]. *)
Record Module := mkModule { isoDep : option IsoDep }.

(** [sendAPDU]. *)
Definition sendAPDU (apduHex : list ascii) (m : Module)
  : (Rejection + list ascii) * Module :=
  match isoDep m with
  | None => (inl NFC_ERROR, m)
  | Some d =>
      if negb (isConnected d) then (inl NFC_ERROR, m)
      else
        match hexStringToByteArray apduHex with
        | None => (inl APDU_ERROR, m)
        | Some apduBytes =>
            match transceive d apduBytes with
            | (Some response, d') =>
                (inr (byteArrayToHexString response), {| isoDep := Some d' |})
            | (None, d') => (inl APDU_ERROR, {| isoDep := Some d' |})
            end
        end
  end.

(** [disconnectTag]. *)
Definition disconnectTag (m : Module) : (Rejection + unit) * Module :=
  match isoDep m with
  | Some d =>
      if isConnected d then
        match close d with
        | (true, _) => (inr tt, {| isoDep := None |})
        | (false, d') => (inl NFC_ERROR, {| isoDep := Some d' |})
        end
      else (inr tt, m)
  | None => (inr tt, m)
  end.

End Android.

Arguments isoDep {IsoDep}.
Arguments mkModule {IsoDep}.

End NFCModuleJava.

(** ** EthereumService: waiting for a confirmation *)

Module EthereumService.

Local Open Scope N_scope.

Record Receipt := mkReceipt {
  transactionHash : list ascii;
  blockNumber : N;
  gasUsed : N;
  status : N;
  confirmations : N
}.

(** [getTransactionReceipt]: the canned receipt. *)
Definition getTransactionReceipt (txHash : list ascii) : Receipt :=
  {| transactionHash := txHash; blockNumber := 18000000; gasUsed := 21000;
     status := 1; confirmations := 12 |}.

Inductive WaitError :=
| ConfirmationTimeout.   (* 'Transaction confirmation timeout' *)

(** The receipts fetched and the pauses made, in milliseconds. *)
Record Waiting := mkWaiting {
  polls : nat;
  pauses : list N
}.

Definition maxAttempts : nat := 120.

(** The [while (attempts < maxAttempts)] loop, [rounds] being
    [maxAttempts - attempts]. *)
Fixpoint waitLoop (rounds : nat) (txHash : list ascii) (wanted : N) (p : Waiting)
  : (WaitError + Receipt) * Waiting :=
  match rounds with
  | O => (inl ConfirmationTimeout, p)
  | S rounds' =>
      let receipt := getTransactionReceipt txHash in
      let p1 := {| polls := S (polls p); pauses := pauses p |} in
      if wanted <=? confirmations receipt then (inr receipt, p1)
      else waitLoop rounds' txHash wanted
             {| polls := polls p1; pauses := pauses p1 ++ [1000] |}
  end.

(** [waitForTransaction(txHash, confirmations)]; the default is 1. *)
Definition waitForTransaction (txHash : list ascii) (wanted : N)
  : (WaitError + Receipt) * Waiting :=
  waitLoop maxAttempts txHash wanted {| polls := 0; pauses := [] |}.

End EthereumService.

(** ** HumanPassportService: the two address-bound requests *)

Module HumanPassport.

(** The query parameters of [getUserStamps]. *)
Record StampParams := mkStampParams {
  include_metadata : bool;
  limit : option N;
  token : option (list ascii)
}.

(** A GET handed to the HTTP client. *)
Record Request := mkRequest {
  url : list ascii;
  params : option StampParams
}.

Inductive PassportError :=
| InvalidAddressFormat   (* 'Invalid Ethereum address format' *)
| RequestFailed.         (* the client rejected *)

Section Client.

(** The HTTP client: the body of the response, or [None] when the request
    fails. *)
Variable Body : Type.
Variable get : Request -> option Body.

(** The configuration of the service and the requests made so far. *)
Record Service := mkService {
  scorerId : list ascii;
  requests : list Request
}.

Definition record (r : Request) (s : Service) : Service :=
  {| scorerId := scorerId s; requests := requests s ++ [r] |}.

(** [getPassportScore]. *)
Definition getPassportScore (address : list ascii) (s : Service)
  : (PassportError + Body) * Service :=
  if negb (Regex.matches HelperText.addressRegex address)
  then (inl InvalidAddressFormat, s)
  else
    let r := {| url := chars "/v2/stamps/" ++ scorerId s ++ chars "/score/" ++ address;
                params := None |} in
    match get r with
    | Some body => (inr body, record r s)
    | None => (inl RequestFailed, record r s)
    end.

(** Truthiness of the optional [limit] and [token]. *)
Definition truthyNumber (x : option N) : option N :=
  match x with
  | Some 0%N => None
  | other => other
  end.

Definition truthyString (x : option (list ascii)) : option (list ascii) :=
  match x with
  | Some [] => None
  | other => other
  end.

(** [getUserStamps]. *)
Definition getUserStamps (address : list ascii) (lim : option N)
    (tok : option (list ascii)) (s : Service)
  : (PassportError + Body) * Service :=
  if negb (Regex.matches HelperText.addressRegex address)
  then (inl InvalidAddressFormat, s)
  else
    let ps := {| include_metadata := true;
                 limit := truthyNumber lim;
                 token := truthyString tok |} in
    let r := {| url := chars "/v2/stamps/" ++ address; params := Some ps |} in
    match get r with
    | Some body => (inr body, record r s)
    | None => (inl RequestFailed, record r s)
    end.

End Client.

End HumanPassport.

(** ** Facts about hexadecimal text *)

Module HexFacts.
Import Hex.

Lemma small_cases (d : N) :
  d < 16 ->
  d = 0 \/ d = 1 \/ d = 2 \/ d = 3 \/ d = 4 \/ d = 5 \/ d = 6 \/ d = 7 \/
  d = 8 \/ d = 9 \/ d = 10 \/ d = 11 \/ d = 12 \/ d = 13 \/ d = 14 \/ d = 15.
Proof. lia. Qed.

Lemma hexVal_hexChar (d : N) : d < 16 -> hexVal (hexChar d) = Some d.
Proof.
  intros Hd. apply small_cases in Hd.
  repeat (destruct Hd as [-> | Hd]; [reflexivity |]). subst. reflexivity.
Qed.

Lemma digitsValue_snoc ds d : digitsValue (ds ++ [d]) = 16 * digitsValue ds + d.
Proof. unfold digitsValue. now rewrite fold_left_app. Qed.

(** With fuel for every digit, [hexDigits] is the positional notation of
    [n]: nothing is cut off. *)
Lemma hexDigits_value (fuel : nat) :
  forall n, n < 16 ^ N.of_nat fuel -> digitsValue (hexDigits fuel n) = n.
Proof.
  induction fuel as [| f IH]; intros n Hn.
  - simpl in Hn. assert (n = 0) by lia. now subst.
  - cbn [hexDigits]. destruct (N.eqb_spec n 0) as [-> | Hnz]; [reflexivity |].
    rewrite digitsValue_snoc, IH.
    + pose proof (N.div_mod n 16). lia.
    + rewrite Nnat.Nat2N.inj_succ, N.pow_succ_r' in Hn.
      apply N.Div0.div_lt_upper_bound. lia.
Qed.

Lemma toString16_fuel (n : N) :
  n <> 0 -> n < 16 ^ N.of_nat (S (N.to_nat (N.log2 n))).
Proof.
  intros Hn.
  rewrite Nnat.Nat2N.inj_succ, Nnat.N2Nat.id.
  assert (Hlog : n < 2 ^ N.succ (N.log2 n)) by (apply N.log2_spec; lia).
  eapply N.lt_le_trans; [exact Hlog |].
  apply N.pow_le_mono_l. lia.
Qed.

Lemma toString16_value (n : N) :
  n <> 0 ->
  exists ds, toString16 n = map hexChar ds /\ digitsValue ds = n /\ ds <> [].
Proof.
  intros Hn. unfold toString16.
  destruct (N.eqb_spec n 0) as [? | _]; [contradiction |].
  eexists. split; [reflexivity |]. split.
  - apply hexDigits_value, toString16_fuel, Hn.
  - cbn [hexDigits]. destruct (N.eqb_spec n 0); [contradiction |].
    intros H. now apply app_eq_nil in H as [_ H].
Qed.

Lemma slice_last2_snoc2 (l : list ascii) a b :
  slice_last2 (l ++ [a; b]) = [a; b].
Proof.
  unfold slice_last2. rewrite length_app. cbn [length].
  replace (length l + 2 - 2)%nat with (length l + 0)%nat by lia.
  rewrite skipn_app, Nat.add_0_r, skipn_all.
  replace (length l - length l)%nat with 0%nat by lia. reflexivity.
Qed.

Lemma hex2_mod256 (n : N) :
  hex2 (n mod 256) = [hexChar ((n / 16) mod 16); hexChar (n mod 16)].
Proof.
  unfold hex2. f_equal; [| f_equal]; f_equal.
  - change 256 with (16 * 16).
    rewrite N.Div0.mod_mul_r.
    rewrite N.mul_comm, N.div_add by lia.
    rewrite N.div_small by (apply N.mod_lt; lia). reflexivity.
  - change 256 with (16 * 16).
    rewrite N.Div0.mod_mul_r.
    rewrite N.mul_comm, N.Div0.mod_add, N.Div0.mod_mod. reflexivity.
Qed.

Lemma hexDigits_zero fuel : hexDigits fuel 0 = [].
Proof. destruct fuel; reflexivity. Qed.

(** [byteToHex] prints the low byte of its argument as two digits. *)
Lemma byteToHex_spec (n : N) : NFC.byteToHex n = hex2 (n mod 256).
Proof.
  rewrite hex2_mod256. unfold NFC.byteToHex, toString16.
  destruct (N.eqb_spec n 0) as [-> | Hnz]; [reflexivity |].
  cbn [hexDigits]. destruct (N.eqb_spec n 0) as [? | _]; [contradiction |].
  destruct (N.lt_ge_cases n 16) as [Hlt | Hge].
  - rewrite (N.div_small n 16), hexDigits_zero by assumption.
    rewrite N.Div0.mod_0_l. reflexivity.
  - assert (Hlog : 4 <= N.log2 n).
    { change 4 with (N.log2 16). now apply N.log2_le_mono. }
    destruct (N.to_nat (N.log2 n)) as [| k] eqn:Hk; [lia |].
    cbn [hexDigits].
    destruct (N.eqb_spec (n / 16) 0) as [Hq | _].
    { apply N.div_small_iff in Hq; lia. }
    rewrite <- app_assoc, map_app. cbn [app map].
    rewrite app_assoc. apply slice_last2_snoc2.
Qed.

Lemma byteToHex_byte (b : N) : isByte b -> NFC.byteToHex b = hex2 b.
Proof. intros Hb. now rewrite byteToHex_spec, N.mod_small. Qed.

Lemma Buffer_from_hex_hex2 (b : N) (rest : list ascii) :
  isByte b -> Buffer_from_hex (hex2 b ++ rest) = b :: Buffer_from_hex rest.
Proof.
  unfold isByte. intros Hb. cbn [hex2 app Buffer_from_hex].
  rewrite !hexVal_hexChar.
  - f_equal. pose proof (N.div_mod b 16). lia.
  - apply N.mod_lt. lia.
  - apply N.Div0.div_lt_upper_bound. lia.
Qed.

(** Decoding what [toString('hex')] printed gives the bytes back, whatever
    text follows. *)
Lemma Buffer_from_hex_toString (bs : list N) (rest : list ascii) :
  Forall isByte bs ->
  Buffer_from_hex (Buffer_toString_hex bs ++ rest) = bs ++ Buffer_from_hex rest.
Proof.
  induction 1 as [| b bs Hb _ IH]; [reflexivity |].
  cbn [Buffer_toString_hex flat_map]. rewrite <- app_assoc.
  rewrite Buffer_from_hex_hex2 by assumption.
  cbn [app]. f_equal. exact IH.
Qed.

Lemma Buffer_from_hex_nil : Buffer_from_hex [] = [].
Proof. reflexivity. Qed.

Lemma Buffer_toString_hex_app (xs ys : list N) :
  Buffer_toString_hex (xs ++ ys) = Buffer_toString_hex xs ++ Buffer_toString_hex ys.
Proof. unfold Buffer_toString_hex. apply flat_map_app. Qed.

Lemma Buffer_toString_hex_length (bs : list N) :
  length (Buffer_toString_hex bs) = (2 * length bs)%nat.
Proof.
  induction bs as [| b bs IH]; [reflexivity |].
  unfold Buffer_toString_hex in *.
  cbn [flat_map hex2 app length]. lia.
Qed.

(** Pairwise induction over well-formed hexadecimal text. *)
Lemma isHexText_ind2 (P : list ascii -> Prop) :
  P [] ->
  (forall a b x y rest,
      hexVal a = Some x -> hexVal b = Some y -> isHexText rest ->
      P rest -> P (a :: b :: rest)) ->
  forall s, isHexText s -> P s.
Proof.
  intros Hnil Hstep s [Hall [k Hk]]. revert s Hall Hk.
  induction k as [| k IH]; intros s Hall Hk.
  - destruct s; [exact Hnil | discriminate].
  - destruct s as [| a [| b rest]]; cbn in Hk; try lia.
    inversion Hall as [| ? ? Ha Hall']; subst.
    inversion Hall' as [| ? ? Hb Hall'']; subst.
    destruct (hexVal a) as [x |] eqn:Ea; [| contradiction].
    destruct (hexVal b) as [y |] eqn:Eb; [| contradiction].
    assert (Hlen : length rest = (2 * k)%nat) by lia.
    apply (Hstep a b x y); auto.
    split; [assumption | now exists k].
Qed.

Lemma Buffer_from_hex_app (s t : list ascii) :
  isHexText s ->
  Buffer_from_hex (s ++ t) = Buffer_from_hex s ++ Buffer_from_hex t.
Proof.
  intros Hs. induction Hs as [| a b x y rest Ha Hb _ IH] using isHexText_ind2;
    [reflexivity |].
  cbn [app Buffer_from_hex]. rewrite Ha, Hb, IH. reflexivity.
Qed.

Lemma Buffer_from_hex_length (s : list ascii) :
  isHexText s -> (2 * length (Buffer_from_hex s))%nat = length s.
Proof.
  intros Hs. induction Hs as [| a b x y rest Ha Hb _ IH] using isHexText_ind2;
    [reflexivity |].
  cbn [Buffer_from_hex]. rewrite Ha, Hb. cbn [length]. lia.
Qed.

Lemma Buffer_from_hex_bytes (s : list ascii) : Forall isByte (Buffer_from_hex s).
Proof.
  assert (Hv : forall c x, hexVal c = Some x -> x < 16).
  { intros c x. unfold hexVal.
    repeat match goal with
           | |- context [if ?b then _ else _] => destruct b eqn:?
           end; intros [= <-];
      repeat match goal with
             | H : (_ && _) = true |- _ => apply andb_true_iff in H as [? ?]
             end;
      repeat match goal with
             | H : (_ <=? _) = true |- _ => apply N.leb_le in H
             end; lia. }
  assert (H : forall n s, (length s <= n)%nat -> Forall isByte (Buffer_from_hex s)).
  { induction n as [| n IH]; intros [| a [| b rest]] Hlen; cbn in *;
      try constructor; try lia.
    destruct (hexVal a) as [x |] eqn:Ea; [| constructor].
    destruct (hexVal b) as [y |] eqn:Eb; [| constructor].
    constructor.
    - apply Hv in Ea, Eb. unfold isByte. lia.
    - apply IH. lia. }
  apply (H (length s)). lia.
Qed.

End HexFacts.

(** ** Derivative matching is membership in the language *)

Module RegexFacts.
Import Regex.

Lemma Lang_Cls_inv p w : Lang (Cls p) w -> exists c, w = [c] /\ p c = true.
Proof. intros H. inversion H; subst. eauto. Qed.

Lemma Lang_Cat_inv r1 r2 w :
  Lang (Cat r1 r2) w -> exists w1 w2, w = w1 ++ w2 /\ Lang r1 w1 /\ Lang r2 w2.
Proof. intros H. inversion H; subst. eauto. Qed.

Lemma Lang_Alt_inv r1 r2 w : Lang (Alt r1 r2) w -> Lang r1 w \/ Lang r2 w.
Proof. intros H. inversion H; subst; auto. Qed.

Lemma Lang_nil_nullable (r : re) : Lang r [] -> nullable r = true.
Proof.
  intros H. remember [] as w eqn:Hw.
  induction H as [| | r1 r2 s1 s2 _ IH1 _ IH2 | r1 r2 s _ IH | r1 r2 s _ IH | |];
    cbn; try reflexivity; try discriminate.
  - apply app_eq_nil in Hw as [-> ->]. now rewrite IH1, IH2.
  - now rewrite IH.
  - rewrite IH by assumption. apply orb_true_r.
Qed.

Lemma nullable_Lang_nil (r : re) : nullable r = true -> Lang r [].
Proof.
  induction r as [| | p | r1 IH1 r2 IH2 | r1 IH1 r2 IH2 | r1 _]; cbn; intros H;
    try discriminate.
  - constructor.
  - apply andb_true_iff in H as [H1 H2].
    change (@nil ascii) with (@nil ascii ++ []). constructor; auto.
  - apply orb_true_iff in H as [H | H]; [apply LAltL | apply LAltR]; auto.
  - constructor.
Qed.

(** A non-empty word of an iteration starts with a non-empty word of the
    body. *)
Lemma Lang_Star_cons (r : re) (c : ascii) (w : list ascii) :
  Lang (Star r) (c :: w) ->
  exists w1 w2, w = w1 ++ w2 /\ Lang r (c :: w1) /\ Lang (Star r) w2.
Proof.
  intros H. remember (Star r) as R eqn:HR. remember (c :: w) as cw eqn:Hcw.
  revert w Hcw.
  induction H as [| | | | | | r0 s1 s2 H1 _ H2 IH2]; intros w Hcw;
    try discriminate.
  injection HR as ->.
  destruct s1 as [| x s1].
  - cbn in Hcw. now apply IH2.
  - cbn in Hcw. injection Hcw as -> <-. now exists s1, s2.
Qed.

Lemma deriv_sound (r : re) :
  forall c w, Lang (deriv c r) w -> Lang r (c :: w).
Proof.
  induction r as [| | p | r1 IH1 r2 IH2 | r1 IH1 r2 IH2 | r1 IH1];
    cbn [deriv]; intros c w H.
  - inversion H.
  - inversion H.
  - destruct (p c) eqn:Hp; inversion H; subst. now constructor.
  - assert (Hcat : forall u, Lang (Cat (deriv c r1) r2) u -> Lang (Cat r1 r2) (c :: u)).
    { intros u Hu. apply Lang_Cat_inv in Hu as (s1 & s2 & -> & Ha & Hb).
      change (c :: s1 ++ s2) with ((c :: s1) ++ s2). constructor; auto. }
    destruct (nullable r1) eqn:Hn; [| now apply Hcat].
    apply Lang_Alt_inv in H as [H | H]; [now apply Hcat |].
    change (c :: w) with ([] ++ c :: w).
    constructor; [now apply nullable_Lang_nil | auto].
  - apply Lang_Alt_inv in H as [H | H]; [apply LAltL | apply LAltR]; auto.
  - apply Lang_Cat_inv in H as (s1 & s2 & -> & Ha & Hb).
    change (c :: s1 ++ s2) with ((c :: s1) ++ s2). constructor; auto.
Qed.

Lemma deriv_complete (r : re) :
  forall c w, Lang r (c :: w) -> Lang (deriv c r) w.
Proof.
  induction r as [| | p | r1 IH1 r2 IH2 | r1 IH1 r2 IH2 | r1 IH1];
    cbn [deriv]; intros c w H.
  - inversion H.
  - inversion H.
  - apply Lang_Cls_inv in H as (x & [= -> ->] & Hp). rewrite Hp. constructor.
  - apply Lang_Cat_inv in H as (s1 & s2 & Heq & Ha & Hb).
    destruct s1 as [| x s1]; cbn in Heq.
    + subst s2. rewrite (Lang_nil_nullable _ Ha). apply LAltR. auto.
    + injection Heq as <- ->.
      assert (Hcat : Lang (Cat (deriv c r1) r2) (s1 ++ s2)) by (constructor; auto).
      destruct (nullable r1); [now apply LAltL | assumption].
  - apply Lang_Alt_inv in H as [H | H]; [apply LAltL | apply LAltR]; auto.
  - apply Lang_Star_cons in H as (w1 & w2 & -> & Ha & Hb).
    constructor; auto.
Qed.

Theorem matches_Lang (r : re) (w : list ascii) :
  matches r w = true <-> Lang r w.
Proof.
  revert r. induction w as [| c w IH]; intros r; cbn [matches].
  - split; [apply nullable_Lang_nil | apply Lang_nil_nullable].
  - rewrite IH. split; [apply deriv_sound | apply deriv_complete].
Qed.

(** *** The shapes used by the two patterns *)

Lemma Lang_Opt_inv r w : Lang (Opt r) w -> Lang r w \/ w = [].
Proof.
  intros H. apply Lang_Alt_inv in H as [H | H]; [now left |].
  inversion H. now right.
Qed.

Lemma Lang_Chr_inv c w : Lang (Chr c) w -> w = [c].
Proof.
  intros H. apply Lang_Cls_inv in H as (x & -> & Hx).
  apply Ascii.eqb_eq in Hx. now subst.
Qed.

Lemma Lang_Chr c : Lang (Chr c) [c].
Proof. constructor. apply Ascii.eqb_refl. Qed.

Lemma Lang_Rep_Cls p n w :
  Lang (Rep n (Cls p)) w <-> length w = n /\ Forall (fun c => p c = true) w.
Proof.
  revert w. induction n as [| n IH]; intros w; cbn [Rep].
  - split.
    + intros H. inversion H. split; [reflexivity | constructor].
    + intros [Hl _]. destruct w; [constructor | discriminate].
  - split.
    + intros H. apply Lang_Cat_inv in H as (w1 & w2 & -> & H1 & H2).
      apply Lang_Cls_inv in H1 as (c & -> & Hc).
      apply IH in H2 as [Hl Hall]. cbn. split; [now f_equal | now constructor].
    + intros [Hl Hall]. destruct w as [| c w]; [discriminate |].
      inversion Hall; subst. injection Hl as Hl.
      change (c :: w) with ([c] ++ w).
      constructor; [now constructor | apply IH; auto].
Qed.

Lemma Lang_Rep_Opt_Cls p n w :
  Lang (Rep n (Opt (Cls p))) w <->
  (length w <= n)%nat /\ Forall (fun c => p c = true) w.
Proof.
  revert w. induction n as [| n IH]; intros w; cbn [Rep].
  - split.
    + intros H. inversion H. split; [reflexivity | constructor].
    + intros [Hl _]. destruct w; [constructor | cbn in Hl; lia].
  - split.
    + intros H. apply Lang_Cat_inv in H as (w1 & w2 & -> & H1 & H2).
      apply IH in H2 as [Hl Hall].
      apply Lang_Opt_inv in H1 as [H1 | ->].
      * apply Lang_Cls_inv in H1 as (c & -> & Hc). cbn.
        split; [lia | now constructor].
      * cbn. split; [lia | assumption].
    + intros [Hl Hall]. destruct w as [| c w].
      * change (@nil ascii) with (@nil ascii ++ []).
        constructor; [apply LAltR; constructor |].
        apply IH. split; [cbn; lia | constructor].
      * inversion Hall; subst. cbn in Hl.
        change (c :: w) with ([c] ++ w).
        constructor; [apply LAltL; now constructor |].
        apply IH. split; [lia | assumption].
Qed.

Lemma Lang_Star_Cls p w :
  Lang (Star (Cls p)) w <-> Forall (fun c => p c = true) w.
Proof.
  split.
  - intros H. remember (Star (Cls p)) as R eqn:HR.
    induction H as [| | | | | | r0 s1 s2 H1 _ _ IH2]; try discriminate.
    + constructor.
    + injection HR as ->. apply Lang_Cls_inv in H1 as (c & -> & Hc).
      constructor; auto.
  - induction 1 as [| c w Hc _ IH]; [constructor |].
    change (c :: w) with ([c] ++ w). constructor; [now constructor | assumption].
Qed.

Lemma Lang_Plus_Cls p w :
  Lang (Plus (Cls p)) w <-> w <> [] /\ Forall (fun c => p c = true) w.
Proof.
  unfold Plus. split.
  - intros H. apply Lang_Cat_inv in H as (w1 & w2 & -> & H1 & H2).
    apply Lang_Cls_inv in H1 as (c & -> & Hc).
    apply Lang_Star_Cls in H2. split; [discriminate | now constructor].
  - intros [Hne Hall]. destruct w as [| c w]; [contradiction |].
    inversion Hall; subst.
    change (c :: w) with ([c] ++ w).
    constructor; [now constructor | now apply Lang_Star_Cls].
Qed.

(** [\d{n,m}] accepts exactly the digit strings of length [n] to [m]. *)
Lemma matches_Between_Cls p n m w :
  (n <= m)%nat ->
  matches (Between n m (Cls p)) w = true <->
  (n <= length w <= m)%nat /\ Forall (fun c => p c = true) w.
Proof.
  intros Hnm. rewrite matches_Lang. unfold Between. split.
  - intros H. apply Lang_Cat_inv in H as (w1 & w2 & -> & H1 & H2).
    apply Lang_Rep_Cls in H1 as [Hl1 Ha1].
    apply Lang_Rep_Opt_Cls in H2 as [Hl2 Ha2].
    rewrite length_app. split; [lia | now apply Forall_app].
  - intros [Hl Hall].
    rewrite <- (firstn_skipn n w). constructor.
    + apply Lang_Rep_Cls. split.
      * rewrite length_firstn. lia.
      * rewrite <- (firstn_skipn n w) in Hall. now apply Forall_app in Hall.
    + apply Lang_Rep_Opt_Cls. split.
      * rewrite length_skipn. lia.
      * rewrite <- (firstn_skipn n w) in Hall. now apply Forall_app in Hall.
Qed.

End RegexFacts.

(** ** Derivation paths *)

Module PathFacts.
Import Regex RegexFacts Helpers PathSpec.

Local Open Scope Z_scope.

Lemma digit_cases (d : N) :
  (d < 10)%N ->
  d = 0%N \/ d = 1%N \/ d = 2%N \/ d = 3%N \/ d = 4%N \/
  d = 5%N \/ d = 6%N \/ d = 7%N \/ d = 8%N \/ d = 9%N.
Proof. lia. Qed.

(** Everything the parser asks of a digit character. *)
Lemma digitChar_props (d : N) :
  (d < 10)%N ->
  isDigit (digitChar d) = true /\
  digitValue (digitChar d) = Z.of_N d /\
  Ascii.eqb (digitChar d) slash = false /\
  Ascii.eqb (digitChar d) apostrophe = false /\
  Ascii.eqb (digitChar d) "-" = false /\
  Ascii.eqb (digitChar d) "+" = false /\
  isSpace (digitChar d) = false.
Proof.
  intros Hd. apply digit_cases in Hd.
  repeat (destruct Hd as [-> | Hd]; [repeat split; reflexivity |]).
  subst. repeat split; reflexivity.
Qed.

Lemma isDigit_digitChar (c : ascii) :
  isDigit c = true -> exists d, (d < 10)%N /\ c = digitChar d.
Proof.
  unfold isDigit. cbv zeta. intros H.
  apply andb_true_iff in H as [Hlo Hhi].
  apply N.leb_le in Hlo, Hhi.
  exists (N_of_ascii c - 48)%N. split; [lia |].
  unfold digitChar.
  replace (48 + (N_of_ascii c - 48))%N with (N_of_ascii c) by lia.
  now rewrite ascii_N_embedding.
Qed.

Lemma digit_text (w : list ascii) :
  Forall (fun c => isDigit c = true) w ->
  exists ds, Forall (fun d => (d < 10)%N) ds /\ w = map digitChar ds.
Proof.
  induction 1 as [| c w Hc _ (ds & Hds & ->)].
  - now exists [].
  - apply isDigit_digitChar in Hc as (d & Hd & ->).
    exists (d :: ds). split; [now constructor | reflexivity].
Qed.

Lemma digit_text_isDigit (ds : list N) :
  Forall (fun d => (d < 10)%N) ds ->
  Forall (fun c => isDigit c = true) (map digitChar ds).
Proof.
  induction 1 as [| d ds Hd _ IH]; cbn; constructor; [| assumption].
  now apply digitChar_props.
Qed.

(** *** The pattern and its language *)

Lemma Lang_segment (w : list ascii) :
  Lang segmentRegex w <->
  exists sg, wellFormed sg /\ w = slash :: segmentText sg.
Proof.
  unfold segmentRegex. split.
  - intros H.
    apply Lang_Cat_inv in H as (w1 & w23 & -> & H1 & H23).
    apply Lang_Chr_inv in H1 as ->.
    apply Lang_Cat_inv in H23 as (w2 & w3 & -> & H2 & H3).
    apply Lang_Plus_Cls in H2 as [Hne Hall].
    apply digit_text in Hall as (ds & Hds & ->).
    apply Lang_Opt_inv in H3 as [H3 | ->].
    + apply Lang_Chr_inv in H3 as ->.
      exists (mkSegment ds true). split; [| reflexivity].
      split; [| assumption]. cbn. now destruct ds.
    + exists (mkSegment ds false). split; [| reflexivity].
      split; [| assumption]. cbn. now destruct ds.
  - intros ([ds h] & [Hne Hds] & ->). cbn in Hne, Hds.
    change (slash :: segmentText (mkSegment ds h))
      with ([slash] ++ segmentText (mkSegment ds h)).
    constructor; [apply Lang_Chr |].
    unfold segmentText. cbn [digits hardened].
    constructor.
    + apply Lang_Plus_Cls. split.
      * now destruct ds.
      * now apply digit_text_isDigit.
    + destruct h; [apply LAltL, Lang_Chr | apply LAltR; constructor].
Qed.

Lemma Lang_segments (w : list ascii) :
  Lang (Star segmentRegex) w <->
  exists segs, Forall wellFormed segs /\
               w = flat_map (fun sg => slash :: segmentText sg) segs.
Proof.
  split.
  - intros H. remember (Star segmentRegex) as R eqn:HR.
    induction H as [| | | | | | r0 s1 s2 H1 _ _ IH2]; try discriminate.
    + now exists [].
    + injection HR as ->.
      destruct (IH2 eq_refl) as (segs & Hsegs & ->).
      apply Lang_segment in H1 as (sg & Hsg & ->).
      exists (sg :: segs). split; [now constructor | reflexivity].
  - intros (segs & Hsegs & ->).
    induction Hsegs as [| sg segs Hsg _ IH]; [constructor |].
    cbn [flat_map].
    change (slash :: segmentText sg ++ ?x) with ((slash :: segmentText sg) ++ x).
    constructor; [| exact IH].
    apply Lang_segment. now exists sg.
Qed.

(** The validity test accepts exactly the strings of the pattern. *)
Theorem isValidDerivationPath_iff (path : list ascii) :
  isValidDerivationPath path = true <-> matchesPattern path.
Proof.
  unfold isValidDerivationPath, matchesPattern, pathRegex, pathText.
  rewrite matches_Lang. split.
  - intros H. apply Lang_Cat_inv in H as (w1 & w2 & -> & H1 & H2).
    apply Lang_Chr_inv in H1 as ->.
    apply Lang_segments in H2 as (segs & Hsegs & ->). now exists segs.
  - intros (segs & Hsegs & ->).
    constructor; [apply Lang_Chr |].
    apply Lang_segments. now exists segs.
Qed.

(** *** Splitting *)

Lemma split_no_sep (sep : ascii) (a : list ascii) :
  Forall (fun c => Ascii.eqb c sep = false) a -> split sep a = [a].
Proof.
  induction 1 as [| c a Hc _ IH]; [reflexivity |].
  cbn [split]. now rewrite Hc, IH.
Qed.

Lemma split_app_sep (sep : ascii) (a b : list ascii) :
  Forall (fun c => Ascii.eqb c sep = false) a ->
  split sep (a ++ sep :: b) = a :: split sep b.
Proof.
  induction 1 as [| c a Hc _ IH]; cbn [app split].
  - now rewrite Ascii.eqb_refl.
  - now rewrite Hc, IH.
Qed.

Lemma segmentText_no_slash (sg : Segment) :
  wellFormed sg ->
  Forall (fun c => Ascii.eqb c slash = false) (segmentText sg).
Proof.
  intros [_ Hds]. unfold segmentText. apply Forall_app. split.
  - induction Hds as [| d ds Hd _ IH]; cbn; constructor; [| assumption].
    now apply digitChar_props.
  - destruct (hardened sg); repeat constructor.
Qed.

Lemma split_segments (a : list ascii) (segs : list Segment) :
  Forall (fun c => Ascii.eqb c slash = false) a ->
  Forall wellFormed segs ->
  split slash (a ++ flat_map (fun sg => slash :: segmentText sg) segs)
  = a :: map segmentText segs.
Proof.
  intros Ha Hsegs. revert a Ha.
  induction Hsegs as [| sg segs Hsg _ IH]; intros a Ha; cbn [flat_map map].
  - rewrite app_nil_r. now apply split_no_sep.
  - change ((slash :: segmentText sg) ++ ?x) with (slash :: (segmentText sg ++ x)).
    rewrite split_app_sep by assumption.
    f_equal. apply IH. now apply segmentText_no_slash.
Qed.

(** *** One segment *)

Lemma endsWith_snoc (c x : ascii) (w : list ascii) :
  endsWith c (w ++ [x]) = Ascii.eqb x c.
Proof.
  induction w as [| y w IH]; [reflexivity |].
  cbn [app endsWith]. destruct (w ++ [x]) eqn:E; [| exact IH].
  now destruct w.
Qed.

Lemma endsWith_segment (sg : Segment) :
  wellFormed sg -> endsWith apostrophe (segmentText sg) = hardened sg.
Proof.
  intros [Hne Hds]. unfold segmentText. destruct (hardened sg).
  - apply endsWith_snoc.
  - rewrite app_nil_r.
    destruct (digits sg) as [| d ds] using rev_ind; [contradiction |].
    rewrite map_app. cbn [map]. rewrite endsWith_snoc.
    apply Forall_app in Hds as [_ Hd]. inversion Hd; subst.
    now apply digitChar_props.
Qed.

Lemma replaceFirst_segment (sg : Segment) :
  wellFormed sg ->
  replaceFirst apostrophe (segmentText sg) = map digitChar (digits sg).
Proof.
  intros [_ Hds]. unfold segmentText.
  induction Hds as [| d ds Hd _ IH]; cbn [map app replaceFirst].
  - destruct (hardened sg); reflexivity.
  - destruct (digitChar_props d Hd) as (_ & _ & _ & -> & _). now rewrite IH.
Qed.

Lemma leadingDigits_text (ds : list N) :
  Forall (fun d => (d < 10)%N) ds ->
  forall acc seen,
    leadingDigits (map digitChar ds) acc seen
    = (acc * 10 ^ Z.of_nat (length ds) + decimalValue ds,
       seen || negb (Nat.eqb (length ds) 0)).
Proof.
  induction 1 as [| d ds Hd _ IH]; intros acc seen.
  - cbn. rewrite orb_false_r. f_equal. lia.
  - cbn [map leadingDigits].
    destruct (digitChar_props d Hd) as (-> & -> & _).
    rewrite IH. cbn [length decimalValue Nat.eqb negb].
    rewrite orb_true_r. f_equal.
    rewrite Nat2Z.inj_succ, Z.pow_succ_r by lia. lia.
Qed.

(** [parseInt] reads a digit string as the number it denotes, rounded to
    a double. *)
Lemma parseInt10_text (ds : list N) :
  ds <> [] -> Forall (fun d => (d < 10)%N) ds ->
  parseInt10 (map digitChar ds) = toNumber (decimalValue ds).
Proof.
  intros Hne Hds. unfold parseInt10.
  destruct ds as [| d ds]; [contradiction |].
  pose proof Hds as Hall. inversion Hds as [| ? ? Hd _]; subst.
  destruct (digitChar_props d Hd) as (_ & _ & _ & _ & Hminus & Hplus & Hsp).
  cbn [map skipSpaces]. rewrite Hsp, Hminus, Hplus.
  change (digitChar d :: map digitChar ds) with (map digitChar (d :: ds)).
  rewrite leadingDigits_text by assumption. reflexivity.
Qed.

Lemma parse_segment (sg : Segment) :
  wellFormed sg ->
  (let part := segmentText sg in
   let index := parseInt10 (replaceFirst apostrophe part) in
   if endsWith apostrophe part then addNum index 0x80000000 else index)
  = segmentNumber sg.
Proof.
  intros Hsg. cbv zeta.
  rewrite endsWith_segment, replaceFirst_segment by assumption.
  destruct Hsg as [Hne Hds].
  rewrite parseInt10_text by assumption.
  unfold segmentNumber. destruct (hardened sg); reflexivity.
Qed.

Lemma parseDerivationPath_text (segs : list Segment) :
  Forall wellFormed segs ->
  parseDerivationPath (pathText segs) = inr (map segmentNumber segs).
Proof.
  intros Hsegs. unfold parseDerivationPath.
  assert (Hv : isValidDerivationPath (pathText segs) = true).
  { apply isValidDerivationPath_iff. now exists segs. }
  rewrite Hv. cbn [negb]. f_equal.
  unfold pathText. rewrite split_segments; [| repeat constructor | assumption].
  cbn [slice1 tl]. rewrite map_map.
  apply map_ext_in. intros sg Hin.
  apply parse_segment.
  exact (proj1 (Stdlib.Lists.List.Forall_forall _ _) Hsegs sg Hin).
Qed.

(** *** Numbers *)

Lemma decimalValue_nonneg (ds : list N) : 0 <= decimalValue ds.
Proof.
  induction ds as [| d ds IH]; cbn [decimalValue]; [lia |].
  assert (0 <= 10 ^ Z.of_nat (length ds)) by (apply Z.pow_nonneg; lia).
  nia.
Qed.

(** Every integer up to 2^53 is a double. *)
Lemma toNumber_exact (z : Z) : 0 <= z <= 2 ^ 53 -> toNumber z = Num z.
Proof.
  intros [H0 H1]. unfold toNumber.
  destruct (z <? 0) eqn:Hneg; [apply Z.ltb_lt in Hneg; lia |].
  unfold nearestDouble. destruct (z <? 2 ^ 53) eqn:Hsmall; [reflexivity |].
  apply Z.ltb_ge in Hsmall.
  assert (z = 2 ^ 53) as -> by lia. reflexivity.
Qed.

Lemma nearestDouble_nonneg (z v : Z) :
  0 <= z -> nearestDouble z = Some v -> 0 <= v.
Proof.
  intros Hz. unfold nearestDouble.
  destruct (z <? 2 ^ 53); [intros [= <-]; exact Hz |].
  cbv zeta.
  match goal with |- (if ?c then _ else _) = _ -> _ => destruct c end;
    [| discriminate].
  intros [= <-]. apply Z.shiftl_nonneg.
  assert (0 <= Z.shiftr z (Z.log2 z - 52)) by now apply Z.shiftr_nonneg.
  repeat match goal with |- context [if ?c then _ else _] => destruct c end; lia.
Qed.

(** What is not negative stays so: rounding gives a non-negative integer
    or Infinity. *)
Lemma toNumber_nonneg (z : Z) :
  0 <= z ->
  (exists v, toNumber z = Num v /\ 0 <= v) \/ toNumber z = Infinity false.
Proof.
  intros Hz. unfold toNumber.
  destruct (z <? 0) eqn:Hneg; [apply Z.ltb_lt in Hneg; lia |].
  destruct (nearestDouble z) as [v |] eqn:Hv; [left | now right].
  exists v. split; [reflexivity |]. exact (nearestDouble_nonneg z v Hz Hv).
Qed.

Lemma segmentNumber_exact (sg : Segment) :
  segmentIndex sg <= 2 ^ 53 -> segmentNumber sg = Num (segmentIndex sg).
Proof.
  intros Hle. unfold segmentNumber, segmentIndex in *.
  pose proof (decimalValue_nonneg (digits sg)) as H0.
  destruct (hardened sg); cbv zeta.
  - rewrite toNumber_exact by lia. cbn [addNum]. apply toNumber_exact. lia.
  - apply toNumber_exact. lia.
Qed.

Lemma segmentNumber_nonneg (sg : Segment) :
  (exists v, segmentNumber sg = Num v /\ 0 <= v)
  \/ segmentNumber sg = Infinity false.
Proof.
  unfold segmentNumber. cbv zeta.
  pose proof (decimalValue_nonneg (digits sg)) as H0.
  destruct (toNumber_nonneg _ H0) as [(v & -> & Hv) | ->];
    destruct (hardened sg); cbn [addNum]; auto.
  - apply toNumber_nonneg. lia.
  - left. now exists v.
Qed.

End PathFacts.

(** ** NFCService: what goes to the card and what comes back *)

Module NFCFacts.
Import Hex HexFacts NFC NFCService.

(** The text [formatAPDU] builds, field by field. *)
Lemma formatAPDU_text (apdu : KeycardAPDU) :
  formatAPDU apdu
  = hex2 (cla apdu mod 256) ++ hex2 (ins apdu mod 256)
    ++ hex2 (p1 apdu mod 256) ++ hex2 (p2 apdu mod 256)
    ++ hex2 (N.of_nat (length (Buffer_from_hex (default [] (data apdu)))) mod 256)
    ++ default [] (data apdu)
    ++ match le apdu with
       | Some l => hex2 (l mod 256)
       | None => []
       end.
Proof.
  unfold formatAPDU.
  destruct (data apdu) as [[| c d] |]; destruct (le apdu) as [l |];
    cbn [truthy default from_option id app length Buffer_from_hex N.of_nat];
    rewrite ?byteToHex_spec, <- ?app_assoc, ?app_nil_r; reflexivity.
Qed.

Lemma mod256_byte (n : N) : isByte (n mod 256).
Proof. apply N.mod_lt. discriminate. Qed.

(** The first two bytes of any frame are CLA and INS. *)
Lemma wireBytes_header (apdu : KeycardAPDU) :
  firstn 2 (wireBytes apdu) = [cla apdu mod 256; ins apdu mod 256].
Proof.
  unfold wireBytes. rewrite formatAPDU_text.
  now rewrite !Buffer_from_hex_hex2 by apply mod256_byte.
Qed.

Lemma responseHex_app (xs ys : list N) :
  responseHex (xs ++ ys) = responseHex xs ++ responseHex ys.
Proof.
  unfold responseHex, Buffer_from_array.
  now rewrite map_app, Buffer_toString_hex_app.
Qed.

Lemma responseHex_length (xs : list N) :
  length (responseHex xs) = (2 * length xs)%nat.
Proof.
  unfold responseHex, Buffer_from_array.
  now rewrite Buffer_toString_hex_length, length_map.
Qed.

Lemma Buffer_from_array_bytes (xs : list N) :
  Forall isByte xs -> Buffer_from_array xs = xs.
Proof.
  unfold Buffer_from_array.
  induction 1 as [| x xs Hx _ IH]; [reflexivity |].
  cbn [map]. rewrite IH. f_equal. now apply N.mod_small.
Qed.

(** Reading the returned text as hexadecimal gives the response bytes. *)
Lemma responseHex_decodes (xs : list N) :
  Forall isByte xs -> Buffer_from_hex (responseHex xs) = xs.
Proof.
  intros Hxs. unfold responseHex. rewrite Buffer_from_array_bytes by assumption.
  rewrite <- (app_nil_r (Buffer_toString_hex xs)).
  rewrite Buffer_from_hex_toString by assumption.
  now rewrite Buffer_from_hex_nil, app_nil_r.
Qed.

Section Frames.

Context {Card : Type} (transceive : Card -> list N -> option (list N) * Card).

(** One [sendAPDU] hands at most one frame to the card: the frame of its
    command. *)
Lemma sendAPDU_sent (apdu : KeycardAPDU) (w : World Card) :
  sent (snd (sendAPDU Card transceive apdu w)) = sent w
  \/ sent (snd (sendAPDU Card transceive apdu w)) = sent w ++ [wireBytes apdu].
Proof.
  unfold sendAPDU. destruct (isInitialized w); cbn [negb]; [| now left].
  destruct (transceive (card w) _) as [[response |] card']; now right.
Qed.

(** A method that selects and then sends [apdu] hands over a prefix of
    these two frames. *)
Lemma select_then_sent (apdu : KeycardAPDU) (w : World Card) :
  exists frames,
    sent (snd (bind Card (selectKeycard Card transceive)
                    (fun _ => sendAPDU Card transceive apdu) w))
    = sent w ++ frames
    /\ Forall (fun f => f = wireBytes selectAPDU \/ f = wireBytes apdu) frames.
Proof.
  unfold bind, selectKeycard.
  destruct (sendAPDU_sent selectAPDU w) as [H1 | H1];
    destruct (sendAPDU Card transceive selectAPDU w) as [[e | a] w1]; cbn [snd] in *.
  - exists []. rewrite app_nil_r. auto.
  - destruct (sendAPDU_sent apdu w1) as [H2 | H2]; rewrite H2, H1.
    + exists []. rewrite app_nil_r. auto.
    + exists [wireBytes apdu]. auto.
  - exists [wireBytes selectAPDU]. auto.
  - destruct (sendAPDU_sent apdu w1) as [H2 | H2]; rewrite H2, H1.
    + exists [wireBytes selectAPDU]. auto.
    + exists [wireBytes selectAPDU; wireBytes apdu].
      rewrite <- app_assoc. auto.
Qed.

(** Before an initialised service, a card that answers gets the frame and
    the call returns; the service stays initialised. *)
Lemma sendAPDU_to_answering_card (apdu : KeycardAPDU) (w : World Card) :
  isInitialized w = true ->
  (forall c frame, fst (transceive c frame) <> None) ->
  exists answer w',
    sendAPDU Card transceive apdu w = (inr answer, w')
    /\ isInitialized w' = true
    /\ sent w' = sent w ++ [wireBytes apdu].
Proof.
  intros Hi Hanswers. unfold sendAPDU. rewrite Hi. cbn [negb].
  fold (wireBytes apdu).
  pose proof (Hanswers (card w) (wireBytes apdu)) as Hsome.
  destruct (transceive (card w) (wireBytes apdu)) as [[response |] card'];
    [| now contradiction Hsome].
  eexists _, _. repeat split.
Qed.

(** A method that selects and then sends [apdu] hands over exactly these
    two frames when the card answers. *)
Lemma select_then_frames (apdu : KeycardAPDU) (w : World Card) :
  isInitialized w = true ->
  (forall c frame, fst (transceive c frame) <> None) ->
  sent (snd (bind Card (selectKeycard Card transceive)
                  (fun _ => sendAPDU Card transceive apdu) w))
  = sent w ++ [wireBytes selectAPDU; wireBytes apdu].
Proof.
  intros Hi Hanswers. unfold bind, selectKeycard.
  destruct (sendAPDU_to_answering_card selectAPDU w Hi Hanswers)
    as (a1 & w1 & -> & Hi1 & Hs1).
  destruct (sendAPDU_to_answering_card apdu w1 Hi1 Hanswers)
    as (a2 & w2 & -> & _ & Hs2).
  cbn [snd]. now rewrite Hs2, Hs1, <- app_assoc.
Qed.

End Frames.

End NFCFacts.

(** ** KeycardService *)

Module KeycardFacts.
Import Regex RegexFacts Keycard.

Local Open Scope Z_scope.

(** The PIN format test: four to six characters, all decimal digits. *)
Lemma pinPattern_iff (pin : list ascii) :
  matches pinPattern pin = true <->
  (4 <= length pin <= 6)%nat /\ Forall (fun c => isDigit c = true) pin.
Proof. unfold pinPattern, Digit. apply matches_Between_Cls. lia. Qed.

Lemma storedRetries_issue (c : CardCommand) (k : Service) :
  storedRetries (issue c k) = storedRetries k.
Proof. reflexivity. Qed.

(** The write of [pinRetries--] is read back by the service. *)
Lemma storedRetries_decrement (l : nat) (st : KeycardStatus) (k : Service) :
  cardStatus k = Some l -> heap k !! l = Some st ->
  storedRetries (decrementRetries l st k) = Some (pinRetries st - 1).
Proof.
  intros Hl Hst. unfold storedRetries, currentStatus, decrementRetries.
  cbn [cardStatus heap]. rewrite Hl.
  rewrite list_lookup_insert_eq by (eapply lookup_lt_Some; eassumption).
  reflexivity.
Qed.

(** What [verifyPin] does, by case. *)
Lemma verifyPin_cases (pin : list ascii) (k : Service) :
  verifyPin pin k =
  if negb (isConnected k) then (inl KeycardNotConnected, k)
  else if negb (matches pinPattern pin) then (inl PinFormat, k)
  else if (length pin =? 4)%nat || (length pin =? 6)%nat
       then (inr true, issue (PinVerification pin) k)
  else match cardStatus k, currentStatus k with
       | Some l, Some st =>
           (inl (if pinRetries st - 1 =? 0 then PinExhausted
                 else InvalidPin (Some (pinRetries st - 1))),
            decrementRetries l st (issue (PinVerification pin) k))
       | _, _ => (inl (InvalidPin None), issue (PinVerification pin) k)
       end.
Proof.
  unfold verifyPin, sendPinVerificationCommand.
  destruct (isConnected k); cbn [negb]; [| reflexivity].
  destruct (matches pinPattern pin); cbn [negb]; [| reflexivity].
  destruct ((length pin =? 4)%nat || (length pin =? 6)%nat); cbn [negb];
    [reflexivity |].
  change (cardStatus (issue (PinVerification pin) k)) with (cardStatus k).
  change (currentStatus (issue (PinVerification pin) k)) with (currentStatus k).
  destruct (cardStatus k) as [l |]; [| reflexivity].
  destruct (currentStatus k) as [st |]; [| reflexivity].
  destruct (pinRetries st - 1 =? 0); reflexivity.
Qed.

(** A well-formed PIN that the card command rejects costs exactly one
    retry. *)
Lemma verifyPin_rejected_decrements (pin : list ascii) (k : Service) (n : Z) :
  isConnected k = true ->
  matches pinPattern pin = true ->
  (length pin =? 4)%nat || (length pin =? 6)%nat = false ->
  storedRetries k = Some n ->
  storedRetries (snd (verifyPin pin k)) = Some (n - 1)
  /\ fst (verifyPin pin k)
     = inl (if n - 1 =? 0 then PinExhausted else InvalidPin (Some (n - 1))).
Proof.
  intros Hc Hf Hrej Hn. rewrite verifyPin_cases, Hc, Hf, Hrej. cbn [negb].
  unfold storedRetries, currentStatus in *.
  destruct (cardStatus k) as [l |] eqn:Hl; [| discriminate].
  destruct (heap k !! l) as [st |] eqn:Hst; [| discriminate].
  injection Hn as <-. cbn [fst snd]. split; [| reflexivity].
  change (option_map pinRetries
            (match cardStatus (decrementRetries l st (issue (PinVerification pin) k)) with
             | Some l0 => heap (decrementRetries l st (issue (PinVerification pin) k)) !! l0
             | None => None
             end))
    with (storedRetries (decrementRetries l st (issue (PinVerification pin) k))).
  now apply storedRetries_decrement.
Qed.

(** The canned public key is the text of no curve point: it is as long as
    an uncompressed key and starts with the byte 02 of a compressed one. *)
Lemma bigEndian_length (n : nat) (x : N) : length (PublicKey.bigEndian n x) = n.
Proof.
  revert x. induction n as [| n IH]; intros x; cbn [PublicKey.bigEndian];
    [reflexivity |].
  rewrite length_app, IH. cbn [length]. lia.
Qed.

Lemma mockPublicKey_no_key (x y : N) :
  PublicKey.uncompressed x y <> mockPublicKey
  /\ PublicKey.compressed x y <> mockPublicKey.
Proof.
  split.
  - unfold PublicKey.uncompressed, mockPublicKey. cbn [chars list_ascii_of_string app].
    intros H. discriminate H.
  - intros H. apply (f_equal (@length ascii)) in H. revert H.
    unfold PublicKey.compressed, PublicKey.hex32, mockPublicKey.
    rewrite !length_app, HexFacts.Buffer_toString_hex_length, bigEndian_length.
    rewrite repeat_length.
    destruct (N.even y); cbn [chars list_ascii_of_string length]; lia.
Qed.

Section Steps.

Context {Transaction : Type}.
Context (serialize : Transaction -> option (list ascii)).
Context (keccak256 hashMessage : list ascii -> list ascii).
Context (address : list ascii -> option (list ascii)).

(** The effect of one call on the stored counter. *)
Lemma storedRetries_step_connected (o : Op Transaction) (k : Service) :
  storedRetries (step Transaction serialize keccak256 hashMessage address o k)
  = match o with
    | InitializeKeycard _ => Some 3
    | Disconnect _ => None
    | VerifyPin _ pin =>
        if isConnected k && rejected pin
        then option_map (fun n => n - 1) (storedRetries k)
        else storedRetries k
    | _ => storedRetries k
    end.
Proof.
  destruct o as [| pin | path | path | transaction | message | | |];
    cbn [step].
  - unfold storedRetries, currentStatus, initializeKeycard.
    cbn [snd cardStatus heap].
    now rewrite lookup_app_r, Nat.sub_diag by lia.
  - rewrite verifyPin_cases. unfold rejected.
    destruct (isConnected k); cbn [negb andb]; [| reflexivity].
    destruct (matches pinPattern pin); cbn [negb andb]; [| reflexivity].
    destruct ((length pin =? 4)%nat || (length pin =? 6)%nat); cbn [negb];
      [reflexivity |].
    assert (Hread : storedRetries k = option_map pinRetries (currentStatus k))
      by reflexivity.
    unfold currentStatus in *.
    destruct (cardStatus k) as [l |] eqn:Hl.
    + destruct (heap k !! l) as [st |] eqn:Hst; cbn [snd].
      * rewrite Hread. cbn [option_map].
        now apply storedRetries_decrement.
      * rewrite storedRetries_issue, Hread. reflexivity.
    + cbn [snd]. rewrite storedRetries_issue, Hread. reflexivity.
  - unfold derivePublicKey.
    destruct (isConnected k); reflexivity.
  - unfold getEthereumAddress, derivePublicKey.
    destruct (isConnected k); cbn [negb]; [| reflexivity].
    unfold sendDerivationCommand.
    destruct (address mockPublicKey); reflexivity.
  - unfold signTransaction.
    destruct (isConnected k); cbn [negb]; [| reflexivity].
    destruct (serialize transaction); reflexivity.
  - unfold signMessage.
    destruct (isConnected k); reflexivity.
  - reflexivity.
  - reflexivity.
  - reflexivity.
Qed.

(** No call other than [initializeKeycard] and [disconnect] changes the
    connection flag. *)
Lemma isConnected_step (o : Op Transaction) (k : Service) :
  isConnected (step Transaction serialize keccak256 hashMessage address o k)
  = match o with
    | InitializeKeycard _ => true
    | Disconnect _ => false
    | _ => isConnected k
    end.
Proof.
  destruct o as [| pin | path | path | transaction | message | | |];
    cbn [step]; try reflexivity.
  - rewrite verifyPin_cases.
    destruct (isConnected k) eqn:Hc; cbn [negb]; [| exact Hc].
    destruct (matches pinPattern pin); cbn [negb]; [| exact Hc].
    destruct ((length pin =? 4)%nat || (length pin =? 6)%nat); [exact Hc |].
    destruct (cardStatus k) as [l |]; [| exact Hc].
    destruct (currentStatus k) as [st |]; exact Hc.
  - unfold derivePublicKey.
    destruct (isConnected k) eqn:Hc; exact Hc.
  - unfold getEthereumAddress, derivePublicKey.
    destruct (isConnected k) eqn:Hc; cbn [negb]; [| exact Hc].
    unfold sendDerivationCommand.
    destruct (address mockPublicKey); exact Hc.
  - unfold signTransaction.
    destruct (isConnected k) eqn:Hc; cbn [negb]; [| exact Hc].
    destruct (serialize transaction); exact Hc.
  - unfold signMessage.
    destruct (isConnected k) eqn:Hc; exact Hc.
Qed.

Lemma step_keeps_invariant (o : Op Transaction) (k : Service) :
  statusImpliesConnected k ->
  statusImpliesConnected (step Transaction serialize keccak256 hashMessage address o k).
Proof.
  unfold statusImpliesConnected.
  rewrite storedRetries_step_connected, isConnected_step.
  intros [Hnone | Hconn]; destruct o; auto.
  - rewrite Hnone. destruct (isConnected k && rejected pin); auto.
Qed.

(** In a state where a status implies a connection, the counter moves as
    the reader's count does. *)
Lemma storedRetries_step (o : Op Transaction) (k : Service) :
  statusImpliesConnected k ->
  storedRetries (step Transaction serialize keccak256 hashMessage address o k)
  = countStep Transaction (storedRetries k) o.
Proof.
  intros Hk. rewrite storedRetries_step_connected.
  destruct o; try reflexivity. cbn [countStep].
  destruct Hk as [Hnone | Hconn].
  - rewrite Hnone. destruct (isConnected k && rejected pin), (rejected pin); reflexivity.
  - rewrite Hconn. reflexivity.
Qed.

End Steps.

End KeycardFacts.

(** * The properties of the design document *)

Section Signing.

Context {Transaction : Type}.
Context (serialize : Transaction -> option (list ascii)).
Context (keccak256 : list ascii -> list ascii).

(** The recovery the design document assumes of its elliptic-curve
    library: [recoverPublicKey digest r s v] is the point recovered from a
    signature, [None] when there is none.  Any function is allowed here. *)
Context (recoverPublicKey :
           list ascii -> list ascii -> list ascii -> Z -> option (N * N)).

(** C1, as the code has it.  On a connected service, signing a transaction
    that the library serialises returns the canned signature of
    [sendSigningCommand], whose [v] is 27, whatever the digest; the call
    issues that one signing command and fails at no later point.  The key
    derived for any path is the canned text of [sendDerivationCommand],
    which is the text of no public key; so whatever point a recovery
    returns from the signature, for any digest and any candidate [v], its
    text is not the derived key, and the call returns all the same: no
    recovery id is searched and no public key is recovered or compared. *)
Theorem signTransaction_returns_canned_signature
    (transaction : Transaction) (path : list ascii) (k : Keycard.Service)
    (serialized : list ascii) :
  Keycard.isConnected k = true ->
  serialize transaction = Some serialized ->
  Keycard.signTransaction Transaction serialize keccak256 transaction k
  = (inr Keycard.mockSignature,
     Keycard.issue (Keycard.Signing (keccak256 serialized)) k)
  /\ Keycard.v Keycard.mockSignature = 27%Z
  /\ fst (Keycard.derivePublicKey path k) = inr Keycard.mockPublicKey
  /\ (forall digest candidate x y,
         recoverPublicKey digest (Keycard.r Keycard.mockSignature)
                          (Keycard.s Keycard.mockSignature) candidate
         = Some (x, y) ->
         PublicKey.uncompressed x y <> Keycard.mockPublicKey
         /\ PublicKey.compressed x y <> Keycard.mockPublicKey).
Proof.
  intros Hc Hs. unfold Keycard.signTransaction, Keycard.derivePublicKey.
  rewrite Hc, Hs.
  split; [reflexivity |]. split; [reflexivity |]. split; [reflexivity |].
  intros digest candidate x y _. apply KeycardFacts.mockPublicKey_no_key.
Qed.

End Signing.

Lemma signTransaction_returns_canned_signature_witness :
  Keycard.signTransaction unit Scenario.serialize Scenario.keccak256 tt Scenario.connected
  = (inr Keycard.mockSignature,
     Keycard.issue (Keycard.Signing (Scenario.keccak256 (chars "0xf86a")))
                   Scenario.connected)
  /\ Keycard.v Keycard.mockSignature = 27%Z
  /\ fst (Keycard.derivePublicKey (chars "m/44'/60'/0'/0/0") Scenario.connected)
     = inr Keycard.mockPublicKey
  /\ PublicKey.uncompressed 1 2 <> Keycard.mockPublicKey.
Proof.
  destruct (signTransaction_returns_canned_signature
              Scenario.serialize Scenario.keccak256
              (fun _ _ _ _ => Some (1, 2)) tt (chars "m/44'/60'/0'/0/0")
              Scenario.connected (chars "0xf86a"))
    as (Hsign & Hv & Hkey & Hrec); [reflexivity | reflexivity |].
  split; [exact Hsign |]. split; [exact Hv |]. split; [exact Hkey |].
  exact (proj1 (Hrec [] 0%Z 1 2 eq_refl)).
Defined.

(** C1 as stated fails.  On a connected service the call returns a
    signature whose [v] is 27, not 0 or 1, and it returns it although the
    key derived for the path, 0x02 followed by 128 times the digit a, is
    the text of no curve point, uncompressed or compressed: the key
    recovered from the signature equals it for no digest and for neither
    candidate, the case in which the claim has the call fail. *)
Lemma derived_key_never_recovered :
  exists sg pub,
    fst (Keycard.signTransaction unit Scenario.serialize Scenario.keccak256 tt
                                 Scenario.connected) = inr sg
    /\ fst (Keycard.derivePublicKey (chars "m/44'/60'/0'/0/0") Scenario.connected)
       = inr pub
    /\ Keycard.v sg <> 0%Z /\ Keycard.v sg <> 1%Z
    /\ (forall x y, PublicKey.uncompressed x y <> pub
                    /\ PublicKey.compressed x y <> pub).
Proof.
  exists Keycard.mockSignature, Keycard.mockPublicKey.
  split; [reflexivity |]. split; [reflexivity |].
  split; [discriminate |]. split; [discriminate |].
  apply KeycardFacts.mockPublicKey_no_key.
Qed.

Section RetryCounter.

Context {Transaction : Type}.
Context (serialize : Transaction -> option (list ascii)).
Context (keccak256 hashMessage : list ascii -> list ascii).
Context (address : list ascii -> option (list ascii)).

(** C2, as the code has it.  After any sequence of calls on a new service
    the stored [pinRetries] is the client's own count: absent until
    [initializeKeycard] sets it to the constant 3, one less after each
    [verifyPin] whose well-formed PIN the card command rejects, dropped by
    [disconnect], and untouched by every other call.  No call reads it from
    a card response. *)
Theorem storedRetries_is_client_counter (ops : list (Keycard.Op Transaction)) :
  Keycard.storedRetries
    (Keycard.run Transaction serialize keccak256 hashMessage address ops Keycard.fresh)
  = Keycard.clientCount Transaction ops.
Proof.
  unfold Keycard.run, Keycard.clientCount.
  assert (Hgen : forall k,
             Keycard.statusImpliesConnected k ->
             Keycard.storedRetries
               (fold_left
                  (fun acc o =>
                     Keycard.step Transaction serialize keccak256 hashMessage address o acc)
                  ops k)
             = fold_left (Keycard.countStep Transaction) ops (Keycard.storedRetries k)).
  { induction ops as [| o ops IH]; intros k Hk; [reflexivity |].
    cbn [fold_left].
    rewrite IH by now apply KeycardFacts.step_keeps_invariant.
    f_equal. now apply KeycardFacts.storedRetries_step. }
  apply (Hgen Keycard.fresh). now left.
Qed.

End RetryCounter.

(** C2 as stated fails: after [initializeKeycard] the stored counter is 3;
    one rejected [verifyPin] later it is 2.  The only thing the card command
    produced in between is the boolean [false]; the 2 is the client's own
    subtraction. *)
Lemma client_decrement_counterexample :
  Keycard.storedRetries Scenario.connected = Some 3%Z
  /\ Keycard.sendPinVerificationCommand Scenario.rejectedPin Scenario.connected
     = (false, Keycard.issue (Keycard.PinVerification Scenario.rejectedPin)
                             Scenario.connected)
  /\ Keycard.storedRetries
       (snd (Keycard.verifyPin Scenario.rejectedPin Scenario.connected))
     = Some 2%Z.
Proof. repeat split; reflexivity. Qed.

(** C3: the lockout is announced and not enforced.  Three rejected PINs
    in a row take the counter of a fresh card from 3 to 0, and the third
    call throws 'PIN attempts exhausted. Keycard locked.'  After that, a
    four-digit PIN is verified successfully, a further rejected PIN takes
    the counter to -1, and a transaction is signed: each of these calls
    issues its card command. *)
Theorem lockout_not_enforced :
  let bad := Keycard.verifyPin Scenario.rejectedPin in
  let k1 := snd (bad Scenario.connected) in
  let k2 := snd (bad k1) in
  let k3 := snd (bad k2) in
  Keycard.storedRetries k1 = Some 2%Z
  /\ Keycard.storedRetries k2 = Some 1%Z
  /\ Keycard.storedRetries k3 = Some 0%Z
  /\ fst (bad k2) = inl Keycard.PinExhausted
  /\ Keycard.verifyPin Scenario.acceptedPin k3
     = (inr true, Keycard.issue (Keycard.PinVerification Scenario.acceptedPin) k3)
  /\ fst (bad k3) = inl (Keycard.InvalidPin (Some (-1)%Z))
  /\ Keycard.storedRetries (snd (bad k3)) = Some (-1)%Z
  /\ Keycard.signTransaction unit Scenario.serialize Scenario.keccak256 tt k3
     = (inr Keycard.mockSignature,
        Keycard.issue (Keycard.Signing (chars "0xf86a")) k3).
Proof. cbv zeta. repeat split; reflexivity. Qed.

(** C4, as the code has it.  [initializeKeycard] has no guard: in every
    state, connected or not, it succeeds, allocates a new status object
    with 3 PIN retries, 5 PUK retries and version 3.4, and makes it the one
    status the service refers to; the objects allocated before stay as they
    were. *)
Theorem initializeKeycard_replaces_status (k : Keycard.Service) :
  let l := length (Keycard.heap k) in
  let k' := snd (Keycard.initializeKeycard k) in
  fst (Keycard.initializeKeycard k) = inr l
  /\ Keycard.isConnected k' = true
  /\ Keycard.cardStatus k' = Some l
  /\ Keycard.currentStatus k'
     = Some (Keycard.mkStatus true 3 5 (chars "3.4"))
  /\ (forall i st, Keycard.heap k !! i = Some st -> Keycard.heap k' !! i = Some st)
  /\ Keycard.heap k !! l = None.
Proof.
  cbv zeta. unfold Keycard.currentStatus, Keycard.initializeKeycard.
  cbn [fst snd Keycard.isConnected Keycard.cardStatus Keycard.heap].
  repeat split.
  - now rewrite lookup_app_r, Nat.sub_diag by lia.
  - intros i st Hi. now apply lookup_app_l_Some.
  - now apply lookup_ge_None.
Qed.

Lemma initializeKeycard_replaces_status_witness :
  fst (Keycard.initializeKeycard Scenario.connected) = inr 1%nat
  /\ Keycard.heap (snd (Keycard.initializeKeycard Scenario.connected)) !! 0%nat
     = Some (Keycard.mkStatus true 3 5 (chars "3.4")).
Proof.
  destruct (initializeKeycard_replaces_status Scenario.connected)
    as (Hres & _ & _ & _ & Hkeep & _).
  split; [exact Hres |].
  apply Hkeep. reflexivity.
Defined.

(** C4 as stated fails: on a connected service whose counter a rejected PIN
    has brought down to 2, a second [initializeKeycard] returns normally
    with a second status object; the service now refers to that one, and the
    counter it reads is 3 again. *)
Lemma second_connect_counterexample :
  let k1 := snd (Keycard.verifyPin Scenario.rejectedPin Scenario.connected) in
  Keycard.isConnected k1 = true
  /\ Keycard.cardStatus k1 = Some 0%nat
  /\ Keycard.storedRetries k1 = Some 2%Z
  /\ fst (Keycard.initializeKeycard k1) = inr 1%nat
  /\ Keycard.cardStatus (snd (Keycard.initializeKeycard k1)) = Some 1%nat
  /\ length (Keycard.heap (snd (Keycard.initializeKeycard k1))) = 2%nat
  /\ Keycard.storedRetries (snd (Keycard.initializeKeycard k1)) = Some 3%Z.
Proof. cbv zeta. repeat split; reflexivity. Qed.




(** C6, as the code has it.  The service does not split a response: when
    the exchange goes through, [sendAPDU] returns the whole response,
    status word included, as one hexadecimal string of two characters per
    byte, whatever the length of the response.  For a response made of a
    payload and two status bytes the returned text is the text of the
    payload followed by the four digits of the status word. *)
Theorem sendAPDU_returns_whole_response
    {Card : Type} (transceive : Card -> list N -> option (list N) * Card)
    (apdu : NFC.KeycardAPDU) (w : NFCService.World Card)
    (response : list N) (card' : Card) :
  NFCService.isInitialized w = true ->
  transceive (NFCService.card w) (NFC.wireBytes apdu) = (Some response, card') ->
  fst (NFCService.sendAPDU Card transceive apdu w) = inr (NFCService.responseHex response)
  /\ length (NFCService.responseHex response) = (2 * length response)%nat
  /\ (forall payload sw1 sw2,
         response = payload ++ [sw1; sw2] ->
         NFCService.responseHex response
         = NFCService.responseHex payload
           ++ Hex.hex2 (sw1 mod 256) ++ Hex.hex2 (sw2 mod 256)).
Proof.
  intros Hinit Hcard. repeat split.
  - unfold NFCService.sendAPDU. rewrite Hinit. cbn [negb].
    unfold NFC.wireBytes in Hcard. now rewrite Hcard.
  - apply NFCFacts.responseHex_length.
  - intros payload sw1 sw2 ->. rewrite NFCFacts.responseHex_app. reflexivity.
Qed.

Lemma sendAPDU_returns_whole_response_witness :
  fst (NFCService.sendAPDU unit (Scenario.answering [0x01; 0x02; 0x90; 0x00])
                           NFCService.statusAPDU Scenario.ready)
  = inr (chars "01029000").
Proof.
  apply (sendAPDU_returns_whole_response
           (Scenario.answering [0x01; 0x02; 0x90; 0x00])
           NFCService.statusAPDU Scenario.ready [0x01; 0x02; 0x90; 0x00] tt);
    reflexivity.
Defined.

(** C6 as stated fails: a response of a single byte is not an error; the
    call returns its two hexadecimal digits. *)
Lemma short_response_counterexample :
  fst (NFCService.sendAPDU unit (Scenario.answering [0x90])
                           NFCService.statusAPDU Scenario.ready)
  = inr (chars "90").
Proof. reflexivity. Qed.

(** C7.  Each method of the service sends the command the design document
    names, in the fixed encoding.  On an initialised service facing a card
    that answers, [selectKeycard] hands the card exactly the SELECT frame
    00 A4 04 00 07 A0 00 00 08 04 00 01 00 (CLA 00, INS A4, P1 04, P2 00,
    the AID as data), and every other method hands it that frame followed
    by one frame of its own command: [getKeycardStatus] one that starts
    with 80 F2, [verifyPin] with 80 20, [getPublicKey] with 80 F7,
    [signData] with 80 C0.  In any state, whatever the card does, no frame
    with another (CLA, INS) pair leaves the service.  The command objects
    and the table of [KEYCARD_CONFIG] carry the same codes. *)
Theorem fixed_command_encodings :
  (NFC.cla NFCService.selectAPDU = 0x00 /\ NFC.ins NFCService.selectAPDU = 0xa4
   /\ NFC.p1 NFCService.selectAPDU = 0x04 /\ NFC.p2 NFCService.selectAPDU = 0x00
   /\ NFC.data NFCService.selectAPDU = Some (chars "A0000008040001"))
  /\ (forall pin, NFC.cla (NFCService.verifyAPDU pin) = 0x80
                  /\ NFC.ins (NFCService.verifyAPDU pin) = 0x20)
  /\ (NFC.cla NFCService.statusAPDU = 0x80 /\ NFC.ins NFCService.statusAPDU = 0xf2)
  /\ (forall keyPath, NFC.cla (NFCService.publicKeyAPDU keyPath) = 0x80
                      /\ NFC.ins (NFCService.publicKeyAPDU keyPath) = 0xf7)
  /\ (forall d, NFC.cla (NFCService.signAPDU d) = 0x80
                /\ NFC.ins (NFCService.signAPDU d) = 0xc0)
  /\ (KEYCARD_CONFIG.SELECT = KEYCARD_CONFIG.Build_CommandCode 0x00 0xa4
      /\ KEYCARD_CONFIG.VERIFY_PIN = KEYCARD_CONFIG.Build_CommandCode 0x80 0x20
      /\ KEYCARD_CONFIG.GET_STATUS = KEYCARD_CONFIG.Build_CommandCode 0x80 0xf2
      /\ KEYCARD_CONFIG.GET_PUBLIC_KEY = KEYCARD_CONFIG.Build_CommandCode 0x80 0xf7
      /\ KEYCARD_CONFIG.SIGN = KEYCARD_CONFIG.Build_CommandCode 0x80 0xc0
      /\ KEYCARD_CONFIG.AID = chars "A0000008040001")
  /\ NFC.wireBytes NFCService.selectAPDU
     = [0x00; 0xa4; 0x04; 0x00; 0x07; 0xa0; 0x00; 0x00; 0x08; 0x04; 0x00; 0x01; 0x00]
  /\ (forall (Card : Type) (transceive : Card -> list N -> option (list N) * Card)
             (m : NFCService.Method) (w : NFCService.World Card),
         exists frames,
           NFCService.sent (snd (NFCService.call Card transceive m w))
           = NFCService.sent w ++ frames
           /\ Forall (fun f =>
                        In (firstn 2 f)
                           [[0x00; 0xa4]; [0x80; 0x20]; [0x80; 0xf2];
                            [0x80; 0xf7]; [0x80; 0xc0]])
                     frames)
  /\ (forall (Card : Type) (transceive : Card -> list N -> option (list N) * Card)
             (w : NFCService.World Card),
         NFCService.isInitialized w = true ->
         (forall c frame, fst (transceive c frame) <> None) ->
         let SELECT :=
           [0x00; 0xa4; 0x04; 0x00; 0x07; 0xa0; 0x00; 0x00; 0x08; 0x04; 0x00; 0x01; 0x00] in
         NFCService.sent (snd (NFCService.selectKeycard Card transceive w))
         = NFCService.sent w ++ [SELECT]
         /\ (exists f,
                NFCService.sent (snd (NFCService.getKeycardStatus Card transceive w))
                = NFCService.sent w ++ [SELECT; f]
                /\ firstn 2 f = [0x80; 0xf2])
         /\ (forall pin, exists f,
                NFCService.sent (snd (NFCService.verifyPin Card transceive pin w))
                = NFCService.sent w ++ [SELECT; f]
                /\ firstn 2 f = [0x80; 0x20])
         /\ (forall keyPath, exists f,
                NFCService.sent (snd (NFCService.getPublicKey Card transceive keyPath w))
                = NFCService.sent w ++ [SELECT; f]
                /\ firstn 2 f = [0x80; 0xf7])
         /\ (forall d, exists f,
                NFCService.sent (snd (NFCService.signData Card transceive d w))
                = NFCService.sent w ++ [SELECT; f]
                /\ firstn 2 f = [0x80; 0xc0])).
Proof.
  repeat match goal with |- _ /\ _ => split end; try reflexivity;
    try (intros; split; reflexivity).
  - intros Card transceive m w.
    assert (Hsel : forall apdu,
               In [NFC.cla apdu mod 256; NFC.ins apdu mod 256]
                  [[0x00; 0xa4]; [0x80; 0x20]; [0x80; 0xf2];
                   [0x80; 0xf7]; [0x80; 0xc0]] ->
               exists frames,
                 NFCService.sent
                   (snd (NFCService.bind Card (NFCService.selectKeycard Card transceive)
                           (fun _ => NFCService.sendAPDU Card transceive apdu) w))
                 = NFCService.sent w ++ frames
                 /\ Forall (fun f =>
                              In (firstn 2 f)
                                 [[0x00; 0xa4]; [0x80; 0x20]; [0x80; 0xf2];
                                  [0x80; 0xf7]; [0x80; 0xc0]])
                           frames).
    { intros apdu Hin.
      destruct (NFCFacts.select_then_sent transceive apdu w) as (frames & Heq & Hall).
      exists frames. split; [exact Heq |].
      eapply Forall_impl; [exact Hall |].
      intros f [-> | ->]; rewrite NFCFacts.wireBytes_header;
        [left; reflexivity | exact Hin]. }
    destruct m as [| | pin | keyPath | d]; cbn [NFCService.call].
    + unfold NFCService.selectKeycard.
      destruct (NFCFacts.sendAPDU_sent transceive NFCService.selectAPDU w) as [H | H];
        rewrite H.
      * exists []. rewrite app_nil_r. auto.
      * exists [NFC.wireBytes NFCService.selectAPDU]. split; [reflexivity |].
        repeat constructor.
    + apply Hsel. cbn. auto.
    + apply Hsel. cbn. auto.
    + apply Hsel. cbn. auto.
    + apply Hsel. cbn. auto 6.
  - intros Card transceive w Hi Hanswers. cbv zeta.
    change [0x00; 0xa4; 0x04; 0x00; 0x07; 0xa0; 0x00; 0x00; 0x08; 0x04; 0x00; 0x01; 0x00]
      with (NFC.wireBytes NFCService.selectAPDU).
    assert (Hown : forall apdu, exists f,
               NFCService.sent
                 (snd (NFCService.bind Card (NFCService.selectKeycard Card transceive)
                         (fun _ => NFCService.sendAPDU Card transceive apdu) w))
               = NFCService.sent w ++ [NFC.wireBytes NFCService.selectAPDU; f]
               /\ firstn 2 f = [NFC.cla apdu mod 256; NFC.ins apdu mod 256]).
    { intros apdu. exists (NFC.wireBytes apdu). split.
      - now apply NFCFacts.select_then_frames.
      - apply NFCFacts.wireBytes_header. }
    split; [| split; [| split; [| split]]].
    + unfold NFCService.selectKeycard.
      destruct (NFCFacts.sendAPDU_to_answering_card transceive NFCService.selectAPDU
                  w Hi Hanswers) as (a & w' & -> & _ & Hs).
      exact Hs.
    + exact (Hown NFCService.statusAPDU).
    + intros pin. exact (Hown (NFCService.verifyAPDU pin)).
    + intros keyPath. exact (Hown (NFCService.publicKeyAPDU keyPath)).
    + intros d. exact (Hown (NFCService.signAPDU d)).
Qed.

Lemma fixed_command_encodings_witness :
  NFCService.sent (snd (NFCService.verifyPin unit (Scenario.answering [0x90; 0x00])
                          (chars "1234") Scenario.ready))
  = [[0x00; 0xa4; 0x04; 0x00; 0x07; 0xa0; 0x00; 0x00; 0x08; 0x04; 0x00; 0x01; 0x00];
     [0x80; 0x20; 0x00; 0x00; 0x04; 0x31; 0x32; 0x33; 0x34; 0x00]]
  /\ exists f,
       NFCService.sent (snd (NFCService.signData unit (Scenario.answering [0x90; 0x00])
                               (chars "abcd") Scenario.ready))
       = NFCService.sent Scenario.ready
         ++ [[0x00; 0xa4; 0x04; 0x00; 0x07; 0xa0; 0x00; 0x00; 0x08; 0x04; 0x00; 0x01; 0x00]; f]
       /\ firstn 2 f = [0x80; 0xc0].
Proof.
  split; [reflexivity |].
  destruct fixed_command_encodings as (_ & _ & _ & _ & _ & _ & _ & _ & Hwire).
  destruct (Hwire unit (Scenario.answering [0x90; 0x00]) Scenario.ready)
    as (_ & _ & _ & _ & Hsign).
  - reflexivity.
  - intros c frame. discriminate.
  - exact (Hsign (chars "abcd")).
Defined.

(** C8, as the code has it.  For a payload and a two-byte status word,
    all bytes, the text returned for the response payload ++ sw is the text
    of the payload followed by the four digits of the status word; cutting
    the last four characters off recovers both, and reading the text as
    hexadecimal gives the response back byte for byte.  The encoded command
    is no part of what is decoded: put in front of the response, the bytes
    of a command whose numeric fields are non-negative integers, at least
    five, come out in front of the text. *)
Theorem response_text_round_trip
    (cmd : NFC.KeycardAPDU) (payload sw : list N) :
  Forall Hex.isByte payload -> Forall Hex.isByte sw -> length sw = 2%nat ->
  let text := NFCService.responseHex (payload ++ sw) in
  firstn (length text - 4) text = NFCService.responseHex payload
  /\ skipn (length text - 4) text = NFCService.responseHex sw
  /\ Hex.Buffer_from_hex text = payload ++ sw
  /\ NFCService.responseHex (NFC.wireBytes cmd ++ payload ++ sw)
     = NFCService.responseHex (NFC.wireBytes cmd) ++ text
  /\ (5 <= length (NFC.wireBytes cmd))%nat.
Proof.
  intros Hp Hsw Hlen. cbv zeta.
  assert (Hcut : (length (NFCService.responseHex (payload ++ sw)) - 4
                  = length (NFCService.responseHex payload))%nat).
  { rewrite !NFCFacts.responseHex_length, length_app. lia. }
  rewrite Hcut, NFCFacts.responseHex_app.
  repeat split.
  - now rewrite firstn_app, firstn_all, Nat.sub_diag, firstn_0, app_nil_r.
  - now rewrite skipn_app, skipn_all, Nat.sub_diag.
  - rewrite <- NFCFacts.responseHex_app.
    apply NFCFacts.responseHex_decodes. now apply Forall_app.
  - now rewrite !NFCFacts.responseHex_app.
  - unfold NFC.wireBytes. rewrite NFCFacts.formatAPDU_text.
    rewrite !HexFacts.Buffer_from_hex_hex2 by apply NFCFacts.mod256_byte.
    cbn [length]. lia.
Qed.

Lemma response_text_round_trip_witness :
  let text := NFCService.responseHex ([0xde; 0xad] ++ [0x90; 0x00]) in
  firstn (length text - 4) text = NFCService.responseHex [0xde; 0xad]
  /\ skipn (length text - 4) text = NFCService.responseHex [0x90; 0x00]
  /\ Hex.Buffer_from_hex text = [0xde; 0xad] ++ [0x90; 0x00]
  /\ NFCService.responseHex
       (NFC.wireBytes NFCService.selectAPDU ++ [0xde; 0xad] ++ [0x90; 0x00])
     = NFCService.responseHex (NFC.wireBytes NFCService.selectAPDU) ++ text
  /\ (5 <= length (NFC.wireBytes NFCService.selectAPDU))%nat.
Proof.
  apply (response_text_round_trip NFCService.selectAPDU [0xde; 0xad] [0x90; 0x00]).
  - repeat constructor.
  - repeat constructor.
  - reflexivity.
Defined.

(** C8 as stated fails: decoding the SELECT frame followed by an empty
    payload and the status word 9000 does not give what decoding the
    response alone gives; the thirteen bytes of the command come first. *)
Lemma command_prefix_counterexample :
  NFCService.responseHex (NFC.wireBytes NFCService.selectAPDU ++ [] ++ [0x90; 0x00])
  = chars "00a4040007a00000080400010090" ++ chars "00"
  /\ NFCService.responseHex ([] ++ [0x90; 0x00]) = chars "9000"
  /\ NFCService.responseHex (NFC.wireBytes NFCService.selectAPDU ++ [] ++ [0x90; 0x00])
     <> NFCService.responseHex ([] ++ [0x90; 0x00]).
Proof. repeat split; try reflexivity. discriminate. Qed.

(** C9, as the code has it.  For a PIN that is not four to six decimal
    digits, [verifyPin] on a connected service throws 'PIN must be 4-6
    digits', and on a service that is not connected it throws 'Keycard not
    connected'; either way the service is left exactly as it was: no card
    command is issued and no status object changes. *)
Theorem verifyPin_rejects_malformed_pin (pin : list ascii) (k : Keycard.Service) :
  ~ ((4 <= length pin <= 6)%nat /\ Forall (fun c => Regex.isDigit c = true) pin) ->
  Keycard.verifyPin pin k
  = (inl (if Keycard.isConnected k then Keycard.PinFormat
          else Keycard.KeycardNotConnected), k).
Proof.
  intros Hbad. rewrite KeycardFacts.verifyPin_cases.
  destruct (Keycard.isConnected k); cbn [negb]; [| reflexivity].
  destruct (Regex.matches Keycard.pinPattern pin) eqn:Hm; [| reflexivity].
  apply KeycardFacts.pinPattern_iff in Hm. contradiction.
Qed.

Lemma verifyPin_rejects_malformed_pin_witness :
  Keycard.verifyPin (chars "12a4") Scenario.connected
  = (inl Keycard.PinFormat, Scenario.connected).
Proof.
  apply (verifyPin_rejects_malformed_pin (chars "12a4") Scenario.connected).
  intros [_ Hall].
  inversion Hall as [| ? ? _ H1]; subst.
  inversion H1 as [| ? ? _ H2]; subst.
  inversion H2 as [| ? ? Ha _]; subst.
  discriminate Ha.
Defined.

(** C9 as stated fails on a service that is not connected: the two-digit
    PIN is turned down with 'Keycard not connected', before its format is
    looked at. *)
Lemma malformed_pin_unconnected_counterexample :
  ~ ((4 <= length (chars "12") <= 6)%nat
     /\ Forall (fun c => Regex.isDigit c = true) (chars "12"))
  /\ Keycard.verifyPin (chars "12") Keycard.fresh
     = (inl Keycard.KeycardNotConnected, Keycard.fresh)
  /\ fst (Keycard.verifyPin (chars "12") Keycard.fresh) <> inl Keycard.PinFormat.
Proof.
  repeat split; try reflexivity; try discriminate.
  intros [[Hlen _] _]. cbn in Hlen. lia.
Qed.

(** C10, as the code has it.  For a path that is ["m"] followed by
    well-formed [/index] segments, [parseDerivationPath] returns one number
    per segment.  As long as the value is at most 2^53 that number is the
    integer the digits denote, plus 2^31 when the segment ends in an
    apostrophe; in general it is that index rounded to the nearest double,
    with 2^31 added and the sum rounded again for a hardened segment.  For
    a string that is not of this form the function throws 'Invalid
    derivation path'. *)
Theorem parseDerivationPath_pattern (path : list ascii) :
  (forall segs,
      Forall PathSpec.wellFormed segs -> path = PathSpec.pathText segs ->
      Helpers.parseDerivationPath path = inr (map PathSpec.segmentNumber segs)
      /\ (Forall (fun sg => (PathSpec.segmentIndex sg <= 2 ^ 53)%Z) segs ->
          Helpers.parseDerivationPath path
          = inr (map (fun sg => Helpers.Num (PathSpec.segmentIndex sg)) segs)))
  /\ (~ PathSpec.matchesPattern path ->
      Helpers.parseDerivationPath path = inl Helpers.InvalidDerivationPath).
Proof.
  split.
  - intros segs Hsegs ->.
    rewrite PathFacts.parseDerivationPath_text by assumption.
    split; [reflexivity |]. intros Hsmall. f_equal.
    apply map_ext_in. intros sg Hin.
    apply PathFacts.segmentNumber_exact.
    exact (proj1 (Stdlib.Lists.List.Forall_forall _ _) Hsmall sg Hin).
  - intros Hno. unfold Helpers.parseDerivationPath.
    destruct (Helpers.isValidDerivationPath path) eqn:Hv; [| reflexivity].
    apply PathFacts.isValidDerivationPath_iff in Hv. contradiction.
Qed.

Lemma parseDerivationPath_pattern_witness :
  Helpers.parseDerivationPath (chars "m/44'/60'/0'/0/0")
  = inr [Helpers.Num 2147483692; Helpers.Num 2147483708; Helpers.Num 2147483648;
         Helpers.Num 0; Helpers.Num 0]
  /\ Helpers.parseDerivationPath (chars "44'/60'")
     = inl Helpers.InvalidDerivationPath.
Proof.
  split.
  - apply (proj1 (parseDerivationPath_pattern (chars "m/44'/60'/0'/0/0"))
                 Scenario.ethereumPath); [| reflexivity |].
    + repeat constructor; try discriminate; cbn; lia.
    + repeat constructor; vm_compute; discriminate.
  - apply (proj2 (parseDerivationPath_pattern (chars "44'/60'"))).
    intros Hm. apply PathFacts.isValidDerivationPath_iff in Hm.
    vm_compute in Hm. discriminate Hm.
Defined.

(** C10 as stated fails from 2^53 on, where not every integer is a double:
    the index 9007199254740993 (2^53 + 1) comes back as 9007199254740992,
    and the hardened index 9007199254740991, for which the claim gives
    9007201402224639, comes back as 9007201402224640. *)
Lemma rounded_index_counterexample :
  (chars "m/9007199254740993" = PathSpec.pathText [Scenario.roundedSegment]
   /\ Forall PathSpec.wellFormed [Scenario.roundedSegment]
   /\ PathSpec.segmentIndex Scenario.roundedSegment = 9007199254740993%Z
   /\ Helpers.parseDerivationPath (chars "m/9007199254740993")
      = inr [Helpers.Num 9007199254740992])
  /\ (chars "m/9007199254740991'" = PathSpec.pathText [Scenario.roundedHardened]
      /\ Forall PathSpec.wellFormed [Scenario.roundedHardened]
      /\ PathSpec.segmentIndex Scenario.roundedHardened = 9007201402224639%Z
      /\ Helpers.parseDerivationPath (chars "m/9007199254740991'")
         = inr [Helpers.Num 9007201402224640]).
Proof.
  repeat split; try reflexivity;
    repeat constructor; try discriminate; cbn; lia.
Qed.

(** * Further properties of the code *)

(** ** helpers: addresses and hexadecimal text *)

Module HelperTextFacts.
Import Regex RegexFacts Helpers HelperText.

Local Open Scope Z_scope.

(** Facts checked on each of the 256 characters. *)
Ltac each_char c :=
  destruct c as [[] [] [] [] [] [] [] []]; vm_compute; try reflexivity; try discriminate.

Lemma isHexChar_hexVal (c : ascii) :
  isHexChar c = true <-> Hex.hexVal c <> None.
Proof.
  split.
  - each_char c; intros H; discriminate H.
  - each_char c; intros H; now contradiction H.
Qed.

Lemma hexVal_lower (c : ascii) (x : N) :
  Hex.hexVal c = Some x -> (x < 16)%N /\ Hex.hexChar x = lowerChar c.
Proof.
  each_char c; intros [= <-]; split; reflexivity.
Qed.

Lemma hexVal_plain (c : ascii) (x : N) :
  Hex.hexVal c = Some x ->
  isSpace c = false /\ Ascii.eqb c "-" = false /\ Ascii.eqb c "+" = false
  /\ Ascii.eqb c "x" = false /\ Ascii.eqb c "X" = false.
Proof.
  each_char c; intros; repeat split; reflexivity.
Qed.

Lemma lower_upper_lower (c : ascii) :
  lowerChar (upperChar (lowerChar c)) = lowerChar c.
Proof. each_char c. Qed.

Lemma lower_lower (c : ascii) : lowerChar (lowerChar c) = lowerChar c.
Proof. each_char c. Qed.

Lemma isHexChar_lower (c : ascii) : isHexChar (lowerChar c) = isHexChar c.
Proof. each_char c. Qed.

Lemma isHexChar_upper_lower (c : ascii) :
  isHexChar (upperChar (lowerChar c)) = isHexChar c.
Proof. each_char c. Qed.

(** *** The two patterns *)

Lemma prefixed_hex_iff (n : nat) (w : list ascii) :
  matches (Cat (Chr "0") (Cat (Chr "x") (Rep n (Cls isHexChar)))) w = true <->
  exists body,
    w = "0"%char :: "x"%char :: body
    /\ length body = n
    /\ Forall (fun c => isHexChar c = true) body.
Proof.
  rewrite matches_Lang. split.
  - intros H.
    apply Lang_Cat_inv in H as (w1 & w' & -> & H1 & H).
    apply Lang_Cat_inv in H as (w2 & body & -> & H2 & H3).
    apply Lang_Chr_inv in H1 as ->. apply Lang_Chr_inv in H2 as ->.
    apply Lang_Rep_Cls in H3 as [Hlen Hall]. now exists body.
  - intros (body & -> & Hlen & Hall).
    change ("0"%char :: "x"%char :: body) with (["0"%char] ++ ["x"%char] ++ body).
    constructor; [apply Lang_Chr |]. constructor; [apply Lang_Chr |].
    now apply Lang_Rep_Cls.
Qed.

Lemma isValidEthereumAddress_shape (address : list ascii) :
  isValidEthereumAddress address = true <->
  exists body,
    address = "0"%char :: "x"%char :: body
    /\ length body = 40%nat
    /\ Forall (fun c => isHexChar c = true) body.
Proof. apply prefixed_hex_iff. Qed.

Lemma isValidSignature_shape (sg : list ascii) :
  isValidSignature sg = true <->
  exists body,
    sg = "0"%char :: "x"%char :: body
    /\ length body = 130%nat
    /\ Forall (fun c => isHexChar c = true) body.
Proof. apply prefixed_hex_iff. Qed.

(** *** Comparing addresses *)

Lemma strEq_eq (a b : list ascii) : strEq a b = true <-> a = b.
Proof.
  revert b. induction a as [| x a IH]; intros [| y b]; cbn; try easy.
  rewrite andb_true_iff, Ascii.eqb_eq, IH. split.
  - now intros [-> ->].
  - now intros [= -> ->].
Qed.

Lemma addressesEqual_iff (a b : list ascii) :
  addressesEqual a b = true <->
  isValidEthereumAddress a = true /\ isValidEthereumAddress b = true
  /\ toLowerCase a = toLowerCase b.
Proof.
  unfold addressesEqual.
  destruct (isValidEthereumAddress a), (isValidEthereumAddress b); cbn;
    rewrite ?strEq_eq; intuition congruence.
Qed.

(** *** hexToBytes *)

Lemma hexToBytesLoop_length fuel :
  forall i s bytes, length (hexToBytesLoop fuel i s bytes) = length bytes.
Proof.
  induction fuel as [| f IH]; intros i s bytes; cbn [hexToBytesLoop];
    [reflexivity |].
  destruct (i <? length s)%nat; [| reflexivity].
  now rewrite IH, length_insert.
Qed.

Lemma parseInt16_pair (a b : ascii) (x y : N) :
  Hex.hexVal a = Some x -> Hex.hexVal b = Some y ->
  toUint8 (parseInt16 [a; b]) = (16 * x + y)%N.
Proof.
  intros Ha Hb.
  destruct (hexVal_plain a x Ha) as (Hsp & Hm & Hp & _).
  destruct (hexVal_plain b y Hb) as (_ & _ & _ & Hx & HX).
  destruct (hexVal_lower a x Ha) as [Hxa _].
  destruct (hexVal_lower b y Hb) as [Hyb _].
  unfold parseInt16. cbn [skipSpaces]. rewrite Hsp, Hm, Hp, Hx, HX.
  rewrite andb_false_r. cbn [leadingHex]. rewrite Ha, Hb.
  rewrite PathFacts.toNumber_exact by lia.
  cbn [toUint8]. rewrite Z.mod_small by lia. lia.
Qed.

(** On well-formed text the loop writes, cell after cell, the bytes that
    [Buffer.from(text, 'hex')] gives. *)
Lemma hexToBytesLoop_hex (rest : list ascii) :
  Hex.isHexText rest ->
  forall (done : list ascii) (pre : list N) (fuel : nat),
    length done = (2 * length pre)%nat ->
    (length rest <= fuel)%nat ->
    hexToBytesLoop fuel (length done) (done ++ rest)
                   (pre ++ repeat 0%N (Nat.div (length rest) 2))
    = pre ++ Hex.Buffer_from_hex rest.
Proof.
  intros Hrest.
  induction Hrest as [| a b x y rest Ha Hb _ IH] using HexFacts.isHexText_ind2;
    intros done pre fuel Hdone Hfuel.
  - destruct fuel as [| f]; cbn [hexToBytesLoop]; [reflexivity |].
    rewrite app_nil_r, Nat.ltb_irrefl. reflexivity.
  - destruct fuel as [| f]; [cbn in Hfuel; lia |].
    cbn [hexToBytesLoop].
    assert (Hlt : (length done <? length (done ++ a :: b :: rest))%nat = true).
    { apply Nat.ltb_lt. rewrite length_app. cbn. lia. }
    rewrite Hlt.
    assert (Hsub : substr2 (length done) (done ++ a :: b :: rest) = [a; b]).
    { unfold substr2. rewrite skipn_app, skipn_all, Nat.sub_diag. reflexivity. }
    rewrite Hsub, (parseInt16_pair a b x y Ha Hb).
    assert (Hidx : Nat.div (length done) 2 = length pre).
    { rewrite Hdone, Nat.mul_comm. now apply Nat.div_mul. }
    assert (Hhalf : Nat.div (length (a :: b :: rest)) 2 = S (Nat.div (length rest) 2)).
    { cbn [length].
      replace (S (S (length rest))) with (1 * 2 + length rest)%nat by lia.
      rewrite Nat.div_add_l by lia. reflexivity. }
    rewrite Hidx, Hhalf. cbn [repeat].
    rewrite insert_app_r_alt, Nat.sub_diag by lia. cbn [insert list_insert].
    cbn [Hex.Buffer_from_hex]. rewrite Ha, Hb.
    specialize (IH (done ++ [a; b]) (pre ++ [(16 * x + y)%N]) f).
    rewrite !length_app in IH. cbn [length] in IH.
    rewrite <- !app_assoc in IH. cbn [app] in IH.
    apply IH; [lia |]. cbn in Hfuel. lia.
Qed.

Lemma stripHexPrefix_hex (h : list ascii) :
  Hex.isHexText h -> stripHexPrefix h = h.
Proof.
  intros [Hall _]. destruct h as [| z [| x rest]]; try reflexivity.
  cbn [stripHexPrefix].
  inversion Hall as [| ? ? _ Hall']; subst. inversion Hall' as [| ? ? Hx _]; subst.
  destruct (Hex.hexVal x) as [v |] eqn:Ev; [| contradiction].
  destruct (hexVal_plain x v Ev) as (_ & _ & _ & -> & _).
  now rewrite andb_false_r.
Qed.

Lemma hexToBytes_hex (h : list ascii) :
  Hex.isHexText h -> hexToBytesLoop (length h) 0 h (repeat 0%N (Nat.div (length h) 2))
                     = Hex.Buffer_from_hex h.
Proof.
  intros Hh.
  exact (hexToBytesLoop_hex h Hh [] [] (length h) eq_refl (le_n _)).
Qed.

(** *** bytesToHex *)

Lemma pad_hex2 (b : N) :
  Hex.isByte b ->
  (if (length (Hex.toString16 b) =? 1)%nat
   then chars "0" ++ Hex.toString16 b else Hex.toString16 b) = Hex.hex2 b.
Proof.
  unfold Hex.isByte. intros Hb. unfold Hex.toString16, Hex.hex2.
  destruct (N.eqb_spec b 0) as [-> | Hnz]; [reflexivity |].
  cbn [Hex.hexDigits]. destruct (N.eqb_spec b 0) as [? | _]; [contradiction |].
  destruct (N.lt_ge_cases b 16) as [Hlt | Hge].
  - rewrite (N.div_small b 16), HexFacts.hexDigits_zero by assumption.
    rewrite N.mod_small by assumption. reflexivity.
  - assert (Hlog : (4 <= N.log2 b)%N).
    { change 4%N with (N.log2 16). now apply N.log2_le_mono. }
    destruct (N.to_nat (N.log2 b)) as [| k] eqn:Hk; [lia |].
    cbn [Hex.hexDigits].
    destruct (N.eqb_spec (b / 16) 0) as [Hq | _].
    { apply N.div_small_iff in Hq; lia. }
    assert (Hqq : (b / 16 / 16 = 0)%N).
    { apply N.div_small. apply N.Div0.div_lt_upper_bound. lia. }
    rewrite Hqq, HexFacts.hexDigits_zero.
    assert (Hq16 : (b / 16 < 16)%N) by (apply N.Div0.div_lt_upper_bound; lia).
    rewrite (N.mod_small (b / 16)) by assumption. reflexivity.
Qed.

Lemma bytesToHex_text (bytes : list N) :
  Forall Hex.isByte bytes ->
  bytesToHex bytes = chars "0x" ++ Hex.Buffer_toString_hex bytes.
Proof.
  unfold bytesToHex. generalize (chars "0x") as acc.
  intros acc Hall. revert acc.
  induction Hall as [| b bytes Hb _ IH]; intros acc; cbn [fold_left].
  - cbn. now rewrite app_nil_r.
  - rewrite IH. cbv beta zeta. rewrite (pad_hex2 b Hb).
    unfold Hex.Buffer_toString_hex. cbn [flat_map]. now rewrite <- app_assoc.
Qed.

Lemma toString_hex_isHexText (bytes : list N) :
  Forall Hex.isByte bytes -> Hex.isHexText (Hex.Buffer_toString_hex bytes).
Proof.
  intros Hall. split.
  - induction Hall as [| b bytes Hb _ IH]; [constructor |].
    unfold Hex.Buffer_toString_hex, Hex.hex2 in *. cbn [flat_map app].
    unfold Hex.isByte in Hb.
    constructor; [| constructor; [| exact IH]].
    + rewrite HexFacts.hexVal_hexChar; [discriminate |].
      apply N.Div0.div_lt_upper_bound. lia.
    + rewrite HexFacts.hexVal_hexChar; [discriminate |].
      apply N.mod_lt. lia.
  - exists (length bytes). apply HexFacts.Buffer_toString_hex_length.
Qed.

Lemma toString_from_hex_lower (h : list ascii) :
  Hex.isHexText h ->
  Hex.Buffer_toString_hex (Hex.Buffer_from_hex h) = toLowerCase h.
Proof.
  intros Hh.
  induction Hh as [| a b x y rest Ha Hb _ IH] using HexFacts.isHexText_ind2;
    [reflexivity |].
  cbn [Hex.Buffer_from_hex]. rewrite Ha, Hb.
  destruct (hexVal_lower a x Ha) as [Hx Hla].
  destruct (hexVal_lower b y Hb) as [Hy Hlb].
  unfold Hex.Buffer_toString_hex in *. cbn [flat_map toLowerCase map].
  rewrite IH. unfold Hex.hex2. cbn [app].
  replace ((16 * x + y) / 16)%N with x
    by (rewrite N.mul_comm, N.div_add_l by lia; rewrite N.div_small; lia).
  replace ((16 * x + y) mod 16)%N with y
    by (rewrite N.add_comm, N.mul_comm, N.Div0.mod_add, N.mod_small; lia).
  now rewrite Hla, Hlb.
Qed.

End HelperTextFacts.

(** X1.  [isValidEthereumAddress] accepts exactly the strings made of
    ["0x"] and forty hexadecimal digits of either case; such a string has 42
    characters. *)
Theorem address_pattern (address : list ascii) :
  HelperText.isValidEthereumAddress address = true <->
  exists body,
    address = "0"%char :: "x"%char :: body
    /\ length body = 40%nat
    /\ Forall (fun c => Hex.hexVal c <> None) body.
Proof.
  rewrite HelperTextFacts.isValidEthereumAddress_shape.
  split; intros (body & Heq & Hlen & Hall); exists body;
    (split; [exact Heq | split; [exact Hlen |]]);
    (eapply Forall_impl; [exact Hall |]); intros c Hc;
    now apply HelperTextFacts.isHexChar_hexVal.
Qed.

(** X2.  Whatever its argument, [hexToBytes] returns half as many bytes
    (rounded down) as the text has characters once a leading ["0x"] is
    removed: a last unpaired character is dropped, and no character makes
    it fail. *)
Theorem hexToBytes_length (hex : list ascii) :
  length (HelperText.hexToBytes hex)
  = Nat.div (length (HelperText.stripHexPrefix hex)) 2.
Proof.
  unfold HelperText.hexToBytes.
  now rewrite HelperTextFacts.hexToBytesLoop_length, repeat_length.
Qed.

(** X3.  On well-formed hexadecimal text, with or without the ["0x"] in
    front, [hexToBytes] gives the bytes that [Buffer.from(text, 'hex')]
    gives. *)
Theorem hexToBytes_agrees_with_Buffer (h : list ascii) :
  Hex.isHexText h ->
  HelperText.hexToBytes h = Hex.Buffer_from_hex h
  /\ HelperText.hexToBytes (chars "0x" ++ h) = Hex.Buffer_from_hex h.
Proof.
  intros Hh. unfold HelperText.hexToBytes. split.
  - rewrite HelperTextFacts.stripHexPrefix_hex by assumption.
    now apply HelperTextFacts.hexToBytes_hex.
  - cbn [chars list_ascii_of_string app HelperText.stripHexPrefix Ascii.eqb
         Bool.eqb andb].
    now apply HelperTextFacts.hexToBytes_hex.
Qed.

Lemma hexToBytes_agrees_with_Buffer_witness :
  HelperText.hexToBytes (chars "dead") = Hex.Buffer_from_hex (chars "dead")
  /\ HelperText.hexToBytes (chars "0x" ++ chars "dead")
     = Hex.Buffer_from_hex (chars "dead").
Proof.
  apply (hexToBytes_agrees_with_Buffer (chars "dead")).
  split; [repeat constructor; discriminate | exists 2%nat; reflexivity].
Defined.

(** X4.  [hexToBytes] undoes [bytesToHex]: for every array of bytes,
    [hexToBytes(bytesToHex(bytes))] is the array again. *)
Theorem hexToBytes_bytesToHex (bytes : list N) :
  Forall Hex.isByte bytes ->
  HelperText.hexToBytes (HelperText.bytesToHex bytes) = bytes.
Proof.
  intros Hb. rewrite HelperTextFacts.bytesToHex_text by assumption.
  unfold HelperText.hexToBytes.
  cbn [chars list_ascii_of_string app HelperText.stripHexPrefix Ascii.eqb
       Bool.eqb andb].
  rewrite HelperTextFacts.hexToBytes_hex
    by now apply HelperTextFacts.toString_hex_isHexText.
  rewrite <- (app_nil_r (Hex.Buffer_toString_hex bytes)).
  rewrite HexFacts.Buffer_from_hex_toString by assumption.
  now rewrite app_nil_r.
Qed.

Lemma hexToBytes_bytesToHex_witness :
  HelperText.hexToBytes (HelperText.bytesToHex [0; 7; 255; 16]%N) = [0; 7; 255; 16]%N.
Proof.
  apply (hexToBytes_bytesToHex [0; 7; 255; 16]%N).
  repeat constructor.
Defined.

(** X5.  [bytesToHex] undoes [hexToBytes] up to case and prefix: for
    well-formed hexadecimal text [h], with or without ["0x"] in front, the
    result is ["0x"] followed by [h] in lower case. *)
Theorem bytesToHex_hexToBytes (h : list ascii) :
  Hex.isHexText h ->
  HelperText.bytesToHex (HelperText.hexToBytes h)
  = chars "0x" ++ HelperText.toLowerCase h
  /\ HelperText.bytesToHex (HelperText.hexToBytes (chars "0x" ++ h))
     = chars "0x" ++ HelperText.toLowerCase h.
Proof.
  intros Hh.
  assert (Hcore : HelperText.bytesToHex (Hex.Buffer_from_hex h)
                  = chars "0x" ++ HelperText.toLowerCase h).
  { rewrite HelperTextFacts.bytesToHex_text by apply HexFacts.Buffer_from_hex_bytes.
    now rewrite HelperTextFacts.toString_from_hex_lower. }
  unfold HelperText.hexToBytes. split.
  - rewrite HelperTextFacts.stripHexPrefix_hex by assumption.
    now rewrite HelperTextFacts.hexToBytes_hex.
  - cbn [chars list_ascii_of_string app HelperText.stripHexPrefix Ascii.eqb
         Bool.eqb andb].
    now rewrite HelperTextFacts.hexToBytes_hex.
Qed.

Lemma bytesToHex_hexToBytes_witness :
  HelperText.bytesToHex (HelperText.hexToBytes (chars "DEad01"))
  = chars "0x" ++ chars "dead01"
  /\ HelperText.bytesToHex (HelperText.hexToBytes (chars "0x" ++ chars "DEad01"))
     = chars "0x" ++ chars "dead01".
Proof.
  apply (bytesToHex_hexToBytes (chars "DEad01")).
  split; [repeat constructor; discriminate | exists 3%nat; reflexivity].
Defined.

(** X6.  [addressesEqual] is symmetric and transitive, and it relates an
    address to itself exactly when the address is valid: on valid addresses
    it is an equivalence, and an invalid address equals nothing, not even
    itself. *)
Theorem addressesEqual_partial_equivalence :
  (forall a b, HelperText.addressesEqual a b = HelperText.addressesEqual b a)
  /\ (forall a b c,
         HelperText.addressesEqual a b = true ->
         HelperText.addressesEqual b c = true ->
         HelperText.addressesEqual a c = true)
  /\ (forall a, HelperText.addressesEqual a a = HelperText.isValidEthereumAddress a).
Proof.
  repeat split.
  - intros a b.
    destruct (HelperText.addressesEqual a b) eqn:Hab;
      destruct (HelperText.addressesEqual b a) eqn:Hba; try reflexivity.
    + apply HelperTextFacts.addressesEqual_iff in Hab as (Ha & Hb & Heq).
      rewrite <- Hba. symmetry. apply HelperTextFacts.addressesEqual_iff. auto.
    + apply HelperTextFacts.addressesEqual_iff in Hba as (Hb & Ha & Heq).
      rewrite <- Hab. apply HelperTextFacts.addressesEqual_iff. auto.
  - intros a b c Hab Hbc.
    apply HelperTextFacts.addressesEqual_iff in Hab as (Ha & Hb & Heq1).
    apply HelperTextFacts.addressesEqual_iff in Hbc as (_ & Hc & Heq2).
    apply HelperTextFacts.addressesEqual_iff. repeat split; congruence.
  - intros a. destruct (HelperText.isValidEthereumAddress a) eqn:Ha.
    + apply HelperTextFacts.addressesEqual_iff. auto.
    + unfold HelperText.addressesEqual. rewrite Ha. reflexivity.
Qed.

Lemma addressesEqual_partial_equivalence_witness :
  HelperText.addressesEqual
    (chars "0xABCDEF7890123456789012345678901234567890")
    (chars "0xabcDEF7890123456789012345678901234567890") = true.
Proof.
  destruct addressesEqual_partial_equivalence as (_ & Htrans & _).
  apply (Htrans _ (chars "0xabcdef7890123456789012345678901234567890"));
    reflexivity.
Defined.

(** X8.  [truncate(str, n)] returns [str] itself when it has at most [n]
    characters, and otherwise its first [n] characters followed by three
    dots, [n + 3] characters in all: the result is never longer than
    [n + 3], and it is longer than [str] when [str] has [n + 1] or [n + 2]
    characters. *)
Theorem truncate_length (str : list ascii) (n : nat) :
  ((length str <= n)%nat -> HelperText.truncate str n = str)
  /\ ((n < length str)%nat ->
      length (HelperText.truncate str n) = (n + 3)%nat
      /\ firstn n (HelperText.truncate str n) = firstn n str)
  /\ (length (HelperText.truncate str n) <= n + 3)%nat.
Proof.
  unfold HelperText.truncate.
  destruct (Nat.leb_spec (length str) n) as [Hle | Hlt].
  - split; [reflexivity |]. split; [lia | lia].
  - assert (Hlen : length (firstn n str ++ chars "...") = (n + 3)%nat).
    { rewrite length_app, length_firstn. cbn. lia. }
    split; [lia |]. split; [| lia].
    intros _. split; [exact Hlen |].
    rewrite firstn_app, length_firstn.
    replace (n - Init.Nat.min n (length str))%nat with 0%nat by lia.
    now rewrite firstn_0, app_nil_r, firstn_firstn, Nat.min_id.
Qed.

Lemma truncate_length_witness :
  length (HelperText.truncate (chars "hello") 4) = 7%nat
  /\ firstn 4 (HelperText.truncate (chars "hello") 4) = firstn 4 (chars "hello").
Proof.
  destruct (truncate_length (chars "hello") 4) as (_ & Hlong & _).
  apply Hlong. cbn. lia.
Defined.

Lemma address_pattern_witness :
  HelperText.isValidEthereumAddress
    (chars "0x1234567890abcdefABCDEF7890123456789012ff") = true.
Proof.
  apply (proj2 (address_pattern (chars "0x1234567890abcdefABCDEF7890123456789012ff"))).
  exists (chars "1234567890abcdefABCDEF7890123456789012ff").
  split; [reflexivity |]. split; [reflexivity |].
  repeat constructor; discriminate.
Defined.

(** ** helpers: checksum, display, paths, retries *)

Module HelperLoopFacts.
Import Regex RegexFacts Helpers HelperText HelperTextFacts.

Local Open Scope Z_scope.

Lemma lower_upper (c : ascii) : lowerChar (upperChar c) = lowerChar c.
Proof. each_char c. Qed.

Lemma isHexChar_upper (c : ascii) : isHexChar (upperChar c) = isHexChar c.
Proof. each_char c. Qed.

(** The loop of [toChecksumAddress] appends one character per character
    of [addr], each either kept or turned to upper case. *)
Lemma checksumLoop_out (hash : list ascii) :
  forall rest i result,
    exists out,
      checksumLoop hash i rest result = result ++ out
      /\ Forall2 (fun o c => o = c \/ o = upperChar c) out rest.
Proof.
  induction rest as [| c rest IH]; intros i result; cbn [checksumLoop].
  - exists []. now rewrite app_nil_r.
  - destruct (IH (S i) (result ++ [if above7 hash i then upperChar c else c]))
      as (out & Heq & Hall).
    exists ((if above7 hash i then upperChar c else c) :: out). split.
    + rewrite Heq, <- app_assoc. reflexivity.
    + constructor; [| exact Hall]. destruct (above7 hash i); auto.
Qed.

Lemma cased_lower (out rest : list ascii) :
  Forall2 (fun o c => o = c \/ o = upperChar c) out rest ->
  toLowerCase out = toLowerCase rest.
Proof.
  induction 1 as [| o c out rest Hoc _ IH]; [reflexivity |].
  unfold toLowerCase in *. cbn [map]. rewrite IH. f_equal.
  destruct Hoc as [-> | ->]; [reflexivity | apply lower_upper].
Qed.

Lemma cased_hex (out rest : list ascii) :
  Forall2 (fun o c => o = c \/ o = upperChar c) out rest ->
  Forall (fun c => isHexChar c = true) rest ->
  Forall (fun c => isHexChar c = true) out.
Proof.
  induction 1 as [| o c out rest Hoc _ IH]; intros Hall; [constructor |].
  inversion Hall as [| ? ? Hc Hrest]; subst.
  constructor; [| now apply IH].
  destruct Hoc as [-> | ->]; [assumption | now rewrite isHexChar_upper].
Qed.

Lemma lower_hex (body : list ascii) :
  Forall (fun c => isHexChar c = true) body ->
  Forall (fun c => isHexChar c = true) (toLowerCase body).
Proof.
  induction 1 as [| c body Hc _ IH]; cbn; constructor; [| assumption].
  now rewrite isHexChar_lower.
Qed.

Lemma lower_idem (w : list ascii) : toLowerCase (toLowerCase w) = toLowerCase w.
Proof.
  induction w as [| c w IH]; [reflexivity |].
  unfold toLowerCase in *. cbn [map]. now rewrite IH, lower_lower.
Qed.

(** *** Slashes in a path *)

Lemma count_no_slash (w : list ascii) :
  Forall (fun c => Ascii.eqb c slash = false) w ->
  count_occ ascii_dec w slash = 0%nat.
Proof.
  induction 1 as [| c w Hc _ IH]; [reflexivity |].
  rewrite count_occ_cons_neq; [exact IH |].
  intros ->. now rewrite Ascii.eqb_refl in Hc.
Qed.

Lemma count_slash_path (segs : list PathSpec.Segment) :
  Forall PathSpec.wellFormed segs ->
  count_occ ascii_dec (PathSpec.pathText segs) slash = length segs.
Proof.
  intros Hsegs. unfold PathSpec.pathText.
  rewrite count_occ_app. cbn [chars list_ascii_of_string].
  rewrite count_occ_cons_neq by discriminate. cbn [count_occ Nat.add].
  induction Hsegs as [| sg segs Hsg _ IH]; [reflexivity |].
  cbn [flat_map length].
  change ((slash :: PathSpec.segmentText sg) ++ ?x)
    with (slash :: (PathSpec.segmentText sg ++ x)).
  rewrite count_occ_cons_eq by reflexivity.
  rewrite count_occ_app, count_no_slash by now apply PathFacts.segmentText_no_slash.
  now rewrite IH.
Qed.

(** *** The retry loop *)

Section RetryLoop.

Context {S E T : Type} (fn : S -> (E + T) * S).

Lemma retryLoop_spec (maxRetries : nat) (d : N) :
  forall rounds i a,
    (rounds + i = maxRetries)%nat -> (0 < rounds)%nat ->
    let res := fst (retryLoop S E T fn rounds i maxRetries d a) in
    let a' := snd (retryLoop S E T fn rounds i maxRetries d a) in
    res <> inl MaxRetriesExceeded
    /\ (calls a < calls a' <= calls a + rounds)%nat
    /\ slept a' = slept a ++ map (fun j => (d * 2 ^ N.of_nat j)%N)
                                 (seq i (calls a' - calls a - 1))
    /\ (forall e, res = inl (Thrown e) -> calls a' = (calls a + rounds)%nat).
Proof.
  induction rounds as [| r IH]; intros i a Hsum Hpos; [lia |].
  cbn [retryLoop]. destruct (fn (opState a)) as [[e | t] st].
  - destruct (Nat.eqb_spec i (maxRetries - 1)) as [Hlast | Hmore].
    + cbn [fst snd calls slept].
      replace (Datatypes.S (calls a) - calls a - 1)%nat with 0%nat by lia.
      cbn [seq map]. rewrite app_nil_r.
      repeat split; try discriminate; try lia.
    + assert (Hr : (0 < r)%nat) by lia.
      cbn [calls slept].
      set (a1 := {| opState := st; calls := Datatypes.S (calls a);
                    slept := slept a ++ [(d * 2 ^ N.of_nat i)%N] |}).
      specialize (IH (Datatypes.S i) a1 ltac:(lia) Hr).
      cbv zeta in IH.
      set (out := retryLoop S E T fn r (Datatypes.S i) maxRetries d a1) in *.
      cbn [calls slept a1] in IH.
      destruct IH as (Hne & Hcalls & Hslept & Hthrown).
      repeat split; try assumption; try lia.
      * rewrite Hslept, <- app_assoc. f_equal.
        replace (calls (snd out) - calls a - 1)%nat
          with (Datatypes.S (calls (snd out) - Datatypes.S (calls a) - 1))%nat
          by lia.
        reflexivity.
      * intros e' He'. rewrite (Hthrown e' He'). lia.
  - cbn [fst snd calls slept].
    replace (Datatypes.S (calls a) - calls a - 1)%nat with 0%nat by lia.
    cbn [seq map]. rewrite app_nil_r.
    repeat split; try discriminate; try lia.
Qed.

End RetryLoop.

End HelperLoopFacts.

Section ChecksumAddress.

Context (sha256hex : list ascii -> list ascii).

(** X7.  Whatever the digest function, [toChecksumAddress] throws on an
    invalid address, and on a valid one returns a valid address that
    differs from its argument in the case of letters only:
    [addressesEqual] holds between the two. *)
Theorem toChecksumAddress_keeps_address (address : list ascii) :
  (HelperText.isValidEthereumAddress address = false ->
   HelperText.toChecksumAddress sha256hex address
   = inl HelperText.InvalidEthereumAddress)
  /\ (HelperText.isValidEthereumAddress address = true ->
      exists result,
        HelperText.toChecksumAddress sha256hex address = inr result
        /\ HelperText.isValidEthereumAddress result = true
        /\ HelperText.addressesEqual address result = true).
Proof.
  unfold HelperText.toChecksumAddress.
  change (Regex.matches HelperText.addressRegex address)
    with (HelperText.isValidEthereumAddress address).
  split; intros Hv; rewrite Hv; cbn [negb]; [reflexivity |].
  pose proof Hv as Hshape.
  apply HelperTextFacts.isValidEthereumAddress_shape in Hshape
    as (body & -> & Hlen & Hall).
  cbv zeta. change (skipn 2 ("0"%char :: "x"%char :: body)) with body.
  destruct (HelperLoopFacts.checksumLoop_out
              (sha256hex (HelperText.toLowerCase body)) (HelperText.toLowerCase body)
              0%nat (chars "0x")) as (out & Heq & Hcased).
  rewrite Heq. eexists. split; [reflexivity |].
  assert (Hvalid : HelperText.isValidEthereumAddress (chars "0x" ++ out) = true).
  { apply HelperTextFacts.isValidEthereumAddress_shape. exists out.
    split; [reflexivity |]. split.
    - rewrite (Forall2_length _ _ _ Hcased).
      unfold HelperText.toLowerCase. now rewrite length_map.
    - eapply HelperLoopFacts.cased_hex; [exact Hcased |].
      now apply HelperLoopFacts.lower_hex. }
  split; [exact Hvalid |].
  apply HelperTextFacts.addressesEqual_iff. repeat split; try assumption.
  cbn [chars list_ascii_of_string app HelperText.toLowerCase map].
  do 2 f_equal.
  change (map HelperText.lowerChar out) with (HelperText.toLowerCase out).
  rewrite (HelperLoopFacts.cased_lower _ _ Hcased).
  now rewrite HelperLoopFacts.lower_idem.
Qed.

End ChecksumAddress.

Lemma toChecksumAddress_keeps_address_witness :
  exists result,
    HelperText.toChecksumAddress (fun _ => chars "0f8a91")
      (chars "0xABCDEF7890123456789012345678901234567890") = inr result
    /\ HelperText.isValidEthereumAddress result = true
    /\ HelperText.addressesEqual
         (chars "0xABCDEF7890123456789012345678901234567890") result = true.
Proof.
  apply (proj2 (toChecksumAddress_keeps_address (fun _ => chars "0f8a91")
                  (chars "0xABCDEF7890123456789012345678901234567890"))).
  reflexivity.
Defined.

(** X9.  [formatAddress] returns an invalid address unchanged.  For a valid
    address and a non-negative integer length [n] of at most 42 the result
    has [n + 7] characters: the first [n] of the address, three dots, and
    its last four. *)
Theorem formatAddress_shape (address : list ascii) (n : nat) :
  (HelperText.isValidEthereumAddress address = false ->
   HelperText.formatAddress address n = address)
  /\ (HelperText.isValidEthereumAddress address = true -> (n <= 42)%nat ->
      length (HelperText.formatAddress address n) = (n + 7)%nat
      /\ firstn n (HelperText.formatAddress address n) = firstn n address
      /\ HelperText.sliceLast 4 (HelperText.formatAddress address n)
         = HelperText.sliceLast 4 address).
Proof.
  unfold HelperText.formatAddress.
  split; intros Hv; rewrite Hv; cbn [negb]; [reflexivity |].
  intros Hn.
  apply HelperTextFacts.isValidEthereumAddress_shape in Hv
    as (body & -> & Hlen & _).
  set (a := "0"%char :: "x"%char :: body).
  assert (Ha : length a = 42%nat) by (subst a; cbn [length]; lia).
  assert (Hlast : length (HelperText.sliceLast 4 a) = 4%nat).
  { unfold HelperText.sliceLast. rewrite length_skipn. lia. }
  assert (Hfirst : length (firstn n a) = n) by (rewrite length_firstn; lia).
  assert (Htotal : length (firstn n a ++ chars "..." ++ HelperText.sliceLast 4 a)
                   = (n + 7)%nat).
  { rewrite !length_app, Hfirst, Hlast. cbn. lia. }
  repeat split.
  - exact Htotal.
  - rewrite firstn_app, Hfirst, Nat.sub_diag, firstn_0, app_nil_r.
    now rewrite firstn_firstn, Nat.min_id.
  - unfold HelperText.sliceLast at 1. rewrite Htotal.
    replace (n + 7 - 4)%nat with (length (firstn n a ++ chars "..."))
      by (rewrite length_app, Hfirst; cbn; lia).
    rewrite app_assoc, skipn_app, skipn_all, Nat.sub_diag. reflexivity.
Qed.

Lemma formatAddress_shape_witness :
  length (HelperText.formatAddress
            (chars "0x1234567890123456789012345678901234567890") 6) = 13%nat.
Proof.
  destruct (formatAddress_shape
              (chars "0x1234567890123456789012345678901234567890") 6)
    as (_ & Hvalid).
  apply Hvalid; [reflexivity | lia].
Defined.

(** X10.  When [parseDerivationPath] returns, it returns one entry per
    slash of the path, and no entry is [NaN] or negative: each is a
    non-negative integer, or Infinity when the index is too large for a
    double. *)
Theorem parseDerivationPath_entries (path : list ascii) (result : list Helpers.number) :
  Helpers.parseDerivationPath path = inr result ->
  length result = count_occ ascii_dec path Helpers.slash
  /\ Forall (fun x => (exists z, x = Helpers.Num z /\ (0 <= z)%Z)
                      \/ x = Helpers.Infinity false) result.
Proof.
  intros Hparse.
  assert (Hv : Helpers.isValidDerivationPath path = true).
  { unfold Helpers.parseDerivationPath in Hparse.
    destruct (Helpers.isValidDerivationPath path); [reflexivity | discriminate]. }
  apply PathFacts.isValidDerivationPath_iff in Hv as (segs & Hsegs & ->).
  rewrite PathFacts.parseDerivationPath_text in Hparse by assumption.
  injection Hparse as <-. split.
  - now rewrite length_map, HelperLoopFacts.count_slash_path.
  - apply Forall_map. apply Forall_forall. intros sg _.
    apply PathFacts.segmentNumber_nonneg.
Qed.

Lemma parseDerivationPath_entries_witness :
  length [Helpers.Num 2147483692; Helpers.Num 9007199254740992;
          Helpers.Infinity false] = 3%nat
  /\ Forall (fun x => (exists z, x = Helpers.Num z /\ (0 <= z)%Z)
                      \/ x = Helpers.Infinity false)
            [Helpers.Num 2147483692; Helpers.Num 9007199254740992;
             Helpers.Infinity false].
Proof.
  apply (parseDerivationPath_entries
           (chars "m/44'/9007199254740993/" ++ repeat "9"%char 400)).
  vm_compute. reflexivity.
Defined.

Section RetryWithBackoff.

Context {S E T : Type} (fn : S -> (E + T) * S).


End RetryWithBackoff.


(** ** NFCService: the methods on the wire *)

Module NFCMethodFacts.
Import Hex HexFacts NFC NFCService NFCFacts.

(** The frame of a command whose data is well-formed hexadecimal text. *)
Lemma wireBytes_bytes (apdu : KeycardAPDU) :
  isHexText (default [] (data apdu)) ->
  wireBytes apdu
  = [cla apdu mod 256; ins apdu mod 256; p1 apdu mod 256; p2 apdu mod 256]
    ++ [N.of_nat (length (Buffer_from_hex (default [] (data apdu)))) mod 256]
    ++ Buffer_from_hex (default [] (data apdu))
    ++ match le apdu with
       | Some l => [l mod 256]
       | None => []
       end.
Proof.
  intros Hd. unfold wireBytes. rewrite formatAPDU_text.
  rewrite !Buffer_from_hex_hex2 by apply mod256_byte.
  cbn [app]. do 5 f_equal.
  rewrite Buffer_from_hex_app by assumption. f_equal.
  destruct (le apdu) as [l |]; [| reflexivity].
  rewrite <- (app_nil_r (hex2 (l mod 256))).
  now rewrite Buffer_from_hex_hex2 by apply mod256_byte.
Qed.

Lemma N_of_ascii_byte (c : ascii) : isByte (N_of_ascii c).
Proof. apply N_ascii_bounded. Qed.

Lemma Buffer_from_string_bytes (s : list ascii) :
  Forall isByte (Buffer_from_string s).
Proof.
  unfold Buffer_from_string. apply Forall_map, Forall_forall.
  intros c _. apply N_of_ascii_byte.
Qed.

Section Methods.

Context {Card : Type} (transceive : Card -> list N -> option (list N) * Card).

Lemma sendAPDU_uninitialised (apdu : KeycardAPDU) (w : World Card) :
  isInitialized w = false ->
  sendAPDU Card transceive apdu w = (inl NotInitialized, w).
Proof. intros H. unfold sendAPDU. now rewrite H. Qed.

Lemma sendAPDU_answered (apdu : KeycardAPDU) (w : World Card)
    (response : list N) (card' : Card) :
  isInitialized w = true ->
  transceive (card w) (wireBytes apdu) = (Some response, card') ->
  sendAPDU Card transceive apdu w
  = (inr (responseHex response),
     mkWorld true (isScanning w) card' (sent w ++ [wireBytes apdu])).
Proof.
  intros Hi Ht. unfold sendAPDU. rewrite Hi. cbn [negb].
  unfold wireBytes in Ht. rewrite Ht. reflexivity.
Qed.

Lemma sendAPDU_failed (apdu : KeycardAPDU) (w : World Card) (card' : Card) :
  isInitialized w = true ->
  transceive (card w) (wireBytes apdu) = (None, card') ->
  sendAPDU Card transceive apdu w
  = (inl TransceiveFailed,
     mkWorld true (isScanning w) card' (sent w ++ [wireBytes apdu])).
Proof.
  intros Hi Ht. unfold sendAPDU. rewrite Hi. cbn [negb].
  unfold wireBytes in Ht. rewrite Ht. reflexivity.
Qed.

Lemma select_then_answered (apdu : KeycardAPDU) (w : World Card)
    (r1 r2 : list N) (c1 c2 : Card) :
  isInitialized w = true ->
  transceive (card w) (wireBytes selectAPDU) = (Some r1, c1) ->
  transceive c1 (wireBytes apdu) = (Some r2, c2) ->
  bind Card (selectKeycard Card transceive)
       (fun _ => sendAPDU Card transceive apdu) w
  = (inr (responseHex r2),
     mkWorld true (isScanning w) c2
             (sent w ++ [wireBytes selectAPDU; wireBytes apdu])).
Proof.
  intros Hi H1 H2. unfold bind, selectKeycard.
  rewrite (sendAPDU_answered selectAPDU w r1 c1 Hi H1).
  rewrite (sendAPDU_answered apdu
             (mkWorld true (isScanning w) c1 (sent w ++ [wireBytes selectAPDU]))
             r2 c2 eq_refl H2).
  cbn [isScanning sent]. now rewrite <- app_assoc.
Qed.

End Methods.

End NFCMethodFacts.

Section CardMethods.

Context {Card : Type} (transceive : Card -> list N -> option (list N) * Card).

(** X12.  Before [initialize] has succeeded, and again after [cleanup],
    every method that talks to the card throws 'NFC Manager not
    initialized': no frame is handed to the card and nothing changes. *)
Theorem uninitialised_service_sends_nothing
    (m : NFCService.Method) (w : NFCService.World Card) :
  NFCService.isInitialized w = false ->
  NFCService.call Card transceive m w = (inl NFCService.NotInitialized, w).
Proof.
  intros H.
  destruct m; cbn [NFCService.call];
    unfold NFCService.getKeycardStatus, NFCService.verifyPin,
      NFCService.getPublicKey, NFCService.signData, NFCService.bind,
      NFCService.selectKeycard;
    now rewrite (NFCMethodFacts.sendAPDU_uninitialised transceive _ w H).
Qed.

(** X13.  When the card answers both exchanges, [getKeycardStatus],
    [verifyPin], [getPublicKey] and [signData] hand it exactly two frames,
    SELECT and then their own command, and return the second answer as
    hexadecimal text.  What the card answered to SELECT plays no part: its
    status word is not looked at. *)
Theorem methods_select_then_command
    (w : NFCService.World Card) (r1 r2 : list N) (c1 c2 : Card)
    (m : NFCService.Method) (apdu : NFC.KeycardAPDU) :
  NFCService.isInitialized w = true ->
  transceive (NFCService.card w) (NFC.wireBytes NFCService.selectAPDU) = (Some r1, c1) ->
  transceive c1 (NFC.wireBytes apdu) = (Some r2, c2) ->
  (m = NFCService.GetKeycardStatus /\ apdu = NFCService.statusAPDU)
  \/ (exists pin, m = NFCService.VerifyPin pin /\ apdu = NFCService.verifyAPDU pin)
  \/ (exists keyPath, m = NFCService.GetPublicKey keyPath
                      /\ apdu = NFCService.publicKeyAPDU keyPath)
  \/ (exists d, m = NFCService.SignData d /\ apdu = NFCService.signAPDU d) ->
  NFCService.call Card transceive m w
  = (inr (NFCService.responseHex r2),
     NFCService.mkWorld true (NFCService.isScanning w) c2
       (NFCService.sent w ++ [NFC.wireBytes NFCService.selectAPDU; NFC.wireBytes apdu])).
Proof.
  intros Hi H1 H2 Hm.
  destruct Hm as [[-> ->] | [(pin & -> & ->) | [(keyPath & -> & ->) | (d & -> & ->)]]];
    cbn [NFCService.call];
    unfold NFCService.getKeycardStatus, NFCService.verifyPin,
      NFCService.getPublicKey, NFCService.signData;
    now apply (NFCMethodFacts.select_then_answered transceive _ w r1 r2 c1 c2).
Qed.

(** X14.  When the SELECT exchange fails, every method stops there: it
    throws the transport error, and the command it was called for is never
    sent. *)
Theorem failed_select_stops_method
    (m : NFCService.Method) (w : NFCService.World Card) (c1 : Card) :
  NFCService.isInitialized w = true ->
  transceive (NFCService.card w) (NFC.wireBytes NFCService.selectAPDU) = (None, c1) ->
  NFCService.call Card transceive m w
  = (inl NFCService.TransceiveFailed,
     NFCService.mkWorld true (NFCService.isScanning w) c1
       (NFCService.sent w ++ [NFC.wireBytes NFCService.selectAPDU])).
Proof.
  intros Hi H1.
  destruct m; cbn [NFCService.call];
    unfold NFCService.getKeycardStatus, NFCService.verifyPin,
      NFCService.getPublicKey, NFCService.signData, NFCService.bind,
      NFCService.selectKeycard;
    now rewrite (NFCMethodFacts.sendAPDU_failed transceive _ w c1 Hi H1).
Qed.

End CardMethods.

Lemma uninitialised_service_sends_nothing_witness :
  NFCService.call unit (Scenario.answering [0x90; 0x00])
                  (NFCService.VerifyPin Scenario.acceptedPin)
                  (NFCService.mkWorld false false tt [])
  = (inl NFCService.NotInitialized, NFCService.mkWorld false false tt []).
Proof.
  apply (uninitialised_service_sends_nothing
           (Scenario.answering [0x90; 0x00])
           (NFCService.VerifyPin Scenario.acceptedPin)
           (NFCService.mkWorld false false tt [])).
  reflexivity.
Defined.

Lemma methods_select_then_command_witness :
  NFCService.call unit (Scenario.answering [0x6a; 0x82])
                  NFCService.GetKeycardStatus Scenario.ready
  = (inr (chars "6a82"),
     NFCService.mkWorld true false tt
       ([] ++ [NFC.wireBytes NFCService.selectAPDU;
               NFC.wireBytes NFCService.statusAPDU])).
Proof.
  apply (methods_select_then_command (Scenario.answering [0x6a; 0x82])
           Scenario.ready [0x6a; 0x82] [0x6a; 0x82] tt tt
           NFCService.GetKeycardStatus NFCService.statusAPDU);
    try reflexivity.
  left. split; reflexivity.
Defined.

Lemma failed_select_stops_method_witness :
  NFCService.call unit (fun _ _ => (None, tt))
                  (NFCService.SignData (chars "abcd")) Scenario.ready
  = (inl NFCService.TransceiveFailed,
     NFCService.mkWorld true false tt ([] ++ [NFC.wireBytes NFCService.selectAPDU])).
Proof.
  apply (failed_select_stops_method (fun _ _ => (None, tt))
           (NFCService.SignData (chars "abcd")) Scenario.ready tt);
    reflexivity.
Defined.

(** X15.  For a PIN of ASCII characters the VERIFY frame carries the PIN in
    clear, as the character codes of the string: 80 20 00 00, the number of
    characters, the codes, and a final 00.  An empty PIN gives
    80 20 00 00 00 00. *)
Theorem verify_frame_carries_pin (pin : list ascii) :
  NFC.wireBytes (NFCService.verifyAPDU pin)
  = [0x80; 0x20; 0x00; 0x00] ++ [N.of_nat (length pin) mod 256]
    ++ map N_of_ascii pin ++ [0x00].
Proof.
  assert (Hdec : Hex.Buffer_from_hex
                   (Hex.Buffer_toString_hex (Hex.Buffer_from_string pin))
                 = map N_of_ascii pin).
  { rewrite <- (app_nil_r (Hex.Buffer_toString_hex _)).
    rewrite HexFacts.Buffer_from_hex_toString
      by apply NFCMethodFacts.Buffer_from_string_bytes.
    now rewrite app_nil_r. }
  rewrite NFCMethodFacts.wireBytes_bytes.
  - cbn [NFCService.verifyAPDU NFC.cla NFC.ins NFC.p1 NFC.p2 NFC.data NFC.le
         default from_option id].
    rewrite Hdec, length_map. reflexivity.
  - cbn [NFCService.verifyAPDU NFC.data default from_option id].
    apply HelperTextFacts.toString_hex_isHexText,
      NFCMethodFacts.Buffer_from_string_bytes.
Qed.

(** X16.  Data whose first two characters are not both hexadecimal digits
    never reaches the card: [Buffer.from] stops there, so the frame is cut
    to the four header bytes and an Lc of 00, with no data and no Le.  This
    is what happens to data that starts with ["0x"], as the digests of
    [ethers] do: the SIGN frame for it is 80 C0 00 00 00. *)
Theorem frame_cut_at_bad_data (apdu : NFC.KeycardAPDU) (a b : ascii) (rest : list ascii) :
  NFC.data apdu = Some (a :: b :: rest) ->
  Hex.hexVal a = None \/ Hex.hexVal b = None ->
  NFC.wireBytes apdu
  = [NFC.cla apdu mod 256; NFC.ins apdu mod 256;
     NFC.p1 apdu mod 256; NFC.p2 apdu mod 256; 0x00].
Proof.
  intros Hdata Hbad.
  assert (Hstop : forall tail, Hex.Buffer_from_hex ((a :: b :: rest) ++ tail) = []).
  { intros tail. cbn [app Hex.Buffer_from_hex].
    destruct Hbad as [-> | Hb]; [reflexivity |].
    rewrite Hb. now destruct (Hex.hexVal a). }
  unfold NFC.wireBytes. rewrite NFCFacts.formatAPDU_text, Hdata.
  cbn [default from_option id].
  rewrite <- (app_nil_r (a :: b :: rest)) at 1. rewrite Hstop.
  cbn [length N.of_nat].
  rewrite !HexFacts.Buffer_from_hex_hex2 by apply NFCFacts.mod256_byte.
  now rewrite Hstop.
Qed.

Lemma frame_cut_at_bad_data_witness :
  NFC.wireBytes (NFCService.signAPDU (chars "0xabcd"))
  = [0x80; 0xc0; 0x00; 0x00; 0x00].
Proof.
  apply (frame_cut_at_bad_data (NFCService.signAPDU (chars "0xabcd"))
           "0"%char "x"%char (chars "abcd")).
  - reflexivity.
  - right. reflexivity.
Defined.

(** ** KeycardService: gates and the counter *)

Module KeycardRunFacts.
Import Regex RegexFacts Keycard KeycardFacts KeycardInvariant.

Local Open Scope Z_scope.

Section Runs.

Context {Transaction : Type}.
Context (serialize : Transaction -> option (list ascii)).
Context (keccak256 hashMessage : list ascii -> list ascii).
Context (address : list ascii -> option (list ascii)).

Lemma step_keeps_bounded (o : Op Transaction) (k : Service) :
  bounded k ->
  bounded (step Transaction serialize keccak256 hashMessage address o k).
Proof.
  intros [Hinv Hle]. split; [now apply step_keeps_invariant |].
  intros n. rewrite storedRetries_step by assumption.
  destruct o; cbn [countStep]; try apply Hle.
  - intros [= <-]. lia.
  - destruct (rejected pin); [| apply Hle].
    destruct (storedRetries k) as [m |]; cbn [option_map]; [| discriminate].
    intros [= <-]. specialize (Hle m eq_refl). lia.
  - discriminate.
Qed.

Lemma run_keeps_bounded (ops : list (Op Transaction)) :
  forall k, bounded k ->
            bounded (run Transaction serialize keccak256 hashMessage address ops k).
Proof.
  unfold run. induction ops as [| o ops IH]; intros k Hk; [exact Hk |].
  cbn [fold_left]. apply IH. now apply step_keeps_bounded.
Qed.

End Runs.

Lemma fresh_bounded : bounded fresh.
Proof. split; [now left | discriminate]. Qed.

End KeycardRunFacts.

Section KeycardGates.

Context {Transaction : Type}.
Context (serialize : Transaction -> option (list ascii)).
Context (keccak256 hashMessage : list ascii -> list ascii).
Context (address : list ascii -> option (list ascii)).

(** X17.  On a service that is not connected (new, or after [disconnect])
    [verifyPin], [derivePublicKey], [getEthereumAddress], [signTransaction]
    and [signMessage] all throw 'Keycard not connected', whatever their
    argument; none issues a card command and the service is left as it
    was. *)
Theorem unconnected_service_refuses (k : Keycard.Service) :
  Keycard.isConnected k = false ->
  (forall pin, Keycard.verifyPin pin k = (inl Keycard.KeycardNotConnected, k))
  /\ (forall path, Keycard.derivePublicKey path k
                   = (inl Keycard.KeycardNotConnected, k))
  /\ (forall path, Keycard.getEthereumAddress address path k
                   = (inl Keycard.KeycardNotConnected, k))
  /\ (forall transaction,
         Keycard.signTransaction Transaction serialize keccak256 transaction k
         = (inl Keycard.KeycardNotConnected, k))
  /\ (forall message, Keycard.signMessage hashMessage message k
                      = (inl Keycard.KeycardNotConnected, k)).
Proof.
  intros Hc. repeat split; intros x.
  - unfold Keycard.verifyPin. now rewrite Hc.
  - unfold Keycard.derivePublicKey. now rewrite Hc.
  - unfold Keycard.getEthereumAddress, Keycard.derivePublicKey. now rewrite Hc.
  - unfold Keycard.signTransaction. now rewrite Hc.
  - unfold Keycard.signMessage. now rewrite Hc.
Qed.

(** X19.  After any sequence of calls on a new service the stored
    [pinRetries], when there is a status, is at most 3: nothing raises the
    counter above the value [initializeKeycard] gives it, and in particular
    a successful verification does not restore it. *)
Theorem storedRetries_at_most_three
    (ops : list (Keycard.Op Transaction)) (n : Z) :
  Keycard.storedRetries
    (Keycard.run Transaction serialize keccak256 hashMessage address ops Keycard.fresh)
  = Some n ->
  (n <= 3)%Z.
Proof.
  intros H.
  destruct (KeycardRunFacts.run_keeps_bounded serialize keccak256 hashMessage
              address ops Keycard.fresh KeycardRunFacts.fresh_bounded) as [_ Hle].
  now apply Hle.
Qed.

(** X20.  On a connected service [signMessage] returns, for every message,
    a string that [isValidSignature] accepts, and [signTransaction] returns
    one in its [signature] field. *)
Theorem signatures_pass_isValidSignature
    (k : Keycard.Service) (message : list ascii)
    (transaction : Transaction) (serialized : list ascii) :
  Keycard.isConnected k = true ->
  serialize transaction = Some serialized ->
  (exists sg, fst (Keycard.signMessage hashMessage message k) = inr sg
              /\ HelperText.isValidSignature sg = true)
  /\ (exists res,
         fst (Keycard.signTransaction Transaction serialize keccak256 transaction k)
         = inr res
         /\ HelperText.isValidSignature (Keycard.signature res) = true).
Proof.
  intros Hc Hs. split.
  - unfold Keycard.signMessage. rewrite Hc. cbn [negb].
    eexists. split; [reflexivity |]. vm_compute. reflexivity.
  - unfold Keycard.signTransaction. rewrite Hc, Hs. cbn [negb].
    eexists. split; [reflexivity |]. vm_compute. reflexivity.
Qed.

End KeycardGates.

Lemma unconnected_service_refuses_witness :
  Keycard.verifyPin Scenario.acceptedPin Keycard.fresh
  = (inl Keycard.KeycardNotConnected, Keycard.fresh).
Proof.
  destruct (unconnected_service_refuses (Transaction := unit)
              Scenario.serialize Scenario.keccak256 Scenario.keccak256
              (fun _ => None) Keycard.fresh eq_refl) as (Hverify & _).
  apply Hverify.
Defined.

Lemma storedRetries_at_most_three_witness : (2 <= 3)%Z.
Proof.
  apply (storedRetries_at_most_three (Transaction := unit)
           Scenario.serialize Scenario.keccak256 Scenario.keccak256 (fun _ => None)
           [Keycard.InitializeKeycard unit;
            Keycard.VerifyPin unit Scenario.rejectedPin]
           2%Z).
  reflexivity.
Defined.

Lemma signatures_pass_isValidSignature_witness :
  exists sg,
    fst (Keycard.signMessage Scenario.keccak256 (chars "hello") Scenario.connected)
    = inr sg
    /\ HelperText.isValidSignature sg = true.
Proof.
  apply (proj1 (signatures_pass_isValidSignature (Transaction := unit)
                  Scenario.serialize Scenario.keccak256 Scenario.keccak256
                  Scenario.connected (chars "hello") tt (chars "0xf86a")
                  eq_refl eq_refl)).
Defined.

(** X18.  On a connected service the outcome of [verifyPin] depends on the
    shape of the PIN alone: it returns [true] exactly for the PINs of four
    or of six decimal digits, whatever the digits, and a successful call
    leaves the stored retry counter as it was. *)
Theorem verifyPin_accepts_by_length (pin : list ascii) (k : Keycard.Service) :
  Keycard.isConnected k = true ->
  (fst (Keycard.verifyPin pin k) = inr true <->
   (length pin = 4%nat \/ length pin = 6%nat)
   /\ Forall (fun c => Regex.isDigit c = true) pin)
  /\ (fst (Keycard.verifyPin pin k) = inr true ->
      Keycard.storedRetries (snd (Keycard.verifyPin pin k))
      = Keycard.storedRetries k).
Proof.
  intros Hc. rewrite KeycardFacts.verifyPin_cases, Hc. cbn [negb].
  destruct (Regex.matches Keycard.pinPattern pin) eqn:Hm; cbn [negb].
  - apply KeycardFacts.pinPattern_iff in Hm as [Hlen Hall].
    destruct ((length pin =? 4)%nat || (length pin =? 6)%nat) eqn:Hacc.
    + apply orb_true_iff in Hacc. rewrite !Nat.eqb_eq in Hacc.
      cbn [fst snd]. split; [| reflexivity].
      split; [intros _; now split | reflexivity].
    + apply orb_false_iff in Hacc as [H4 H6].
      apply Nat.eqb_neq in H4, H6.
      split.
      * split; [| intros [[? | ?] _]; contradiction].
        destruct (Keycard.cardStatus k), (Keycard.currentStatus k);
          intros H; discriminate H.
      * destruct (Keycard.cardStatus k), (Keycard.currentStatus k);
          intros H; discriminate H.
  - cbn [fst]. split.
    + split; [discriminate |].
      intros [Hlen Hall]. exfalso.
      assert (Hm' : Regex.matches Keycard.pinPattern pin = true).
      { apply KeycardFacts.pinPattern_iff. split; [lia | assumption]. }
      congruence.
    + discriminate.
Qed.

Lemma verifyPin_accepts_by_length_witness :
  fst (Keycard.verifyPin (chars "000000") Scenario.connected) = inr true.
Proof.
  apply (proj1 (verifyPin_accepts_by_length (chars "000000") Scenario.connected
                  eq_refl)).
  split; [right; reflexivity | repeat constructor].
Defined.

(** ** NFCModule.java: hexadecimal text *)

Module JavaHexFacts.
Import Hex HexFacts NFCModuleJava.

Lemma list_pair_ind {A} (P : list A -> Prop) :
  P [] -> (forall a, P [a]) -> (forall a b l, P l -> P (a :: b :: l)) ->
  forall l, P l.
Proof.
  intros H0 H1 H2. fix IH 1.
  intros [| a [| b l]]; [exact H0 | apply H1 | apply H2, IH].
Qed.

Lemma toByte_pair (a b : ascii) (x y : N) :
  hexVal a = Some x -> hexVal b = Some y ->
  toByte (Z.shiftl (digit16 a) 4 + digit16 b) = 16 * x + y.
Proof.
  intros Ha Hb. unfold digit16. rewrite Ha, Hb.
  destruct (HelperTextFacts.hexVal_lower a x Ha) as [Hx _].
  destruct (HelperTextFacts.hexVal_lower b y Hb) as [Hy _].
  rewrite Z.shiftl_mul_pow2 by lia. unfold toByte.
  rewrite Z.mod_small by lia. lia.
Qed.

Lemma half_succ_succ (n : nat) : Nat.div (S (S n)) 2 = S (Nat.div n 2).
Proof.
  replace (S (S n)) with (1 * 2 + n)%nat by lia.
  now rewrite Nat.div_add_l by lia.
Qed.

(** The loop, from any even position on: with an even number of characters
    left it fills the remaining cells, with the bytes of [Buffer.from] when
    the characters are hexadecimal digits; with an odd number left it ends
    in the exception of [charAt]. *)
Lemma hexStringLoop_rest (rest : list ascii) :
  forall (done : list ascii) (pre : list N) (fuel : nat),
    length done = (2 * length pre)%nat ->
    (length rest <= fuel)%nat ->
    (Nat.Even (length rest) ->
     exists out,
       hexStringLoop fuel (length done) (done ++ rest)
                     (pre ++ repeat 0 (Nat.div (length rest) 2))
       = Some (pre ++ out)
       /\ length out = Nat.div (length rest) 2
       /\ (isHexText rest -> out = Buffer_from_hex rest))
    /\ (Nat.Odd (length rest) ->
        hexStringLoop fuel (length done) (done ++ rest)
                      (pre ++ repeat 0 (Nat.div (length rest) 2))
        = None).
Proof.
  induction rest as [| a | a b rest IH] using list_pair_ind;
    intros done pre fuel Hdone Hfuel.
  - split.
    + intros _. exists [].
      change (Nat.div (length (@nil ascii)) 2) with 0%nat. cbn [repeat].
      split; [| split; [reflexivity | reflexivity]].
      destruct fuel as [| f]; cbn [hexStringLoop]; [reflexivity |].
      now rewrite (app_nil_r done), Nat.ltb_irrefl.
    + intros [k Hk]. cbn in Hk. lia.
  - split.
    + intros [k Hk]. cbn in Hk. lia.
    + intros _. destruct fuel as [| f]; [cbn in Hfuel; lia |].
      cbn [hexStringLoop].
      assert (Hlt : (length done <? length (done ++ [a]))%nat = true).
      { apply Nat.ltb_lt. rewrite length_app. cbn. lia. }
      rewrite Hlt.
      rewrite nth_error_app2, Nat.sub_diag by lia. cbn [nth_error].
      rewrite nth_error_app2 by lia.
      replace (length done + 1 - length done)%nat with 1%nat by lia.
      reflexivity.
  - destruct fuel as [| f]; [cbn in Hfuel; lia |].
    assert (Hlt : (length done <? length (done ++ a :: b :: rest))%nat = true).
    { apply Nat.ltb_lt. rewrite length_app. cbn. lia. }
    assert (Hidx : Nat.div (length done) 2 = length pre).
    { rewrite Hdone, Nat.mul_comm. now apply Nat.div_mul. }
    assert (Hstep :
      hexStringLoop (S f) (length done) (done ++ a :: b :: rest)
                    (pre ++ repeat 0 (Nat.div (length (a :: b :: rest)) 2))
      = hexStringLoop f (length (done ++ [a; b])) ((done ++ [a; b]) ++ rest)
          ((pre ++ [toByte (Z.shiftl (digit16 a) 4 + digit16 b)])
           ++ repeat 0 (Nat.div (length rest) 2))).
    { cbn [hexStringLoop]. rewrite Hlt.
      rewrite nth_error_app2, Nat.sub_diag by lia. cbn [nth_error].
      rewrite nth_error_app2 by lia.
      replace (length done + 1 - length done)%nat with 1%nat by lia.
      cbn [nth_error length]. rewrite half_succ_succ, Hidx. cbn [repeat].
      rewrite insert_app_r_alt, Nat.sub_diag by lia. cbn [insert list_insert].
      rewrite length_app. cbn [length].
      rewrite <- !app_assoc. reflexivity. }
    rewrite Hstep.
    specialize (IH (done ++ [a; b])
                   (pre ++ [toByte (Z.shiftl (digit16 a) 4 + digit16 b)]) f).
    destruct IH as [IHeven IHodd].
    { rewrite !length_app. cbn [length]. lia. }
    { cbn in Hfuel. lia. }
    split.
    + intros Heven.
      assert (Heven' : Nat.Even (length rest)).
      { destruct Heven as [k Hk]. cbn [length] in Hk. exists (k - 1)%nat. lia. }
      destruct (IHeven Heven') as (out & Heq & Hlen & Hhex).
      exists (toByte (Z.shiftl (digit16 a) 4 + digit16 b) :: out).
      split; [rewrite Heq, <- app_assoc; reflexivity |].
      split; [cbn [length]; rewrite half_succ_succ; lia |].
      intros [Hall Hev]. inversion Hall as [| ? ? Ha Hall1]; subst.
      inversion Hall1 as [| ? ? Hb Hall2]; subst.
      destruct (hexVal a) as [x |] eqn:Ea; [| contradiction].
      destruct (hexVal b) as [y |] eqn:Eb; [| contradiction].
      cbn [Buffer_from_hex]. rewrite Ea, Eb.
      rewrite (toByte_pair a b x y Ea Eb). f_equal.
      apply Hhex. split; assumption.
    + intros Hodd. apply IHodd.
      destruct Hodd as [k Hk]. cbn [length] in Hk. exists (k - 1)%nat. lia.
Qed.

Lemma hexStringToByteArray_cases (s : list ascii) :
  (Nat.Even (length s) ->
   exists data,
     hexStringToByteArray s = Some data
     /\ length data = Nat.div (length s) 2
     /\ (isHexText s -> data = Buffer_from_hex s))
  /\ (Nat.Odd (length s) -> hexStringToByteArray s = None).
Proof.
  unfold hexStringToByteArray.
  exact (hexStringLoop_rest s [] [] (length s) eq_refl (le_n _)).
Qed.

Lemma hexVal_upperHexChar (d : N) : d < 16 -> hexVal (upperHexChar d) = Some d.
Proof.
  intros Hd. apply small_cases in Hd.
  repeat (destruct Hd as [-> | Hd]; [reflexivity |]). subst. reflexivity.
Qed.

Lemma Buffer_from_hex_format02X (b : N) (rest : list ascii) :
  isByte b -> Buffer_from_hex (format02X b ++ rest) = b :: Buffer_from_hex rest.
Proof.
  unfold isByte. intros Hb. cbn [format02X app Buffer_from_hex].
  rewrite !hexVal_upperHexChar.
  - f_equal. pose proof (N.div_mod b 16). lia.
  - apply N.mod_lt. lia.
  - apply N.Div0.div_lt_upper_bound. lia.
Qed.

Lemma Buffer_from_hex_byteArrayToHexString (bytes : list N) :
  Forall isByte bytes -> Buffer_from_hex (byteArrayToHexString bytes) = bytes.
Proof.
  induction 1 as [| b bytes Hb _ IH]; [reflexivity |].
  unfold byteArrayToHexString in *. cbn [flat_map].
  now rewrite Buffer_from_hex_format02X, IH.
Qed.

Lemma byteArrayToHexString_isHexText (bytes : list N) :
  Forall isByte bytes -> isHexText (byteArrayToHexString bytes).
Proof.
  intros Hall. split.
  - induction Hall as [| b bytes Hb _ IH]; [constructor |].
    unfold byteArrayToHexString, format02X in *. cbn [flat_map app].
    unfold isByte in Hb.
    constructor; [| constructor; [| exact IH]].
    + rewrite hexVal_upperHexChar; [discriminate |].
      apply N.Div0.div_lt_upper_bound. lia.
    + rewrite hexVal_upperHexChar; [discriminate |].
      apply N.mod_lt. lia.
  - exists (length bytes).
    induction bytes as [| b bytes IH]; [reflexivity |].
    inversion Hall; subst.
    unfold byteArrayToHexString in *. cbn [flat_map format02X app length].
    rewrite IH by assumption. lia.
Qed.

Lemma hexVal_upper (c : ascii) (x : N) :
  hexVal c = Some x -> upperHexChar x = HelperText.upperChar c.
Proof.
  destruct c as [[] [] [] [] [] [] [] []]; vm_compute; try discriminate;
    intros [= <-]; reflexivity.
Qed.

Lemma byteArrayToHexString_from_hex (h : list ascii) :
  isHexText h -> byteArrayToHexString (Buffer_from_hex h) = HelperText.toUpperCase h.
Proof.
  intros Hh.
  induction Hh as [| a b x y rest Ha Hb _ IH] using isHexText_ind2;
    [reflexivity |].
  cbn [Buffer_from_hex]. rewrite Ha, Hb.
  destruct (HelperTextFacts.hexVal_lower a x Ha) as [Hx _].
  destruct (HelperTextFacts.hexVal_lower b y Hb) as [Hy _].
  unfold byteArrayToHexString, HelperText.toUpperCase in *.
  cbn [flat_map map]. rewrite IH. unfold format02X. cbn [app].
  replace ((16 * x + y) / 16) with x
    by (rewrite N.mul_comm, N.div_add_l by lia; rewrite N.div_small; lia).
  replace ((16 * x + y) mod 16) with y
    by (rewrite N.add_comm, N.mul_comm, N.Div0.mod_add, N.mod_small; lia).
  now rewrite (hexVal_upper a x Ha), (hexVal_upper b y Hb).
Qed.

Lemma isHexText_app (s t : list ascii) :
  isHexText s -> isHexText t -> isHexText (s ++ t).
Proof.
  intros [Hs [k Hk]] [Ht [j Hj]]. split.
  - now apply Forall_app.
  - exists (k + j)%nat. rewrite length_app. lia.
Qed.

Lemma isHexText_hex2 (b : N) : isByte b -> isHexText (hex2 b).
Proof.
  intros Hb.
  change (hex2 b) with (Buffer_toString_hex [b]).
  apply HelperTextFacts.toString_hex_isHexText. now constructor.
Qed.

Lemma formatAPDU_isHexText (apdu : NFC.KeycardAPDU) :
  isHexText (default [] (NFC.data apdu)) -> isHexText (NFC.formatAPDU apdu).
Proof.
  intros Hd. rewrite NFCFacts.formatAPDU_text.
  repeat (apply isHexText_app; [apply isHexText_hex2, NFCFacts.mod256_byte |]).
  apply isHexText_app; [exact Hd |].
  destruct (NFC.le apdu); [apply isHexText_hex2, NFCFacts.mod256_byte |].
  split; [constructor | now exists 0%nat].
Qed.

End JavaHexFacts.

(** X21.  The Java [hexStringToByteArray] returns exactly for the strings of
    even length, with one byte per pair of characters whatever the
    characters are; on a string of odd length it ends in the exception of
    [charAt]. *)
Theorem hexStringToByteArray_parity (s : list ascii) :
  (Nat.Even (length s) ->
   exists data,
     NFCModuleJava.hexStringToByteArray s = Some data
     /\ length data = Nat.div (length s) 2)
  /\ (Nat.Odd (length s) -> NFCModuleJava.hexStringToByteArray s = None).
Proof.
  destruct (JavaHexFacts.hexStringToByteArray_cases s) as [Heven Hodd].
  split; [| exact Hodd].
  intros He. destruct (Heven He) as (data & Heq & Hlen & _). now exists data.
Qed.

Lemma hexStringToByteArray_parity_witness :
  (exists data,
      NFCModuleJava.hexStringToByteArray (chars "zz01") = Some data
      /\ length data = Nat.div (length (chars "zz01")) 2)
  /\ NFCModuleJava.hexStringToByteArray (chars "00A") = None.
Proof.
  split.
  - apply (proj1 (hexStringToByteArray_parity (chars "zz01"))).
    exists 2%nat. reflexivity.
  - apply (proj2 (hexStringToByteArray_parity (chars "00A"))).
    exists 1%nat. reflexivity.
Defined.

(** X22.  The two Java conversions are inverse to each other:
    [hexStringToByteArray(byteArrayToHexString(bytes))] is [bytes], and for
    well-formed hexadecimal text [h],
    [byteArrayToHexString(hexStringToByteArray(h))] is [h] in upper
    case. *)
Theorem java_hex_round_trip :
  (forall bytes,
      Forall Hex.isByte bytes ->
      NFCModuleJava.hexStringToByteArray (NFCModuleJava.byteArrayToHexString bytes)
      = Some bytes)
  /\ (forall h,
         Hex.isHexText h ->
         exists data,
           NFCModuleJava.hexStringToByteArray h = Some data
           /\ NFCModuleJava.byteArrayToHexString data = HelperText.toUpperCase h).
Proof.
  split.
  - intros bytes Hb.
    pose proof (JavaHexFacts.byteArrayToHexString_isHexText bytes Hb) as Htext.
    destruct (JavaHexFacts.hexStringToByteArray_cases
                (NFCModuleJava.byteArrayToHexString bytes)) as [Heven _].
    destruct (Heven (proj2 Htext)) as (data & Heq & _ & Hhex).
    rewrite Heq, (Hhex Htext).
    now rewrite JavaHexFacts.Buffer_from_hex_byteArrayToHexString.
  - intros h Hh.
    destruct (JavaHexFacts.hexStringToByteArray_cases h) as [Heven _].
    destruct (Heven (proj2 Hh)) as (data & Heq & _ & Hhex).
    exists data. split; [exact Heq |].
    rewrite (Hhex Hh). now apply JavaHexFacts.byteArrayToHexString_from_hex.
Qed.

Lemma java_hex_round_trip_witness :
  NFCModuleJava.hexStringToByteArray
    (NFCModuleJava.byteArrayToHexString [0; 164; 255]) = Some [0; 164; 255].
Proof.
  apply (proj1 java_hex_round_trip [0; 164; 255]).
  repeat constructor.
Defined.

(** X23.  The native module and the JavaScript service read a frame alike:
    for a command whose numeric fields are non-negative integers and whose
    data, if any, is well-formed hexadecimal text, the Java
    [hexStringToByteArray] applied to the text of [formatAPDU] gives the
    bytes that [Buffer.from(text, 'hex')] gives. *)
Theorem java_decodes_formatAPDU (apdu : NFC.KeycardAPDU) :
  Hex.isHexText (default [] (NFC.data apdu)) ->
  NFCModuleJava.hexStringToByteArray (NFC.formatAPDU apdu)
  = Some (NFC.wireBytes apdu).
Proof.
  intros Hd.
  pose proof (JavaHexFacts.formatAPDU_isHexText apdu Hd) as Htext.
  destruct (JavaHexFacts.hexStringToByteArray_cases (NFC.formatAPDU apdu))
    as [Heven _].
  destruct (Heven (proj2 Htext)) as (data & Heq & _ & Hhex).
  rewrite Heq, (Hhex Htext). reflexivity.
Qed.

Lemma java_decodes_formatAPDU_witness :
  NFCModuleJava.hexStringToByteArray (NFC.formatAPDU NFCService.selectAPDU)
  = Some (NFC.wireBytes NFCService.selectAPDU).
Proof.
  apply (java_decodes_formatAPDU NFCService.selectAPDU).
  split; [repeat constructor; discriminate | exists 7%nat; reflexivity].
Defined.

Section NativeModule.

Context {IsoDep : Type}.
Context (isConnected : IsoDep -> bool).
Context (transceive : IsoDep -> list N -> option (list N) * IsoDep).
Context (close : IsoDep -> bool * IsoDep).

(** X24.  Whenever [disconnectTag] resolves, a following [sendAPDU] is
    rejected with NFC_ERROR for every command text, without an exchange:
    the module is left as [disconnectTag] left it.  [disconnectTag]
    resolves in particular whenever there is no tag object or the tag
    object is not connected, and then changes nothing. *)
Theorem sendAPDU_after_disconnect
    (m : NFCModuleJava.Module IsoDep) (apduHex : list ascii) :
  (fst (NFCModuleJava.disconnectTag IsoDep isConnected close m) = inr tt ->
   NFCModuleJava.sendAPDU IsoDep isConnected transceive apduHex
     (snd (NFCModuleJava.disconnectTag IsoDep isConnected close m))
   = (inl NFCModuleJava.NFC_ERROR,
      snd (NFCModuleJava.disconnectTag IsoDep isConnected close m)))
  /\ ((forall d, NFCModuleJava.isoDep m = Some d -> isConnected d = false) ->
      NFCModuleJava.disconnectTag IsoDep isConnected close m = (inr tt, m)).
Proof.
  unfold NFCModuleJava.disconnectTag, NFCModuleJava.sendAPDU.
  destruct m as [[d |]]; cbn [NFCModuleJava.isoDep].
  - destruct (isConnected d) eqn:Hc.
    + split.
      * destruct (close d) as [[|] d']; cbn [fst snd NFCModuleJava.isoDep];
          [reflexivity | discriminate].
      * intros H. specialize (H d eq_refl). congruence.
    + split; [| reflexivity].
      intros _. cbn [snd NFCModuleJava.isoDep]. now rewrite Hc.
  - split; reflexivity.
Qed.

End NativeModule.

Lemma sendAPDU_after_disconnect_witness :
  NFCModuleJava.sendAPDU bool (fun d => d) (fun d _ => (Some [0x90; 0x00], d))
    (chars "00A40400")
    (snd (NFCModuleJava.disconnectTag bool (fun d => d) (fun d => (true, false))
            (NFCModuleJava.mkModule (Some true))))
  = (inl NFCModuleJava.NFC_ERROR,
     snd (NFCModuleJava.disconnectTag bool (fun d => d) (fun d => (true, false))
            (NFCModuleJava.mkModule (Some true)))).
Proof.
  apply (proj1 (sendAPDU_after_disconnect (fun d : bool => d)
                  (fun d _ => (Some [0x90; 0x00], d)) (fun d => (true, false))
                  (NFCModuleJava.mkModule (Some true)) (chars "00A40400"))).
  reflexivity.
Defined.

(** ** EthereumService *)

Module EthereumFacts.
Import EthereumService.

Lemma waitLoop_never (txHash : list ascii) (wanted : N) :
  12 < wanted ->
  forall rounds p,
    waitLoop rounds txHash wanted p
    = (inl ConfirmationTimeout,
       {| polls := polls p + rounds; pauses := pauses p ++ repeat 1000 rounds |}).
Proof.
  intros Hw. induction rounds as [| r IH]; intros p; cbn [waitLoop].
  - cbn [repeat]. rewrite app_nil_r, Nat.add_0_r. now destruct p.
  - cbn [getTransactionReceipt confirmations].
    destruct (N.leb_spec wanted 12) as [Hle | _]; [lia |].
    rewrite IH. cbn [polls pauses repeat].
    rewrite <- app_assoc. cbn [app]. do 2 f_equal. lia.
Qed.

Lemma waitLoop_first (txHash : list ascii) (wanted : N) (rounds : nat) (p : Waiting) :
  wanted <= 12 ->
  waitLoop (S rounds) txHash wanted p
  = (inr (getTransactionReceipt txHash),
     {| polls := S (polls p); pauses := pauses p |}).
Proof.
  intros Hw. cbn [waitLoop getTransactionReceipt confirmations].
  destruct (N.leb_spec wanted 12) as [_ | Hgt]; [reflexivity | lia].
Qed.

End EthereumFacts.

(** X25.  [waitForTransaction] asks for the receipt once and returns it at
    once, without a pause, when at most 12 confirmations are wanted; when
    more are wanted it asks 120 times, pausing one second after each, and
    then throws 'Transaction confirmation timeout'. *)
Theorem waitForTransaction_outcome (txHash : list ascii) (wanted : N) :
  (wanted <= 12 ->
   EthereumService.waitForTransaction txHash wanted
   = (inr (EthereumService.getTransactionReceipt txHash),
      EthereumService.mkWaiting 1 []))
  /\ (12 < wanted ->
      EthereumService.waitForTransaction txHash wanted
      = (inl EthereumService.ConfirmationTimeout,
         EthereumService.mkWaiting 120 (repeat 1000 120))).
Proof.
  unfold EthereumService.waitForTransaction. split; intros Hw.
  - exact (EthereumFacts.waitLoop_first txHash wanted 119
             (EthereumService.mkWaiting 0 []) Hw).
  - rewrite (EthereumFacts.waitLoop_never txHash wanted Hw). reflexivity.
Qed.

Lemma waitForTransaction_outcome_witness :
  EthereumService.waitForTransaction (chars "0xab") 1
  = (inr (EthereumService.getTransactionReceipt (chars "0xab")),
     EthereumService.mkWaiting 1 [])
  /\ fst (EthereumService.waitForTransaction (chars "0xab") 13)
     = inl EthereumService.ConfirmationTimeout.
Proof.
  split.
  - apply (proj1 (waitForTransaction_outcome (chars "0xab") 1)). discriminate.
  - rewrite (proj2 (waitForTransaction_outcome (chars "0xab") 13) eq_refl).
    reflexivity.
Defined.

Section PassportRequests.

Context {Body : Type} (get : HumanPassport.Request -> option Body).

(** X26.  [getPassportScore] and [getUserStamps] check the address before
    anything else: for an address that is not ["0x"] and forty hexadecimal
    digits they throw 'Invalid Ethereum address format' and no request is
    made; for a valid address exactly one request is made, whether it
    succeeds or not. *)
Theorem passport_requests_need_valid_address
    (address : list ascii) (lim : option N) (tok : option (list ascii))
    (s : HumanPassport.Service) :
  (HelperText.isValidEthereumAddress address = false ->
   HumanPassport.getPassportScore Body get address s
   = (inl HumanPassport.InvalidAddressFormat, s)
   /\ HumanPassport.getUserStamps Body get address lim tok s
      = (inl HumanPassport.InvalidAddressFormat, s))
  /\ (HelperText.isValidEthereumAddress address = true ->
      length (HumanPassport.requests
                (snd (HumanPassport.getPassportScore Body get address s)))
      = S (length (HumanPassport.requests s))
      /\ length (HumanPassport.requests
                   (snd (HumanPassport.getUserStamps Body get address lim tok s)))
         = S (length (HumanPassport.requests s))
      /\ fst (HumanPassport.getPassportScore Body get address s)
         <> inl HumanPassport.InvalidAddressFormat).
Proof.
  unfold HumanPassport.getPassportScore, HumanPassport.getUserStamps.
  change (Regex.matches HelperText.addressRegex address)
    with (HelperText.isValidEthereumAddress address).
  split; intros Hv; rewrite Hv; cbn [negb]; [split; reflexivity |].
  repeat split.
  - destruct (get _); cbn [snd HumanPassport.record HumanPassport.requests];
      rewrite length_app; cbn; lia.
  - destruct (get _); cbn [snd HumanPassport.record HumanPassport.requests];
      rewrite length_app; cbn; lia.
  - destruct (get _); discriminate.
Qed.

End PassportRequests.

Lemma passport_requests_need_valid_address_witness :
  HumanPassport.getPassportScore unit (fun _ => Some tt) (chars "0x12")
    (HumanPassport.mkService (chars "100") [])
  = (inl HumanPassport.InvalidAddressFormat,
     HumanPassport.mkService (chars "100") []).
Proof.
  apply (proj1 (passport_requests_need_valid_address (fun _ => Some tt)
                  (chars "0x12") None None
                  (HumanPassport.mkService (chars "100") []))).
  reflexivity.
Defined.

(** ** NFCService: start, scan, clean up *)

Module NFCLifecycleFacts.
Import NFCService NFCLifecycle.

Section Flags.

Context {Card : Type} (transceive : Card -> list N -> option (list N) * Card).

Lemma sendAPDU_flags (apdu : NFC.KeycardAPDU) (w : World Card) :
  isInitialized (snd (sendAPDU Card transceive apdu w)) = isInitialized w
  /\ isScanning (snd (sendAPDU Card transceive apdu w)) = isScanning w.
Proof.
  unfold sendAPDU. destruct (isInitialized w) eqn:Hi; cbn [negb].
  - destruct (transceive (card w) _) as [[r |] c]; now split.
  - cbn [snd]. split; [exact Hi | reflexivity].
Qed.

Lemma call_flags (m : Method) (w : World Card) :
  isInitialized (snd (call Card transceive m w)) = isInitialized w
  /\ isScanning (snd (call Card transceive m w)) = isScanning w.
Proof.
  assert (Hbind : forall apdu,
             isInitialized
               (snd (bind Card (selectKeycard Card transceive)
                       (fun _ => sendAPDU Card transceive apdu) w))
             = isInitialized w
             /\ isScanning
                  (snd (bind Card (selectKeycard Card transceive)
                          (fun _ => sendAPDU Card transceive apdu) w))
                = isScanning w).
  { intros apdu. unfold bind, selectKeycard.
    destruct (sendAPDU_flags selectAPDU w) as [H1 H2].
    destruct (sendAPDU Card transceive selectAPDU w) as [[e | a] w1];
      cbn [snd] in *; [now split |].
    destruct (sendAPDU_flags apdu w1) as [H3 H4]. split; congruence. }
  destruct m; cbn [call]; try apply Hbind. apply sendAPDU_flags.
Qed.

Lemma step_flags (o : Op) (w : World Card) :
  isScanning w = false ->
  isScanning (step Card transceive o w) = false
  /\ isInitialized (step Card transceive o w)
     = match o with
       | Initialize true => true
       | Cleanup _ => false
       | _ => isInitialized w
       end.
Proof.
  intros Hs. destruct o as [[|] | requestOk getTag cancelOk | cancelOk | cancelOk | m];
    cbn [step].
  - now split.
  - now split.
  - unfold startScanning. destruct (isInitialized w) eqn:Hi; cbn [negb snd].
    + now split.
    + split; [exact Hs | exact Hi].
  - now split.
  - unfold cleanup. rewrite Hs. now split.
  - destruct (call_flags m w) as [H1 H2]. split; congruence.
Qed.

End Flags.

End NFCLifecycleFacts.

Section ServiceLifecycle.

Context {Card : Type} (transceive : Card -> list N -> option (list N) * Card).

(** X27.  After any sequence of completed calls on a new service
    [isCurrentlyScanning()] is false, since [startScanning] resets the flag
    on every path, and the service is initialised exactly when a successful
    [initialize] has been made since the last [cleanup]: a failed
    [initialize] changes nothing and no other call touches the flag. *)
Theorem lifecycle_flags (ops : list NFCLifecycle.Op) (c : Card) :
  let w := NFCLifecycle.run Card transceive ops (NFCLifecycle.created Card c) in
  NFCLifecycle.isCurrentlyScanning Card w = false
  /\ NFCService.isInitialized w = NFCLifecycle.initialisedAfter ops.
Proof.
  cbv zeta. unfold NFCLifecycle.run, NFCLifecycle.initialisedAfter,
    NFCLifecycle.isCurrentlyScanning.
  assert (Hgen : forall w,
             NFCService.isScanning w = false ->
             NFCService.isScanning
               (fold_left (fun acc o => NFCLifecycle.step Card transceive o acc) ops w)
             = false
             /\ NFCService.isInitialized
                  (fold_left (fun acc o => NFCLifecycle.step Card transceive o acc) ops w)
                = fold_left (fun acc o =>
                               match o with
                               | NFCLifecycle.Initialize true => true
                               | NFCLifecycle.Cleanup _ => false
                               | _ => acc
                               end) ops (NFCService.isInitialized w)).
  { induction ops as [| o ops IH]; intros w Hs; [now split |].
    cbn [fold_left].
    destruct (NFCLifecycleFacts.step_flags transceive o w Hs) as [Hs' Hi'].
    destruct (IH _ Hs') as [H1 H2]. split; [exact H1 |].
    rewrite H2, Hi'. reflexivity. }
  apply (Hgen (NFCLifecycle.created Card c)). reflexivity.
Qed.

End ServiceLifecycle.
